(** * The Hissp compiler: a shallow embedding and its specification

    This development embeds the Hissp compiler, [src/hissp/compiler.py]: the
    class [Compiler] with its tracer [_trace], the special forms [quote] and
    [lambda], the macro container [_macro_], the context variable [NS] and
    the compile-and-execute pipeline.  It then states and proves what the
    compiler's specification says about it.

    Python values, exceptions and the fields of the compiler object are
    explicit data.  The methods are state-passing functions that may raise;
    the recursion of [Compiler.form] through sub-forms and macro expansions,
    and the drawing of items from an iterator, are bounded by a budget, since
    a macro may expand, and an iterator yield, without end.  What the
    compiler asks of the Python runtime ([repr], [pprint.pformat],
    [ast.literal_eval], [pickle], [eval], [exec], calling a macro, [iter]
    and [next]) is a field of the record [Host]; the compiler's own text
    processing ([str.replace], [str.split], its two regular expressions) is
    defined here.

    The repository also keeps an earlier version of the compiler,
    [hissp/compiler.py]; its [quote] dispatch is embedded in [Legacy] for
    comparison. *)

From Stdlib Require Import String Ascii List ZArith Bool Lia.
From Stdlib Require Import DecimalString.
Import ListNotations.
Local Open Scope string_scope.
Local Open Scope list_scope.

Set Implicit Arguments.
Set Warnings "-register-all".

(* ===================================================================== *)
(** ** Text primitives *)
(* ===================================================================== *)

Module Text.

(** The line feed, written ["\n"] in the source. *)
Definition NL : string := String (ascii_of_nat 10) EmptyString.

Fixpoint drop (n : nat) (s : string) : string :=
  match n, s with
  | O, _ => s
  | S k, String _ s' => drop k s'
  | S _, EmptyString => EmptyString
  end.

(** [s.startswith(p)] *)
Definition startswith (p s : string) : bool := String.prefix p s.

Fixpoint rev_string (acc s : string) : string :=
  match s with
  | EmptyString => acc
  | String c s' => rev_string (String c acc) s'
  end.

(** [s.endswith(p)] *)
Definition endswith (p s : string) : bool :=
  String.prefix (rev_string "" p) (rev_string "" s).

(** [s[:-1]] *)
Definition drop_last (s : string) : string :=
  rev_string "" (drop 1 (rev_string "" s)).

(** The leftmost occurrence of [pat] in [s]: the text before it and the
    text after it. *)
Fixpoint find_sub (pat s : string) : option (string * string) :=
  if String.prefix pat s then Some ("", drop (String.length pat) s)
  else match s with
       | EmptyString => None
       | String c s' =>
           match find_sub pat s' with
           | Some (b, a) => Some (String c b, a)
           | None => None
           end
       end.

(** [pat in s] *)
Definition contains (pat s : string) : bool :=
  match find_sub pat s with Some _ => true | None => false end.

(** [s.split(sep, 1)] for a non-empty separator. *)
Definition split1 (sep s : string) : list string :=
  match find_sub sep s with
  | Some (b, a) => [b; a]
  | None => [s]
  end.

(** [s.replace(old, new, 1)] for a non-empty [old]. *)
Definition replace1 (old new s : string) : string :=
  match find_sub old s with
  | Some (b, a) => b ++ new ++ a
  | None => s
  end.

Fixpoint replace_from (old new : string) (skip : nat) (s : string) : string :=
  match s with
  | EmptyString => EmptyString
  | String c s' =>
      match skip with
      | S k => replace_from old new k s'
      | O =>
          if String.prefix old s
          then new ++ replace_from old new (String.length old - 1) s'
          else String c (replace_from old new 0 s')
      end
  end.

(** [s.replace(old, new)] for a non-empty [old] (every use in the compiler
    replaces the line feed). *)
Definition replace (old new s : string) : string :=
  match old with
  | EmptyString => s
  | _ => replace_from old new 0 s
  end.

(** [sep.join(items)] *)
Definition join (sep : string) (items : list string) : string :=
  String.concat sep items.

Fixpoint has_char (p : ascii -> bool) (s : string) : bool :=
  match s with
  | EmptyString => false
  | String c s' => p c || has_char p s'
  end.

(** The leftmost match of the alternation [(p1|p2)], [p1] tried first at
    each position: the text before, the matched alternative, the text after. *)
Fixpoint find_alt (p1 p2 s : string) : option (string * string * string) :=
  if String.prefix p1 s then Some ("", p1, drop (String.length p1) s)
  else if String.prefix p2 s then Some ("", p2, drop (String.length p2) s)
  else match s with
       | EmptyString => None
       | String c s' =>
           match find_alt p1 p2 s' with
           | Some (b, m, a) => Some (String c b, m, a)
           | None => None
           end
       end.

(** The double quote character, for messages that contain it. *)
Definition DQ : string := String (ascii_of_nat 34) EmptyString.

Definition of_nat (n : nat) : string := NilEmpty.string_of_uint (Nat.to_uint n).

End Text.

Import Text.

(* ===================================================================== *)
(** ** Python data *)
(* ===================================================================== *)

(** [type(v)] for the values the compiler inspects. *)
Inductive pytype : Type :=
| TEllipsis | TNoneType | TBool | TInt | TFloat | TComplex
| TStr | TBytes | TTuple | TList | TSet | TDict
| TClass (name : string).

(** Python values.  Immutable builtins are structural.  A float is its
    IEEE-754 binary64 bit pattern and a complex number is two of them; what
    they print as and whether two of them are equal is the host's business.
    [VObject ty id] is a heap object the compiler never looks into: a
    function, a module, an instance, or a container reached through a
    reference (a list that contains itself).  Its type is [ty]; [ty] is never
    [TStr] or [TTuple], which are always structural. *)
Inductive value : Type :=
| VEllipsis
| VNone
| VBool (b : bool)
| VInt (n : Z)
| VFloat (bits : Z)
| VComplex (re im : Z)
| VStr (s : string)
| VBytes (b : string)
| VTuple (items : list value)
| VList (items : list value)
| VSet (items : list value)
| VDict (items : list (value * value))
| VObject (ty : pytype) (id : nat).

Definition type_of (v : value) : pytype :=
  match v with
  | VEllipsis => TEllipsis
  | VNone => TNoneType
  | VBool _ => TBool
  | VInt _ => TInt
  | VFloat _ => TFloat
  | VComplex _ _ => TComplex
  | VStr _ => TStr
  | VBytes _ => TBytes
  | VTuple _ => TTuple
  | VList _ => TList
  | VSet _ => TSet
  | VDict _ => TDict
  | VObject ty _ => ty
  end.

(** [type(v).__name__] *)
Definition type_name (t : pytype) : string :=
  match t with
  | TEllipsis => "ellipsis"
  | TNoneType => "NoneType"
  | TBool => "bool"
  | TInt => "int"
  | TFloat => "float"
  | TComplex => "complex"
  | TStr => "str"
  | TBytes => "bytes"
  | TTuple => "tuple"
  | TList => "list"
  | TSet => "set"
  | TDict => "dict"
  | TClass name => name
  end.

(** [v == word] for a string constant [word] of the compiler ([":"],
    ["quote"], [":?"], ...). *)
Definition is_word (word : string) (v : value) : bool :=
  match v with
  | VStr s => String.eqb s word
  | _ => false
  end.

(** An exception object: [type(e).__name__], the names of the classes it is
    an instance of, [str(e)], the text [traceback.format_exc()] gives while
    it is handled, and its [__cause__]. *)
Inductive exn : Type :=
| Exn (name : string) (mro : list string) (msg : string) (tb : string)
      (cause : option exn).

Definition exc_name (e : exn) : string := let (n, _, _, _, _) := e in n.
Definition exc_mro (e : exn) : list string := let (_, m, _, _, _) := e in m.
Definition exc_msg (e : exn) : string := let (_, _, m, _, _) := e in m.
Definition exc_tb (e : exn) : string := let (_, _, _, t, _) := e in t.
Definition exc_cause (e : exn) : option exn := let (_, _, _, _, c) := e in c.

(** [isinstance(e, cls)] *)
Definition isinstance (e : exn) (cls : string) : bool :=
  existsb (String.eqb cls) (exc_mro e).

(** The exceptions the compiler's own statements raise. *)
Definition builtin_error (name : string) (bases : list string) (msg : string) : exn :=
  Exn name (name :: (bases ++ ["Exception"; "BaseException"])%list) msg "" None.

Definition IndexError := builtin_error "IndexError" ["LookupError"].
Definition KeyError := builtin_error "KeyError" ["LookupError"].
Definition TypeError := builtin_error "TypeError" [].
Definition ValueError := builtin_error "ValueError" [].
Definition StopIteration := builtin_error "StopIteration" [] "".
Definition AssertionError := builtin_error "AssertionError" [] "".

(** [class CompileError(SyntaxError)], raised [from cause]. *)
Definition CompileError (msg : string) (cause : option exn) : exn :=
  Exn "CompileError" ["CompileError"; "SyntaxError"; "Exception"; "BaseException"]
      msg "" cause.

(** What [sys.exit(1)] raises: [SystemExit(1)], which is not an [Exception]
    and ends the process with status 1 when nothing catches it. *)
Definition SystemExit_1 : exn :=
  Exn "SystemExit" ["SystemExit"; "BaseException"] "1" "" None.

(** The outcome of a Python expression or statement. *)
Inductive result (A : Type) : Type :=
| Ok (a : A)
| Raise (e : exn).
Arguments Ok {A} a.
Arguments Raise {A} e.

(** A [dict] with string keys: a module namespace, or [vars(obj)]. *)
Definition namespace : Type := list (string * value).

Fixpoint ns_get (d : namespace) (key : string) : option value :=
  match d with
  | [] => None
  | (k, v) :: d' => if String.eqb k key then Some v else ns_get d' key
  end.

(* ===================================================================== *)
(** ** The host interpreter *)
(* ===================================================================== *)

(** The part of the running Python process that compiled code and macros can
    read and change: the compiling unit's namespace dict, everything else
    (other modules, closures, counters), and the value of the context
    variable [NS]. *)
Record process (external : Type) : Type := Process {
  p_ns : namespace;
  p_ext : external;
  p_NS : value
}.

(** The services of the Python runtime the compiler calls.  Those that
    print or compare values are functions of the values alone: the objects
    they look at are taken not to change while a form is compiled.  Those
    that run Python code ([eval], a macro, [exec], an iterator) take the
    process and give it back changed. *)
Record Host (external : Type) : Type := {
  (** [repr(v)], also [f"{v!r}"] *)
  repr : value -> string;
  (** [f"{v}"] for a value that is not a [str] *)
  str : value -> string;
  (** [pprint.pformat(v, sort_dicts=b)] *)
  pformat : bool -> value -> string;
  (** [ast.literal_eval(text)] *)
  literal_eval : string -> result value;
  (** [a == b], as a truth value *)
  py_eq : value -> value -> bool;
  (** whether [hash(v)] succeeds *)
  hashable : value -> bool;
  (** [iter(v)] for a value that is not a builtin sequence: the iterator *)
  py_iter : value -> process external -> process external * result value;
  (** [next(it)]: the next item, [None] where [next] raises [StopIteration] *)
  py_next : value -> process external -> process external * result (option value);
  (** [pickle.dumps(v, protocol)] *)
  pickle_dumps : value -> Z -> result string;
  (** [pickle.HIGHEST_PROTOCOL] *)
  HIGHEST_PROTOCOL : Z;
  (** [pickletools.optimize(bytes)] *)
  pickletools_optimize : string -> string;
  (** [pickle.loads(bytes)]: not called by the compiler, but by the text it emits *)
  pickle_loads : string -> result value;
  (** [vars(obj)] *)
  py_vars : value -> process external -> result namespace;
  (** [eval(text)] in the compiler module's globals *)
  py_eval : string -> process external -> process external * result value;
  (** calling the object [macro] on the argument forms [args] *)
  py_call : value -> list value -> process external -> process external * result value;
  (** [exec(compile(text, "<Hissp>", "exec"), ns)] *)
  py_exec : string -> process external -> process external * result unit
}.

(* ===================================================================== *)
(** ** The compiler object and the compilation monad *)
(* ===================================================================== *)

(** The fields of a [Compiler] that never change after [__init__].
    [ns_ref] is the reference to the dict [self.ns] as a value: what
    [NS.set(self.ns)] stores. *)
Record compiler : Type := {
  qualname : string;
  evaluate : bool;
  ns_ref : value
}.

(** What the form-compiling methods read and write: the process and
    [self.error] ([None] stands for the initial [False]). *)
Record cstate (external : Type) : Type := CState {
  proc : process external;
  error : option exn
}.

(** What the pipeline ([compile], [eval]) reads and writes in addition:
    [self.abort], the warnings issued and the text printed to [sys.stderr]. *)
Record pstate (external : Type) : Type := PState {
  comp : cstate external;
  abort : bool;
  warnings : list string;
  stderr : list string
}.

(** A computation over state [S]: [None] when the recursion budget of the
    model is exhausted, otherwise the final state with a value or a raised
    exception. *)
Definition M (S A : Type) : Type := S -> option (S * result A).

Definition ret {S A} (a : A) : M S A := fun s => Some (s, Ok a).

Definition raise {S A} (e : exn) : M S A := fun s => Some (s, Raise e).

Definition bind {S A B} (m : M S A) (k : A -> M S B) : M S B :=
  fun s =>
    match m s with
    | None => None
    | Some (s', Ok a) => k a s'
    | Some (s', Raise e) => Some (s', Raise e)
    end.

(** [try: m  except <handles>: handler(e)] *)
Definition try_except {S A} (m : M S A) (handles : exn -> bool) (handler : exn -> M S A)
  : M S A :=
  fun s =>
    match m s with
    | None => None
    | Some (s', Ok a) => Some (s', Ok a)
    | Some (s', Raise e) => if handles e then handler e s' else Some (s', Raise e)
    end.

(** A pure step that may raise. *)
Definition lift {S A} (r : result A) : M S A := fun s => Some (s, r).

Declare Scope monad_scope.
Delimit Scope monad_scope with monad.
Notation "x <- m ;; k" := (bind m (fun x => k))
  (at level 61, m at next level, right associativity) : monad_scope.
Local Open Scope monad_scope.

Fixpoint mapM {S A B} (f : A -> M S B) (l : list A) : M S (list B) :=
  match l with
  | [] => ret []
  | a :: l' => b <- f a ;; bs <- mapM f l' ;; ret (b :: bs)
  end.

(* ===================================================================== *)
(** ** The compiler *)
(* ===================================================================== *)

Module Compiler.

Local Open Scope string_scope.

Definition PAIR_WORDS : list (string * string) :=
  [(":*", "*"); (":**", "**"); (":?", "")].

(** Module macro container. *)
Definition MACROS : string := "_macro_".

(** Macro from a foreign module: [foo.bar.._macro_.baz]. *)
Definition MACRO : string := ".." ++ MACROS ++ ".".

(** The auto-qualification placeholder. *)
Definition AUTO : string := "..xAUTO_.".

(** [RE_MACRO.split(head, 1)] with
    [RE_MACRO = re.compile(r"(\.\._macro_\.|\.\.xAUTO_\.)")]. *)
Definition RE_MACRO_split (head : string) : list string :=
  match find_alt MACRO AUTO head with
  | Some (b, m, a) => [b; m; a]
  | None => [head]
  end.

(** [parts[i]] where the source indexes a list it has just built. *)
Definition part (parts : list string) (i : nat) : string := nth i parts "".

(** [re.search(r"^\.\.|[ ()]", symbol)] *)
Definition is_raw (symbol : string) : bool :=
  startswith ".." symbol
  || has_char (fun c => Ascii.eqb c " " || Ascii.eqb c "(" || Ascii.eqb c ")")%char symbol.

(** [_join_args( *args)] *)
Definition _join_args (args : list string) : string :=
  replace NL (NL ++ "  ")
    ((match args with [] => "" | _ => NL end) ++ join ("," ++ NL) args).

(** [takewhile(lambda a: a != ":", it)] and what is left in the iterator
    afterwards (the [":"] itself is consumed). *)
Fixpoint split_colon (items : list value) : list value * list value :=
  match items with
  | [] => ([], [])
  | a :: rest =>
      if is_word ":" a then ([], rest)
      else let (single, paired) := split_colon rest in (a :: single, paired)
  end.

(** The [TypeError] of [k + '='] for a [k] that is not a [str]. *)
Definition concat_error (k : value) : exn :=
  match type_of k with
  | TTuple | TList =>
      TypeError ("can only concatenate " ++ type_name (type_of k) ++ " (not "
                 ++ DQ ++ "str" ++ DQ ++ ") to " ++ type_name (type_of k))
  | TBytes => TypeError "can't concat str to bytes"
  | t => TypeError ("unsupported operand type(s) for +: '" ++ type_name t
                    ++ "' and 'str'")
  end.

(** [PAIR_WORDS.get(k, k+'=')]: the default is evaluated first. *)
Definition pair_word (k : value) : result string :=
  match k with
  | VStr s =>
      Ok (match ns_get (map (fun kv => (fst kv, VStr (snd kv))) PAIR_WORDS) s with
          | Some (VStr w) => w
          | _ => s ++ "="
          end)
  | _ => Raise (concat_error k)
  end.

Fixpoint first_non_str (i : nat) (items : list value) : option (nat * value) :=
  match items with
  | [] => None
  | VStr _ :: rest => first_non_str (S i) rest
  | v :: _ => Some (i, v)
  end.

Fixpoint strings_of (items : list value) : list string :=
  match items with
  | [] => []
  | VStr s :: rest => s :: strings_of rest
  | _ :: rest => strings_of rest
  end.

(** [sep.join(items)] on values: every item must be a [str]. *)
Definition join_values (sep : string) (items : list value) : result string :=
  match first_non_str 0 items with
  | Some (i, v) =>
      Raise (TypeError ("sequence item " ++ Text.of_nat i
                        ++ ": expected str instance, "
                        ++ type_name (type_of v) ++ " found"))
  | None => Ok (join sep (strings_of items))
  end.

Fixpoint chars (s : string) : list value :=
  match s with
  | EmptyString => []
  | String c s' => VStr (String c EmptyString) :: chars s'
  end.

Fixpoint byte_values (b : string) : list value :=
  match b with
  | EmptyString => []
  | String c b' => VInt (Z.of_nat (nat_of_ascii c)) :: byte_values b'
  end.

(** The items a builtin sequence yields when it is iterated over; [None] for
    every other value, whose iteration is the host's business. *)
Definition builtin_items (v : value) : option (list value) :=
  match v with
  | VTuple items | VList items | VSet items => Some items
  | VDict items => Some (map fst items)
  | VStr s => Some (chars s)
  | VBytes b => Some (byte_values b)
  | _ => None
  end.

Section Methods.

Context {external : Type}.
Variable H : Host external.
Variable self : compiler.

Local Abbreviation state := (cstate external).
Local Abbreviation C := (M state).

(** A host call that may change the process. *)
Definition run_host {A} (f : process external -> process external * result A) : C A :=
  fun s => let (p, r) := f (proc s) in Some (CState p (error s), r).

(** A host call that only reads the process. *)
Definition read_host {A} (f : process external -> result A) : C A :=
  fun s => Some (s, f (proc s)).

Definition set_error (e : option exn) (s : state) : state :=
  CState (proc s) e.

Definition set_NS (v : value) (s : state) : state :=
  CState (Process (p_ns (proc s)) (p_ext (proc s)) v) (error s).

Definition get_NS (s : state) : value := p_NS (proc s).

(** The text [_trace] returns in place of the method's result. *)
Definition trace_text (name : string) (expr : value) (e : exn) : string :=
  let message :=
    replace NL (NL ++ "# ")
      (NL ++ "Compiler." ++ name ++ "() " ++ exc_name e ++ ":" ++ NL ++ " "
       ++ exc_msg e) in
  "(>   >  > >>" ++ pformat H true expr ++ "<< <  <   <)" ++ message.

(** [@_trace]: [inj] turns the diagnostic text into the method's result
    type ([macro] returns [Optional[str]]). *)
Definition _trace {A} (name : string) (inj : string -> A) (expr : value)
           (method : C A) : C A :=
  fun s =>
    match method s with
    | None => None
    | Some (s', Ok a) => Some (s', Ok a)
    | Some (s', Raise e) =>
        if isinstance e "Exception"
        then Some (set_error (Some e) s', Ok (inj (trace_text name expr e)))
        else Some (s', Raise e)
    end.

Definition id_text (t : string) : string := t.

(** *** Literals *)

(** The text [pickle] emits for the serialized bytes [dumps]. *)
Definition pickle_text (form : value) (dumps : string) : string :=
  "__import__('pickle').loads(  # " ++ repr H form ++ NL
  ++ "    " ++ repr H (VBytes dumps) ++ NL ++ ")".

Definition pickle_body (form : value) : C string :=
  dumps <- try_except (lift (pickle_dumps H form 0))
             (fun e => isinstance e "PicklingError")
             (fun _ => lift (pickle_dumps H form (HIGHEST_PROTOCOL H))) ;;
  let dumps := pickletools_optimize H dumps in
  ret (pickle_text form dumps).

(** The final fallback for [quoted]. *)
Definition pickle (form : value) : C string :=
  _trace "pickle" id_text form (pickle_body form).

(** The candidate literal of [quoted], by [type(form)]. *)
Definition literal_text (form : value) : string :=
  match type_of form with
  | TInt | TFloat | TComplex => "(" ++ repr H form ++ ")"
  | TDict | TList | TSet | TTuple | TStr | TBytes => pformat H false form
  | _ => repr H form
  end.

Definition quoted_body (form : value) : C string :=
  match form with
  | VEllipsis => ret "..."
  | _ =>
      let literal := literal_text form in
      accepted <- try_except
                    (parsed <- lift (literal_eval H literal) ;;
                     ret (py_eq H parsed form))
                    (fun e => isinstance e "ValueError" || isinstance e "SyntaxError")
                    (fun _ => ret false) ;;
      if accepted : bool then ret literal
      else (* literal failed to round trip. Fall back to pickle. *)
        pickle form
  end.

(** Compile forms that evaluate to themselves. *)
Definition quoted (form : value) : C string :=
  _trace "quoted" id_text form (quoted_body form).

(** *** Symbols *)

Definition fromlist (module : string) : string :=
  if contains "." module then ",fromlist='?'" else "".

Definition symbol_body (symbol : string) : C string :=
  if is_raw symbol then ret symbol
  else if contains ".." symbol then
    let parts := split1 ".." symbol in
    if String.eqb (part parts 0) (qualname self) then
      let chain := split1 "." (part parts 1) in
      q <- quoted (VStr (part chain 0)) ;;
      ret (join "." (("__import__('builtins').globals()[" ++ q ++ "]") :: tl chain))
    else
      ret ("__import__(" ++ repr H (VStr (part parts 0)) ++ fromlist (part parts 0)
           ++ ")." ++ part parts 1)
  else if endswith "." symbol then
    let module := drop_last symbol in
    ret ("__import__(" ++ repr H (VStr module) ++ fromlist module ++ ")")
  else ret symbol.

Definition symbol (symbol : string) : C string :=
  _trace "symbol" id_text (VStr symbol) (symbol_body symbol).

(** *** Macro lookup *)

(** [vars(self.ns[MACROS])[name]] *)
Definition local_macro (name : string) : C value :=
  read_host (fun p =>
    match ns_get (p_ns p) MACROS with
    | None => Raise (KeyError (repr H (VStr MACROS)))
    | Some container =>
        match py_vars H container p with
        | Raise e => Raise e
        | Ok attrs =>
            match ns_get attrs name with
            | Some m => Ok m
            | None => Raise (KeyError (repr H (VStr name)))
            end
        end
    end).

(** The [try] block of [_qualified_macro]. *)
Definition qualified_lookup (head : string) (parts : list string) : C value :=
  if String.eqb (part parts 0) (qualname self)
  then local_macro (part parts 2)
  else (text <- symbol head ;; run_host (py_eval H text)).

Definition _qualified_macro (head : string) (parts : list string) : C value :=
  try_except (qualified_lookup head parts)
    (fun e => isinstance e "KeyError" || isinstance e "AttributeError")
    (fun e => if negb (String.eqb (part parts 1) AUTO) then raise e else ret VNone).

Definition _unqualified_macro (head : string) : C value :=
  try_except (local_macro head)
    (fun e => isinstance e "KeyError")
    (fun _ => ret VNone).

Definition _get_macro (head : string) : C value :=
  let parts := RE_MACRO_split head in
  let head := replace1 AUTO MACRO head in
  if Nat.ltb 1 (List.length parts)
  then _qualified_macro head parts
  else _unqualified_macro head.

(** [with self.macro_context(): body]: [NS.set(self.ns)], the body, and
    [NS.reset(token)] in the [finally] clause. *)
Definition macro_context {A} (body : C A) : C A :=
  fun s =>
    let token := get_NS s in
    match body (set_NS (ns_ref self) s) with
    | None => None
    | Some (s', r) => Some (set_NS token s', r)
    end.

(** *** The methods that compile sub-forms

    [self_form] stands for the recursive call [self.form]; the knot is tied
    by [form] below. *)

Section Recursive.

(** The number of items [parameters] may draw from an iterator of the host:
    such an iterator may yield items without end. *)
Variable budget : nat.

Variable self_form : value -> C string.

(** The generator expression of [call] over [_pairs(form)]. *)
Fixpoint call_pairs (items : list value) : C (list string) :=
  match items with
  | [] => ret []
  | [_] => raise (CompileError "Incomplete pair." None)
  | k :: v :: rest =>
      word <- lift (pair_word k) ;;
      text <- self_form v ;;
      more <- call_pairs rest ;;
      ret ((word ++ text) :: more)
  end.

(** The iterator [args] of [call], consumed in order. *)
Definition call_args (items : list value) : C (list string) :=
  let (single, paired) := split_colon items in
  positional <- mapM self_form single ;;
  keywords <- call_pairs paired ;;
  ret (positional ++ keywords)%list.

Definition call_body (form : list value) : C string :=
  match form with
  | [] => raise StopIteration
  | head :: rest =>
      match head with
      | VStr name =>
          if startswith "." name then
            args <- call_args rest ;;
            match args with
            | [] => raise StopIteration
            | receiver :: args => ret (receiver ++ "." ++ drop 1 name ++ "(" ++ _join_args args ++ ")")
            end
          else
            callee <- self_form head ;;
            args <- call_args rest ;;
            ret (callee ++ "(" ++ _join_args args ++ ")")
      | _ =>
          callee <- self_form head ;;
          args <- call_args rest ;;
          ret (callee ++ "(" ++ _join_args args ++ ")")
      end
  end.

(** Call form. *)
Definition call (form : list value) : C string :=
  _trace "call" id_text (VTuple form) (call_body form).

(** [f"{v}"] *)
Definition format_value (v : value) : string :=
  match v with
  | VStr s => s
  | _ => str H v
  end.

(** [{":/": "/", ":*": "*"}.get(a, a)] *)
Definition single_parameter (a : value) : result value :=
  if hashable H a then
    Ok (if is_word ":/" a then VStr "/" else if is_word ":*" a then VStr "*" else a)
  else Raise (TypeError ("unhashable type: '" ++ type_name (type_of a) ++ "'")).

(** What the body of the loop [for k, v in _pairs(parameters)] yields. *)
Definition parameter_pair (k v : value) : C value :=
  if is_word ":*" k then
    ret (if is_word ":?" v then VStr "*" else VStr ("*" ++ format_value v))
  else if is_word ":/" k then ret (VStr "/")
  else if is_word ":**" k then ret (VStr ("**" ++ format_value v))
  else if is_word ":?" v then ret k
  else (text <- self_form v ;; ret (VStr (format_value k ++ "=" ++ text))).

(** The [for k, v in _pairs(parameters)] loop of [parameters], over what is
    left of a builtin sequence. *)
Fixpoint parameter_pairs (items : list value) : C (list value) :=
  match items with
  | [] => ret []
  | [_] => raise (CompileError "Incomplete pair." None)
  | k :: v :: rest =>
      item <- parameter_pair k v ;;
      more <- parameter_pairs rest ;;
      ret (item :: more)
  end.

(** The generator expression over [takewhile(lambda a: a != ":", parameters)]
    when [parameters] is an iterator [it] of the host: items are drawn one at
    a time, up to the [":"], which is consumed, or to the end. *)
Fixpoint iterator_singles (n : nat) (it : value) : C (list value) :=
  match n with
  | O => fun _ => None
  | S n' =>
      a <- run_host (py_next H it) ;;
      match a with
      | None => ret []
      | Some a =>
          if is_word ":" a then ret []
          else
            single <- lift (single_parameter a) ;;
            more <- iterator_singles n' it ;;
            ret (single :: more)
      end
  end.

(** The loop [for k, v in _pairs(parameters)] over what is left of the
    iterator [it]: [_pairs] draws [k], then [v] with [next(it)], and turns
    the [StopIteration] of the latter into a [CompileError]. *)
Fixpoint iterator_pairs (n : nat) (it : value) : C (list value) :=
  match n with
  | O => fun _ => None
  | S n' =>
      k <- run_host (py_next H it) ;;
      match k with
      | None => ret []
      | Some k =>
          v <- run_host (py_next H it) ;;
          match v with
          | None => raise (CompileError "Incomplete pair." None)
          | Some v =>
              item <- parameter_pair k v ;;
              more <- iterator_pairs n' it ;;
              ret (item :: more)
          end
      end
  end.

(** The items the generator [parameters] yields.  Being a generator function,
    its [@_trace] wrapper never sees an exception: whatever the body raises
    surfaces where the generator is consumed, in [function].

    [parameters = iter(parameters)]: the items of a builtin sequence are
    known, and the two loops are over its single and its paired part.  Any
    other object is iterated by the host, one [next] at a time, interleaved
    with the compilation of the default values; what it yields may depend on
    the process and change it (an iterator over a tuple is used up by the
    first traversal), and need not end. *)
Definition parameters (parameters : value) : C (list value) :=
  match builtin_items parameters with
  | Some items =>
      let (single, paired) := split_colon items in
      singles <- mapM (fun a => lift (single_parameter a)) single ;;
      pairs <- parameter_pairs paired ;;
      ret (singles ++ pairs)%list
  | None =>
      it <- run_host (py_iter H parameters) ;;
      singles <- iterator_singles budget it ;;
      pairs <- iterator_pairs budget it ;;
      ret (singles ++ pairs)%list
  end.

Definition body_body (body : list value) : C string :=
  match body with
  | [] => ret "()"
  | [form] =>
      result <- self_form form ;;
      ret (replace NL (NL ++ "  ") ((if contains NL result then NL else "") ++ result))
  | _ =>
      texts <- mapM self_form body ;;
      ret ("(" ++ _join_args texts ++ ")[-1]")
  end.

Definition body (forms : list value) : C string :=
  _trace "body" id_text (VList forms) (body_body forms).

Definition function_body (form : list value) : C string :=
  match form with
  | fn :: params :: rest =>
      if is_word "lambda" fn then
        items <- parameters params ;;
        text <- lift (join_values "," items) ;;
        block <- body rest ;;
        ret ("(lambda " ++ text ++ ":" ++ block ++ ")")
      else raise AssertionError
  | _ =>
      raise (ValueError ("not enough values to unpack (expected at least 2, got "
                         ++ Text.of_nat (List.length form) ++ ")"))
  end.

(** Anonymous function special form. *)
Definition function (form : list value) : C string :=
  _trace "function" id_text (VTuple form) (function_body form).

Definition macro_body (head : string) (tail : list value) : C (option string) :=
  macro <- _get_macro head ;;
  match macro with
  | VNone => ret None
  | _ =>
      macro_context
        (expansion <- run_host (py_call H macro tail) ;;
         text <- self_form expansion ;;
         ret (Some text))
  end.

Definition macro (head : string) (tail : list value) : C (option string) :=
  _trace "macro" (@Some string) (VTuple (VStr head :: tail)) (macro_body head tail).

(** [if result := self.macro(form)]: [None] and the empty text are false. *)
Definition truthy (result : option string) : bool :=
  match result with
  | None | Some EmptyString => false
  | Some _ => true
  end.

Definition invocation_body (head : string) (tail : list value) : C string :=
  result <- macro head tail ;;
  if truthy result then
    ret ("# " ++ head ++ NL ++ match result with Some text => text | None => "" end)
  else
    call (VStr (replace1 AUTO ".." head) :: tail).

(** Try to compile as macro, else normal call. *)
Definition invocation (head : string) (tail : list value) : C string :=
  _trace "invocation" id_text (VTuple (VStr head :: tail)) (invocation_body head tail).

Definition special_body (head : string) (tail : list value) : C string :=
  if String.eqb head "quote" then
    match tail with
    | operand :: _ => quoted operand
    | [] => raise (IndexError "tuple index out of range")
    end
  else if String.eqb head "lambda" then function (VStr head :: tail)
  else invocation head tail.

(** Try to compile as special form, else [invocation]. *)
Definition special (head : string) (tail : list value) : C string :=
  _trace "special" id_text (VTuple (VStr head :: tail)) (special_body head tail).

Definition tuple_body (head : value) (tail : list value) : C string :=
  match head with
  | VStr name => special name tail
  | _ => call (head :: tail)
  end.

(** Calls, macros, special forms. *)
Definition tuple (head : value) (tail : list value) : C string :=
  _trace "tuple" id_text (VTuple (head :: tail)) (tuple_body head tail).

Definition form_body (form : value) : C string :=
  match form with
  | VTuple (head :: tail) => tuple head tail
  | VStr name => if negb (startswith ":" name) then symbol name else quoted form
  | _ => quoted form
  end.

Definition form_step (form : value) : C string :=
  _trace "form" id_text form (form_body form).

End Recursive.

(** Translate a Hissp form to the equivalent Python code as a string.
    [fuel] bounds the depth of the recursion through sub-forms and macro
    expansions, and the number of items drawn from an iterator of the host:
    a macro may expand without end, and an iterator may yield without end. *)
Fixpoint form (fuel : nat) (f : value) : C string :=
  match fuel with
  | O => fun _ => None
  | S fuel' => form_step fuel' (form fuel') f
  end.

(** *** The pipeline *)

Local Abbreviation P := (M (pstate external)).

(** A form-compiling method run on the compiler object inside the pipeline. *)
Definition on_compiler {A} (m : C A) : P A :=
  fun s =>
    match m (comp s) with
    | None => None
    | Some (c, r) => Some (PState c (abort s) (warnings s) (stderr s), r)
    end.

Definition set_abort (b : bool) (s : pstate external) : pstate external :=
  PState (comp s) b (warnings s) (stderr s).

(** [warn(message, PostCompileWarning)]: the warning is reported and [warn]
    returns, as under the default warning filters. *)
Definition warn (message : string) (s : pstate external) : pstate external :=
  PState (comp s) (abort s) (warnings s ++ [message])%list (stderr s).

(** [print(text, file=sys.stderr)] *)
Definition print_stderr (text : string) (s : pstate external) : pstate external :=
  PState (comp s) (abort s) (warnings s) (stderr s ++ [text])%list.

Definition with_process (p : process external) (s : pstate external) : pstate external :=
  PState (CState p (error (comp s))) (abort s) (warnings s) (stderr s).

(** [self.ns.get("__name__") == "__main__"] *)
Definition is_main (p : process external) : bool :=
  match ns_get (p_ns p) "__name__" with
  | Some name => is_word "__main__" name
  | None => false
  end.

(** The commented-out failure trace [eval] returns after the form. *)
Definition commented (exc : string) : string :=
  "# " ++ replace NL (NL ++ "# ") exc.

Definition warning_text (e : exn) (form : string) : string :=
  NL ++ " " ++ exc_msg e ++ " when evaluating form:" ++ NL ++ form ++ NL ++ NL
  ++ exc_tb e.

Definition eval (form : string) : P (list string) :=
  fun s =>
    if evaluate self then
      let (p, r) := py_exec H form (proc (comp s)) in
      let s := with_process p s in
      match r with
      | Ok _ => Some (s, Ok [form])
      | Raise e =>
          if isinstance e "Exception" then
            let exc := exc_tb e in
            let s := if is_main p then set_abort true s
                     else warn (warning_text e form) s in
            Some (s, Ok [form; commented exc])
          else Some (s, Raise e)
      end
    else Some (s, Ok [form]).

(** The [for] loop of [compile], with the list [result] built so far. *)
Fixpoint compile_loop (fuel : nat) (forms : list value) (result : list string)
  : P string :=
  match forms with
  | [] => ret (join (NL ++ NL) result)
  | f :: rest =>
      text <- on_compiler (form fuel f) ;;
      fun s =>
        match error (comp s) with
        | Some e =>
            Some (PState (set_error None (comp s)) (abort s) (warnings s) (stderr s),
                  Raise (CompileError (NL ++ text) (Some e)))
        | None =>
            (out <- eval text ;;
             let result := (result ++ out)%list in
             fun s =>
               if abort s
               then Some (print_stderr (join (NL ++ NL) result) s, Raise SystemExit_1)
               else compile_loop fuel rest result s) s
        end
  end.

Definition compile (fuel : nat) (forms : list value) : P string :=
  compile_loop fuel forms [].

End Methods.

(** A fresh [Compiler(qualname, ns, evaluate)] in a process. *)
Definition init {external : Type} (p : process external) : pstate external :=
  PState (CState p None) false [] [].

End Compiler.

(* ===================================================================== *)
(** ** The earlier compiler's [quote] *)
(* ===================================================================== *)

(** The repository keeps the earlier version of the compiler,
    [hissp/compiler.py].  Its dispatcher [Compiler.tuple] and literal encoder
    [Compiler.quoted] are embedded here for comparison with [special] above.
    It has no tracer that records errors: exceptions propagate to the caller
    of [compile], so its methods are plain functions into [result].  The other
    branches of [tuple] ([fn], [macro], [call]) and the munged names it
    compares the head with (from [hissp.munger]) are parameters. *)
Module Legacy.

Local Open Scope string_scope.

(** What [raise SyntaxError] raises. *)
Definition SyntaxError : exn :=
  Exn "SyntaxError" ["SyntaxError"; "Exception"; "BaseException"] "" "" None.

Definition RecursionError : exn :=
  Exn "RecursionError" ["RecursionError"; "RuntimeError"; "Exception"; "BaseException"]
      "maximum recursion depth exceeded" "" None.

Section Methods.

Context {external : Type}.
Variable H : Host external.

(** [self.ns[BLANK]], the alias table. *)
Variable aliases : list (string * string).

(** [munge("\\")], [munge("!.")] and [munge("/") + munge("!.")]. *)
Variables LAMBDA MACRO SMACRO : string.

(** [self.fn(form)], [self.macro(head, tail)] and [self.call(form)]. *)
Variable fn : list value -> result string.
Variable macro : string -> list value -> result string.
Variable call : list value -> result string.

(** [@trace]: a [CompileError] passes with a longer message, any other
    [Exception] is wrapped in a [CompileError]. *)
Definition trace (name : string) (form : value) (r : result string) : result string :=
  match r with
  | Ok text => Ok text
  | Raise e =>
      let here := NL ++ name ++ ":" ++ NL ++ repr H form in
      if isinstance e "CompileError"
      then Raise (Exn (exc_name e) (exc_mro e) (here ++ exc_msg e) (exc_tb e) (exc_cause e))
      else if isinstance e "Exception" then Raise (CompileError here (Some e))
      else Raise e
  end.

(** The final fallback for [quoted]: the highest protocol only. *)
Definition pickle (form : value) : result string :=
  trace "pickle" form
    match pickle_dumps H form (-1) with
    | Ok dumps =>
        Ok ("__import__('pickle').loads(  # " ++ repr H form ++ NL
            ++ repr H (VBytes (pickletools_optimize H dumps)) ++ ")")
    | Raise e => Raise e
    end.

(** [basic]: the parenthesized [repr], if [ast.literal_eval] takes it. *)
Definition basic (form : value) : result string :=
  let text := "(" ++ repr H form ++ ")" in
  match literal_eval H text with
  | Ok _ => Ok text
  | Raise e => Raise e
  end.

(** Compile forms that evaluate to themselves.  A container reached through
    a reference contains itself, and the recursion does not end. *)
Fixpoint quoted (form : value) : result string :=
  let fix _elements (items : list value) : result (list string) :=
    match items with
    | [] => Ok []
    | x :: rest =>
        match quoted x with
        | Ok text =>
            match _elements rest with
            | Ok texts => Ok (text :: texts)
            | Raise e => Raise e
            end
        | Raise e => Raise e
        end
    end in
  let fix entries (items : list (value * value)) : result (list string) :=
    match items with
    | [] => Ok []
    | (k, v) :: rest =>
        match quoted k with
        | Ok key =>
            match quoted v with
            | Ok val =>
                match entries rest with
                | Ok texts => Ok ((key ++ ":" ++ val) :: texts)
                | Raise e => Raise e
                end
            | Raise e => Raise e
            end
        | Raise e => Raise e
        end
    end in
  match form with
  | VList items =>
      match _elements items with
      | Ok texts => Ok ("[" ++ join "," texts ++ "]")
      | Raise e => Raise e
      end
  | VSet items =>
      match _elements items with
      | Ok texts =>
          Ok ("{" ++ (match join "," texts with EmptyString => "*''" | t => t end) ++ "}")
      | Raise e => Raise e
      end
  | VTuple [] => Ok "()"
  | VTuple items =>
      match _elements items with
      | Ok texts => Ok ("(" ++ join "," texts ++ ",)")
      | Raise e => Raise e
      end
  | VDict items =>
      match entries items with
      | Ok texts => Ok ("{" ++ join "," texts ++ "}")
      | Raise e => Raise e
      end
  | VNone | VBool _ | VBytes _ | VStr _ => Ok (repr H form)
  | VInt _ | VFloat _ | VComplex _ _ =>
      match basic form with
      | Ok text => Ok text
      | Raise e => if isinstance e "ValueError" then pickle form else Raise e
      end
  | VObject (TList | TSet | TDict) _ => Raise RecursionError
  | _ => pickle form
  end.

(** [self.ns[BLANK].get(symbol, symbol)] *)
Definition alias (symbol : string) : string :=
  match ns_get (map (fun kv => (fst kv, VStr (snd kv))) aliases) symbol with
  | Some (VStr target) => target
  | _ => symbol
  end.

(** Calls, macros, special forms. *)
Definition tuple (form : list value) : result string :=
  match form with
  | VStr head :: tail =>
      let head := alias head in
      if String.eqb head "quote" then
        if negb (Nat.eqb (List.length form) 2) then Raise SyntaxError
        else match tail with
             | operand :: _ => quoted operand
             | [] => Raise (IndexError "tuple index out of range")
             end
      else if String.eqb head LAMBDA then fn form
      else if contains SMACRO head || startswith MACRO head then macro head tail
      else call form
  | _ => call form
  end.

End Methods.

End Legacy.

(* ===================================================================== *)
(** ** A small host *)
(* ===================================================================== *)

(** A host to run the compiler on concrete forms.  It behaves as CPython
    does on the values that occur in the examples of this file: small
    integers, short strings without quotes or escapes, tuples and lists of
    these, the float NaN, and a handful of heap objects.  Its external state
    is a counter that lives outside the compiling unit's namespace (in
    Python: a global of another module). *)
Module Demo.

Local Open Scope string_scope.

Definition nan_bits : Z := 0x7ff8000000000000%Z.

(** Heap objects. *)
Definition a_lambda : value := VObject (TClass "function") 1.
Definition a_generator : value := VObject (TClass "generator") 2.
Definition a_buffer : value := VObject (TClass "PickleBuffer") 3.
Definition macro_container : value := VObject (TClass "SimpleNamespace") 4.
Definition the_ns : value := VObject TDict 5.
Definition other_ns : value := VObject TDict 6.

(** Macros, as function objects. *)
Definition tick : value := VObject (TClass "function") 10.
Definition twice : value := VObject (TClass "function") 11.
Definition leak : value := VObject (TClass "function") 12.
Definition rebind : value := VObject (TClass "function") 13.
Definition blank : value := VObject (TClass "function") 14.

Definition repr_int (n : Z) : string := NilZero.string_of_int (Z.to_int n).

Definition repr_seq (opening closing : string) (items : list string) : string :=
  opening ++ join ", " items ++ closing.

Definition hex_digit (n : nat) : string :=
  String.substring n 1 "0123456789abcdef".

(** One byte inside [b'...']. *)
Definition repr_byte (c : ascii) : string :=
  let n := nat_of_ascii c in
  if Nat.eqb n 10 then "\n"
  else if Nat.eqb n 13 then "\r"
  else if Nat.eqb n 9 then "\t"
  else if Nat.eqb n 92 then "\\"
  else if Nat.eqb n 39 then "\'"
  else if Nat.leb 32 n && Nat.leb n 126 then String c EmptyString
  else "\x" ++ hex_digit (Nat.div n 16) ++ hex_digit (Nat.modulo n 16).

Fixpoint repr_bytes (b : string) : string :=
  match b with
  | EmptyString => EmptyString
  | String c b' => repr_byte c ++ repr_bytes b'
  end.

(** [repr] of the heap objects. *)
Definition heap_repr (id : nat) : string :=
  match id with
  | 1 => "<function <lambda> at 0x7f82a4436020>"
  | 2 => "<generator object gen at 0x7f82a41559b0>"
  | 3 => "<pickle.PickleBuffer object at 0x7f82a41e5a40>"
  | 4 => "namespace()"
  | 7 => "<tuple_iterator object at 0x7f3f8961ffa0>"
  | 8 => "repeat('a')"
  | _ => "<function <lambda> at 0x7f82a4436" ++ Text.of_nat id ++ "0>"
  end.

Fixpoint repr (v : value) : string :=
  match v with
  | VEllipsis => "Ellipsis"
  | VNone => "None"
  | VBool true => "True"
  | VBool false => "False"
  | VInt n => repr_int n
  | VFloat bits => if Z.eqb bits nan_bits then "nan" else "<float>"
  | VComplex _ _ => "<complex>"
  | VStr s => "'" ++ s ++ "'"
  | VBytes b => "b'" ++ repr_bytes b ++ "'"
  | VTuple [x] => "(" ++ repr x ++ ",)"
  | VTuple items => repr_seq "(" ")" (map repr items)
  | VList items => repr_seq "[" "]" (map repr items)
  | VSet items => repr_seq "{" "}" (map repr items)
  | VDict items =>
      repr_seq "{" "}" (map (fun kv => repr (fst kv) ++ ": " ++ repr (snd kv)) items)
  | VObject _ id => heap_repr id
  end.

Fixpoint value_eqb (a b : value) : bool :=
  let fix all2 (xs ys : list value) : bool :=
    match xs, ys with
    | [], [] => true
    | x :: xs', y :: ys' => value_eqb x y && all2 xs' ys'
    | _, _ => false
    end in
  match a, b with
  | VEllipsis, VEllipsis | VNone, VNone => true
  | VBool x, VBool y => Bool.eqb x y
  | VInt x, VInt y => Z.eqb x y
  | VFloat x, VFloat y => Z.eqb x y && negb (Z.eqb x nan_bits)
  | VStr x, VStr y | VBytes x, VBytes y => String.eqb x y
  | VTuple xs, VTuple ys | VList xs, VList ys => all2 xs ys
  | VObject _ i, VObject _ j => Nat.eqb i j
  | _, _ => false
  end.

(** [ast.literal_eval] on the literals of the examples. *)
Definition literals : list (string * value) :=
  [("(0)", VInt 0); ("(1)", VInt 1); ("(2)", VInt 2); ("(3)", VInt 3);
   ("(4)", VInt 4);
   ("'foo'", VStr "foo"); ("'bar'", VStr "bar"); ("'x'", VStr "x");
   ("':'", VStr ":"); ("()", VTuple []); ("(42)", VInt 42)].

Definition syntax_error (msg : string) : exn :=
  Exn "SyntaxError" ["SyntaxError"; "Exception"; "BaseException"] msg "" None.

Definition literal_eval (text : string) : result value :=
  match ns_get literals text with
  | Some v => Ok v
  | None =>
      if startswith "<" text then Raise (syntax_error "invalid syntax")
      else Raise (ValueError "malformed node or string")
  end.

Definition pickling_error (msg : string) : exn :=
  Exn "PicklingError" ["PicklingError"; "PickleError"; "Exception"; "BaseException"]
      msg "" None.

Fixpoint bytes_of (codes : list nat) : string :=
  match codes with
  | [] => EmptyString
  | n :: rest => String (ascii_of_nat n) (bytes_of rest)
  end.

(** [pickle.dumps(pickle.PickleBuffer(b"abc"), 5)] and what
    [pickletools.optimize] makes of it. *)
Definition buffer_pickle : string :=
  bytes_of [128; 5; 149; 7; 0; 0; 0; 0; 0; 0; 0; 67; 3; 97; 98; 99; 148; 46].
Definition buffer_pickle_optimized : string :=
  bytes_of [128; 5; 149; 6; 0; 0; 0; 0; 0; 0; 0; 67; 3; 97; 98; 99; 46].

Definition pickle_dumps (v : value) (protocol : Z) : result string :=
  match v with
  | VFloat bits =>
      if Z.eqb bits nan_bits && Z.eqb protocol 0 then Ok ("Fnan" ++ NL ++ ".")
      else Raise (ValueError "outside the examples")
  | VObject (TClass "function") _ =>
      Raise (pickling_error
               ("Can't pickle " ++ repr v ++ ": attribute lookup <lambda> on __main__ failed"))
  | VObject (TClass "generator") _ => Raise (TypeError "cannot pickle 'generator' object")
  | VObject (TClass "PickleBuffer") _ =>
      if Z.eqb protocol 5 then Ok buffer_pickle
      else Raise (pickling_error "PickleBuffer can only pickled with protocol >= 5")
  | _ => Raise (ValueError "outside the examples")
  end.

Definition pickletools_optimize (b : string) : string :=
  if String.eqb b buffer_pickle then buffer_pickle_optimized else b.

Definition pickle_loads (b : string) : result value :=
  if String.eqb b ("Fnan" ++ NL ++ ".") then Ok (VFloat nan_bits)
  else Raise (ValueError "outside the examples").

Definition hashable (v : value) : bool :=
  match v with
  | VList _ | VSet _ | VDict _ => false
  | _ => true
  end.

(** None of the heap objects of this host is iterable. *)
Definition py_iter (v : value) (p : process nat) : process nat * result value :=
  (p, Raise (TypeError ("'" ++ type_name (type_of v) ++ "' object is not iterable"))).

Definition py_next (it : value) (p : process nat) : process nat * result (option value) :=
  (p, Raise (TypeError ("'" ++ type_name (type_of it) ++ "' object is not an iterator"))).

Definition attribute_error (msg : string) : exn :=
  Exn "AttributeError" ["AttributeError"; "Exception"; "BaseException"] msg "" None.

Definition import_error (msg : string) : exn :=
  Exn "ModuleNotFoundError"
      ["ModuleNotFoundError"; "ImportError"; "Exception"; "BaseException"] msg "" None.

Definition runtime_error (msg : string) : exn :=
  Exn "RuntimeError" ["RuntimeError"; "Exception"; "BaseException"] msg "" None.

Definition name_error (msg tb : string) : exn :=
  Exn "NameError" ["NameError"; "Exception"; "BaseException"] msg tb None.

(** The macros the container holds. *)
Definition macros : namespace :=
  [("tick", tick); ("twice", twice); ("leak", leak); ("rebind", rebind);
   ("blank", blank)].

Definition py_vars (obj : value) (p : process nat) : result namespace :=
  match obj with
  | VObject (TClass "SimpleNamespace") 4 => Ok macros
  | _ => Raise (TypeError "vars() argument must have __dict__ attribute")
  end.

(** [eval] of a qualified macro reference: module [foo] exists and has no
    macro container, module [lib] has the macro [twice], no other module can
    be imported. *)
Definition py_eval (text : string) (p : process nat) : process nat * result value :=
  if String.eqb text "__import__('foo')._macro_.bar"
  then (p, Raise (attribute_error "module 'foo' has no attribute '_macro_'"))
  else if String.eqb text "__import__('lib')._macro_.twice" then (p, Ok twice)
  else (p, Raise (import_error "No module named 'nowhere'")).

(** Calling a macro.
    - [tick] returns the next value of a counter kept outside the namespace;
    - [twice] expands [(twice x)] to [(x x)], the call of [x] on [x];
    - [leak] rebinds the context variable and raises;
    - [rebind] rebinds the context variable and expands to the symbol [x];
    - [blank] expands to the empty symbol. *)
Definition py_call (counting : bool) (f : value) (args : list value) (p : process nat)
  : process nat * result value :=
  match f with
  | VObject _ 10 =>
      if counting
      then (Process (p_ns p) (S (p_ext p)) (p_NS p), Ok (VInt (Z.of_nat (p_ext p))))
      else (p, Ok (VInt 0))
  | VObject _ 11 =>
      match args with
      | [x] => (p, Ok (VTuple [x; x]))
      | _ => (p, Raise (TypeError "<lambda>() takes 1 positional argument"))
      end
  | VObject _ 12 => (Process (p_ns p) (p_ext p) other_ns, Raise (runtime_error "leak"))
  | VObject _ 13 => (Process (p_ns p) (p_ext p) other_ns, Ok (VStr "x"))
  | VObject _ 14 => (p, Ok (VStr ""))
  | _ => (p, Raise (TypeError "object is not callable"))
  end.

Definition boom_trace : string :=
  "Traceback (most recent call last):" ++ NL
  ++ "  File " ++ DQ ++ "<Hissp>" ++ DQ ++ ", line 1, in <module>" ++ NL
  ++ "NameError: name 'boom' is not defined" ++ NL.

(** What [sys.exit()] raises: [SystemExit()], which is not an [Exception]. *)
Definition system_exit : exn :=
  Exn "SystemExit" ["SystemExit"; "BaseException"] "" "" None.

(** Executing compiled text: [boom()] fails, the call of [sys.exit] raises
    [SystemExit], everything else succeeds and leaves the process as it is. *)
Definition py_exec (text : string) (p : process nat) : process nat * result unit :=
  if String.eqb text "boom()"
  then (p, Raise (name_error "name 'boom' is not defined" boom_trace))
  else if String.eqb text "__import__('sys').exit()"
  then (p, Raise system_exit)
  else (p, Ok tt).

(** [counting] chooses between a [tick] that counts and one that is constant. *)
Definition host (counting : bool) : Host nat :=
  Build_Host
    repr                      (* repr *)
    repr                      (* str *)
    (fun _ => repr)           (* pformat: short values fit on one line *)
    literal_eval
    value_eqb                 (* == *)
    hashable
    py_iter
    py_next
    pickle_dumps
    5%Z                       (* pickle.HIGHEST_PROTOCOL *)
    pickletools_optimize
    pickle_loads
    py_vars
    py_eval
    (py_call counting)
    py_exec.

(** A library unit [lib] and the entry-point unit, both with the macro
    container bound. *)
Definition library_ns : namespace := [("__name__", VStr "pkg"); ("_macro_", macro_container)].
Definition main_ns : namespace := [("__name__", VStr "__main__"); ("_macro_", macro_container)].

Definition start (ns : namespace) (counter : nat) : process nat :=
  Process ns counter (VTuple []).

(** [Compiler("pkg", ns)] and [Compiler("__main__", ns)], which evaluate what
    they compile, and the compiler of [readerless], which does not. *)
Definition library : compiler :=
  {| qualname := "pkg"; evaluate := true; ns_ref := the_ns |}.
Definition main : compiler :=
  {| qualname := "__main__"; evaluate := true; ns_ref := the_ns |}.
Definition readerless : compiler :=
  {| qualname := "__main__"; evaluate := false; ns_ref := the_ns |}.

(** [readerless(form)] with no namespace given and [NS] unset: the form is
    compiled, not evaluated, in the namespace [{"__name__": "__main__"}]. *)
Definition doctest (f : value) : option (result string) :=
  match Compiler.compile (host true) readerless 20 [f]
                         (Compiler.init (start [("__name__", VStr "__main__")] 0)) with
  | Some (_, r) => Some r
  | None => None
  end.

(** A second host, with two iterable heap objects: [an_iterator] is
    [iter(("a", "b"))], which yields its items once, and [endless] is
    [itertools.repeat("a")], which yields ["a"] without end.  The external
    state of this host is the number of items already drawn from
    [an_iterator]. *)
Definition an_iterator : value := VObject (TClass "tuple_iterator") 7.
Definition endless : value := VObject (TClass "repeat") 8.

Definition iterator_items : list value := [VStr "a"; VStr "b"].

Definition iterator_iter (v : value) (p : process nat) : process nat * result value :=
  match v with
  | VObject (TClass "tuple_iterator") 7 => (p, Ok v)
  | VObject (TClass "repeat") 8 => (p, Ok v)
  | _ => py_iter v p
  end.

Definition iterator_next (it : value) (p : process nat)
  : process nat * result (option value) :=
  match it with
  | VObject (TClass "tuple_iterator") 7 =>
      match nth_error iterator_items (p_ext p) with
      | Some item => (Process (p_ns p) (S (p_ext p)) (p_NS p), Ok (Some item))
      | None => (p, Ok None)
      end
  | VObject (TClass "repeat") 8 => (p, Ok (Some (VStr "a")))
  | _ => py_next it p
  end.

Definition iterating_host : Host nat :=
  Build_Host
    repr repr (fun _ => repr) literal_eval value_eqb hashable
    iterator_iter iterator_next
    pickle_dumps 5%Z pickletools_optimize pickle_loads
    py_vars py_eval (py_call false) py_exec.

End Demo.

Import Compiler.
Local Open Scope string_scope.
Local Open Scope monad_scope.

(* ===================================================================== *)
(** ** Vocabulary of the specification *)
(* ===================================================================== *)

Section Vocabulary.

Context {external : Type}.
Variable H : Host external.
Variable self : compiler.

(** The round-trip check of [quoted] on the candidate literal of [v]:
    [ast.literal_eval(literal) == form]. *)
Definition round_trips (v : value) : bool :=
  match literal_eval H (literal_text H v) with
  | Ok parsed => py_eq H parsed v
  | Raise _ => false
  end.

(** The check is run on every value but the ellipsis, which has a fixed
    token; [v]'s text is accepted when the check is run and passes. *)
Definition accepted (v : value) : Prop :=
  v <> VEllipsis /\ round_trips v = true.

(** The check is run and fails: the literal parses to a different value, or
    parsing raises one of the suppressed errors. *)
Definition fails_round_trip (v : value) : Prop :=
  v <> VEllipsis /\
  match literal_eval H (literal_text H v) with
  | Ok parsed => py_eq H parsed v = false
  | Raise e => (isinstance e "ValueError" || isinstance e "SyntaxError") = true
  end.

(** The fallback as the specification words it: for a value failing the
    round-trip check the encoder emits, without recording an error, a
    deserialization expression whose bytes load to a value equal to [v]. *)
Definition fallback_always_serializes (v : value) : Prop :=
  fails_round_trip v ->
  forall s, exists dumps loaded,
    quoted H v s = Some (s, Ok (pickle_text H v dumps))
    /\ pickle_loads H dumps = Ok loaded
    /\ py_eq H loaded v = true.

(** Two processes with the same namespace contents and the same current
    context; what lies outside the namespace may differ. *)
Definition same_process (p1 p2 : process external) : Prop :=
  p_ns p1 = p_ns p2 /\ p_NS p1 = p_NS p2.

Definition same_namespace (s1 s2 : cstate external) : Prop :=
  same_process (proc s1) (proc s2).

(** Compiling [f] twice in a row, the namespace being the same before the
    second compilation as before the first, gives the same result twice. *)
Definition recompiles_identically (fuel : nat) (f : value) (s : cstate external) : Prop :=
  forall s1 r1 s2 r2,
    form H self fuel f s = Some (s1, r1) ->
    same_namespace s s1 ->
    form H self fuel f s1 = Some (s2, r2) ->
    r1 = r2.

(** The host callables the compiler invokes while compiling a form depend
    on the process only through its namespace and context. *)
Definition respects_namespace {A} (f : process external -> process external * result A)
  : Prop :=
  forall p1 p2, same_process p1 p2 ->
    same_process (fst (f p1)) (fst (f p2)) /\ snd (f p1) = snd (f p2).

Definition host_reads_namespace_only : Prop :=
  (forall m args, respects_namespace (py_call H m args))
  /\ (forall text, respects_namespace (py_eval H text))
  /\ (forall obj p1 p2, same_process p1 p2 -> py_vars H obj p1 = py_vars H obj p2)
  /\ (forall v, respects_namespace (py_iter H v))
  /\ (forall it, respects_namespace (py_next H it)).

(** Looking a qualified macro up (an import) does not rebind [NS]. *)
Definition lookup_keeps_context : Prop :=
  forall text p, p_NS (fst (py_eval H text p)) = p_NS p.

(** The lookup failures [_qualified_macro] handles: a missing name or a
    missing attribute. *)
Definition missing (e : exn) : bool :=
  isinstance e "KeyError" || isinstance e "AttributeError".

(** The paired segment of a call, as the sequence it is flattened from. *)
Definition flat_pairs (pairs : list (value * value)) : list value :=
  concat (map (fun kv => [fst kv; snd kv]) pairs).

(** One rendered pair of a call: the marker's prefix, then the compiled value. *)
Definition render_pair (self_form : value -> M (cstate external) string)
           (kv : value * value) : M (cstate external) string :=
  word <- lift (pair_word (fst kv)) ;;
  text <- self_form (snd kv) ;;
  ret (word ++ text).

(** The compiler rejects [f]: compiling it does not return normally. *)
Definition rejects (fuel : nat) (f : value) (s : pstate external) : Prop :=
  forall s' r, compile H self fuel [f] s = Some (s', r) -> exists e, r = Raise e.

(** The failure policy as the specification words it, for whatever the
    execution of the compiled text of [f] raises: in the entry-point
    namespace the abort flag is set, everything compiled so far is printed
    and the process is ended with status 1; in a library namespace a warning
    is issued, the failing text and its commented-out trace are appended to
    the result, and the remaining forms are compiled. *)
Definition failure_policy (fuel : nat) (f : value) (rest : list value)
           (s : pstate external) : Prop :=
  forall c text p e,
    evaluate self = true ->
    abort s = false ->
    form H self fuel f (comp s) = Some (c, Ok text) ->
    error c = None ->
    py_exec H text (proc c) = (p, Raise e) ->
    compile H self fuel (f :: rest) s
    = if is_main p
      then Some (PState (CState p None) true (warnings s)
                        (stderr s ++ [join (NL ++ NL) [text; commented (exc_tb e)]])%list,
                 Raise SystemExit_1)
      else compile_loop H self fuel rest [text; commented (exc_tb e)]
             (PState (CState p None) false
                     (warnings s ++ [warning_text e text])%list (stderr s)).

(** The first attribute of a path [a.b.c] and what follows it ([.b.c]). *)
Definition first_attribute (path : string) : string :=
  part (split1 "." path) 0.

Definition attribute_suffix (path : string) : string :=
  match find_sub "." path with
  | Some (_, rest) => "." ++ rest
  | None => ""
  end.

(** The compiler object after [form] left it in [c]. *)
Definition compiled (c : cstate external) (s : pstate external) : pstate external :=
  PState c (abort s) (warnings s) (stderr s).

(** Two runs of [m] from states with the same namespace go in lockstep: both
    exhaust the budget, or both end with the same result in states with the
    same namespace. *)
Definition lockstep {A} (m : M (cstate external) A) : Prop :=
  forall s1 s2, same_namespace s1 s2 ->
    match m s1, m s2 with
    | Some (s1', r1), Some (s2', r2) => same_namespace s1' s2' /\ r1 = r2
    | None, None => True
    | _, _ => False
    end.

(** A computation that leaves the context variable as it found it, however
    it ends. *)
Definition keeps_context {A} (m : M (cstate external) A) : Prop :=
  forall s s' r, m s = Some (s', r) -> get_NS s' = get_NS s.

(** A computation that lets no [Exception] escape. *)
Definition traced {A} (m : M (cstate external) A) : Prop :=
  forall s s' e, m s = Some (s', Raise e) -> isinstance e "Exception" = false.

End Vocabulary.

Unset Implicit Arguments.

(* ===================================================================== *)
(** ** Vocabulary of the further properties *)
(* ===================================================================== *)

(** [s.split("\n")]: the lines of a text. *)
Fixpoint split_lines (s : string) : list string :=
  match s with
  | EmptyString => [EmptyString]
  | String c s' =>
      if Ascii.eqb c (ascii_of_nat 10) then EmptyString :: split_lines s'
      else match split_lines s' with
           | line :: rest => String c line :: rest
           | [] => [String c EmptyString]
           end
  end.

(** [text.replace("\n", "\n  ")]: what [_join_args] and [body] do to the
    text of a sub-form. *)
Definition indent (text : string) : string := replace NL (NL ++ "  ") text.

(** The forms [Compiler.form] hands to [quoted]: everything but a non-empty
    tuple and a string that does not start with a colon. *)
Definition self_evaluating (v : value) : bool :=
  match v with
  | VTuple (_ :: _) => false
  | VStr name => startswith ":" name
  | _ => true
  end.

(** A computation that does not clear a recorded error. *)
Definition keeps_error {external : Type} {A} (m : M (cstate external) A) : Prop :=
  forall s s' r, m s = Some (s', r) -> error s <> None -> error s' <> None.

(** Every result of [m1] is a result of [m2]: [m2] may only succeed where
    [m1] exhausts the budget. *)
Definition extends {external : Type} {A} (m1 m2 : M (cstate external) A) : Prop :=
  forall s x, m1 s = Some x -> m2 s = Some x.

(** The number of values a value is made of. *)
Fixpoint size (v : value) : nat :=
  match v with
  | VTuple items | VList items | VSet items => S (list_sum (map size items))
  | VDict items => S (list_sum (map (fun '(k, x) => size k + size x) items))
  | _ => 1
  end.

(** A computation that ends wherever the invariant [stable] of the process
    holds, and keeps it. *)
Definition ends {external : Type} {A} (stable : process external -> Prop)
           (m : M (cstate external) A) : Prop :=
  forall s, stable (proc s) -> exists s' r, m s = Some (s', r) /\ stable (proc s').

(** Where [stable] holds, looking [head] up finds no macro and keeps
    [stable]. *)
Definition no_macro {external : Type} (H : Host external) (self : compiler)
           (stable : process external -> Prop) (head : string) : Prop :=
  forall s s' r,
    stable (proc s) -> _get_macro H self head s = Some (s', r) ->
    stable (proc s') /\ (forall m, r = Ok m -> m = VNone).

(** The forms that are compiled without expanding a macro and without
    drawing from an iterator of the host: what is not a non-empty tuple; a
    [quote] form; a [lambda] whose parameters are a builtin sequence, its
    parameters and body being such forms; and a tuple whose head, if it is a
    string, is no macro ([quiet]), its elements being such forms. *)
Inductive plain (quiet : string -> Prop) : value -> Prop :=
| plain_atom (v : value) :
    (forall head tail, v <> VTuple (head :: tail)) -> plain quiet v
| plain_quote (tail : list value) :
    plain quiet (VTuple (VStr "quote" :: tail))
| plain_lambda (params : value) (items body : list value) :
    builtin_items params = Some items ->
    Forall (plain quiet) items ->
    Forall (plain quiet) body ->
    plain quiet (VTuple (VStr "lambda" :: params :: body))
| plain_lambda_alone :
    plain quiet (VTuple [VStr "lambda"])
| plain_invocation (head : string) (tail : list value) :
    head <> "quote" -> head <> "lambda" ->
    quiet head ->
    Forall (plain quiet) tail ->
    plain quiet (VTuple (VStr head :: tail))
| plain_call (head : value) (tail : list value) :
    (forall name, head <> VStr name) ->
    plain quiet head ->
    Forall (plain quiet) tail ->
    plain quiet (VTuple (head :: tail)).

(* ===================================================================== *)
(** ** The examples of the docstrings *)
(* ===================================================================== *)

(** The doctests of [call], [function] and [quoted] that stay within the
    small host's values, run on the embedding. *)

Example doctest_call_empty_kwargs :
  Demo.doctest (VTuple [VStr "foo"; VStr ":"]) = Some (Ok "foo()").
Proof. vm_compute. reflexivity. Qed.

Example doctest_call_one_arg :
  Demo.doctest (VTuple [VStr "foo"; VStr "bar"; VStr ":"])
  = Some (Ok ("foo(" ++ NL ++ "  bar)")).
Proof. vm_compute. reflexivity. Qed.

Example doctest_call_one_kwarg :
  Demo.doctest (VTuple [VStr "foo"; VStr ":"; VStr "bar"; VStr "baz"])
  = Some (Ok ("foo(" ++ NL ++ "  bar=baz)")).
Proof. vm_compute. reflexivity. Qed.

Example doctest_call_no_colon :
  Demo.doctest (VTuple [VStr "foo"]) = Some (Ok "foo()")
  /\ Demo.doctest (VTuple [VStr "foo"; VStr "bar"]) = Some (Ok ("foo(" ++ NL ++ "  bar)")).
Proof. split; vm_compute; reflexivity. Qed.

Example doctest_lambda_parameters :
  Demo.doctest
    (VTuple [VStr "lambda";
             VTuple [VStr "a"; VStr ":/"; VStr "b";
                     VStr ":"; VStr "e"; VInt 1; VStr "f"; VInt 2;
                     VStr ":*"; VStr "args"; VStr "h"; VInt 4; VStr "i"; VStr ":?";
                     VStr "j"; VInt 1;
                     VStr ":**"; VStr "kwargs"];
             VInt 42])
  = Some (Ok "(lambda a,/,b,e=(1),f=(2),*args,h=(4),i,j=(1),**kwargs:(42))").
Proof. vm_compute. reflexivity. Qed.

Example doctest_lambda_progn :
  Demo.doctest
    (VTuple [VStr "lambda";
             VTuple [VStr ":"; VStr ":*"; VStr "args"; VStr ":**"; VStr "kwargs"];
             VTuple [VStr "print"; VStr "args"];
             VTuple [VStr "print"; VStr "kwargs"]])
  = Some (Ok ("(lambda *args,**kwargs:(" ++ NL
              ++ "  print(" ++ NL ++ "    args)," ++ NL
              ++ "  print(" ++ NL ++ "    kwargs))[-1])")).
Proof. vm_compute. reflexivity. Qed.

Example doctest_lambda_no_value :
  Demo.doctest
    (VTuple [VStr "lambda";
             VTuple [VStr ":"; VStr "a"; VInt 1; VStr ":/"; VStr ":?";
                     VStr ":*"; VStr ":?"; VStr "b"; VStr ":?"; VStr "c"; VInt 2]])
  = Some (Ok "(lambda a=(1),/,*,b,c=(2):())").
Proof. vm_compute. reflexivity. Qed.

Example doctest_lambda_separator :
  Demo.doctest (VTuple [VStr "lambda"; VTuple [VStr "a"; VStr "b"; VStr "c"; VStr ":"]])
  = Some (Ok "(lambda a,b,c:())")
  /\ Demo.doctest (VTuple [VStr "lambda"; VTuple [VStr "a"; VStr "b"; VStr "c"]])
     = Some (Ok "(lambda a,b,c:())")
  /\ Demo.doctest (VTuple [VStr "lambda"; VTuple [VStr ":"]]) = Some (Ok "(lambda :())")
  /\ Demo.doctest (VTuple [VStr "lambda"; VTuple []]) = Some (Ok "(lambda :())")
  /\ Demo.doctest (VTuple [VStr "lambda"; VTuple [VStr ":"; VStr ":**"; VStr "kwargs"]])
     = Some (Ok "(lambda **kwargs:())").
Proof. repeat split; vm_compute; reflexivity. Qed.

Example doctest_quoted_nan :
  Demo.doctest (VFloat Demo.nan_bits)
  = Some (Ok ("__import__('pickle').loads(  # nan" ++ NL
              ++ "    b'Fnan\n.'" ++ NL ++ ")")).
Proof. vm_compute. reflexivity. Qed.

(* ===================================================================== *)
(** ** Text lemmas *)
(* ===================================================================== *)

Lemma prefix_drop (p s : string) :
  String.prefix p s = true -> s = p ++ drop (String.length p) s.
Proof.
  revert s; induction p as [|c p IH]; intros [|d s]; simpl; try discriminate; auto.
  destruct (ascii_dec c d) as [->|]; [|discriminate].
  intros Hp. f_equal. now apply IH.
Qed.

Lemma append_assoc (a b c : string) : (a ++ b) ++ c = a ++ b ++ c.
Proof. induction a; simpl; congruence. Qed.

(** [find_sub] splits the text around an occurrence of the pattern. *)
Lemma find_sub_sound (pat s before after : string) :
  find_sub pat s = Some (before, after) -> s = before ++ pat ++ after.
Proof.
  revert before after; induction s as [|c s IH]; intros before after.
  - cbn [find_sub]. destruct (String.prefix pat "") eqn:E; [|discriminate].
    intros [= <- <-]. now apply prefix_drop in E.
  - cbn [find_sub]. destruct (String.prefix pat (String c s)) eqn:E.
    + intros [= <- <-]. now apply prefix_drop in E.
    + destruct (find_sub pat s) as [[b a]|]; [|discriminate].
      intros [= <- <-]. simpl. f_equal. now apply IH.
Qed.

(* ===================================================================== *)
(** ** The monad and [_trace] *)
(* ===================================================================== *)

Section Monad.

Context {external : Type}.
Variable H : Host external.

Local Abbreviation C := (M (cstate external)).

Lemma bind_ext {S A B} (m : M S A) (k1 k2 : A -> M S B) s :
  (forall a s', k1 a s' = k2 a s') -> bind m k1 s = bind m k2 s.
Proof.
  intros E. unfold bind. destruct (m s) as [[s' [a|e]]|]; auto.
Qed.

(** A traced method lets no [Exception] out. *)
Lemma _trace_traced {A} name (inj : string -> A) expr (m : C A) :
  traced (_trace H name inj expr m).
Proof.
  intros s s' e. unfold _trace.
  destruct (m s) as [[s1 [a|e1]]|]; try discriminate.
  destruct (isinstance e1 "Exception") eqn:E; [discriminate|].
  now intros [= <- <-].
Qed.

(** Tracing a computation that is already traced changes nothing. *)
Lemma _trace_of_traced {A} name (inj : string -> A) expr (m : C A) s :
  traced m -> _trace H name inj expr m s = m s.
Proof.
  intros T. unfold _trace. destruct (m s) as [[s1 [a|e1]]|] eqn:E; auto.
  now rewrite (T _ _ _ E).
Qed.

Lemma _trace_ok {A} name (inj : string -> A) expr (m : C A) s s' a :
  m s = Some (s', Ok a) -> _trace H name inj expr m s = Some (s', Ok a).
Proof. intros E. unfold _trace. now rewrite E. Qed.

Lemma _trace_exception {A} name (inj : string -> A) expr (m : C A) s s' e :
  m s = Some (s', Raise e) -> isinstance e "Exception" = true ->
  _trace H name inj expr m s
  = Some (set_error (Some e) s', Ok (inj (trace_text H name expr e))).
Proof. intros E I. unfold _trace. now rewrite E, I. Qed.

End Monad.

(* ===================================================================== *)
(** ** The literal encoder *)
(* ===================================================================== *)

Section Literals.

Context {external : Type}.
Variable H : Host external.

Local Abbreviation C := (M (cstate external)).

(** What [quoted] does on a value that is not the ellipsis. *)
Lemma quoted_body_checked (v : value) (s : cstate external) :
  v <> VEllipsis ->
  quoted_body H v s
  = match literal_eval H (literal_text H v) with
    | Ok parsed =>
        if py_eq H parsed v then Some (s, Ok (literal_text H v)) else pickle H v s
    | Raise e =>
        if isinstance e "ValueError" || isinstance e "SyntaxError"
        then pickle H v s
        else Some (s, Raise e)
    end.
Proof.
  intros NE.
  assert (E : quoted_body H v
              = (accepted <- try_except
                               (parsed <- lift (literal_eval H (literal_text H v)) ;;
                                ret (py_eq H parsed v))
                               (fun e => isinstance e "ValueError"
                                         || isinstance e "SyntaxError")
                               (fun _ => ret false) ;;
                 if accepted : bool then ret (literal_text H v) else pickle H v)).
  { destruct v; try reflexivity. congruence. }
  rewrite E. unfold bind, try_except, lift, ret.
  destruct (literal_eval H (literal_text H v)) as [parsed|e].
  - now destruct (py_eq H parsed v).
  - now destruct (isinstance e "ValueError" || isinstance e "SyntaxError").
Qed.

Lemma quoted_rejected (v : value) (s : cstate external) :
  fails_round_trip H v -> quoted H v s = pickle H v s.
Proof.
  intros [NE F]. unfold quoted.
  assert (E : quoted_body H v s = pickle H v s).
  { rewrite quoted_body_checked by assumption.
    destruct (literal_eval H (literal_text H v)) as [parsed|e]; now rewrite F. }
  unfold _trace at 1. rewrite E.
  destruct (pickle H v s) as [[s' [t|e]]|] eqn:P; auto.
  unfold pickle in P. apply _trace_traced in P. now rewrite P.
Qed.

(** C1. For every self-denoting value whose candidate literal is accepted by
    the round-trip check, [quoted] returns text, records no error, and
    [ast.literal_eval] of that text is a value equal to the original. *)
Theorem quoted_round_trip (v : value) (s : cstate external) :
  accepted H v ->
  exists text parsed,
    quoted H v s = Some (s, Ok text)
    /\ literal_eval H text = Ok parsed
    /\ py_eq H parsed v = true.
Proof.
  intros [NE RT]. unfold round_trips in RT.
  destruct (literal_eval H (literal_text H v)) as [parsed|e] eqn:L; [|discriminate].
  exists (literal_text H v), parsed. repeat split; auto.
  unfold quoted. apply _trace_ok.
  rewrite quoted_body_checked by assumption. now rewrite L, RT.
Qed.

(** C2, amended. For a value that fails the round-trip check, [quoted] tries
    the text protocol first and the highest binary protocol only after a
    [PicklingError]; when one of them serializes the value it records no
    error and emits the deserialization expression over the optimized bytes,
    commented with [repr] of the value; when serialization fails it returns
    the diagnostic of [_trace] and records the error. *)
Theorem pickle_fallback (v : value) (s : cstate external) :
  fails_round_trip H v ->
  (forall dumps,
      pickle_dumps H v 0 = Ok dumps ->
      quoted H v s = Some (s, Ok (pickle_text H v (pickletools_optimize H dumps))))
  /\ (forall e dumps,
         pickle_dumps H v 0 = Raise e -> isinstance e "PicklingError" = true ->
         pickle_dumps H v (HIGHEST_PROTOCOL H) = Ok dumps ->
         quoted H v s = Some (s, Ok (pickle_text H v (pickletools_optimize H dumps))))
  /\ (forall e,
         pickle_dumps H v 0 = Raise e -> isinstance e "PicklingError" = false ->
         isinstance e "Exception" = true ->
         quoted H v s = Some (set_error (Some e) s, Ok (trace_text H "pickle" v e)))
  /\ (forall e e',
         pickle_dumps H v 0 = Raise e -> isinstance e "PicklingError" = true ->
         pickle_dumps H v (HIGHEST_PROTOCOL H) = Raise e' ->
         isinstance e' "Exception" = true ->
         quoted H v s = Some (set_error (Some e') s, Ok (trace_text H "pickle" v e'))).
Proof.
  intros F. rewrite (quoted_rejected _ _ F).
  unfold pickle, _trace, pickle_body, bind, try_except, lift, ret, id_text.
  repeat split.
  - intros dumps D. now rewrite D.
  - intros e dumps D I D'. now rewrite D, I, D'.
  - intros e D I X. now rewrite D, I, X.
  - intros e e' D I D' X. now rewrite D, I, D', X.
Qed.

End Literals.

(** The integer [1] is accepted by the check and comes back from its text. *)
Lemma quoted_round_trip_witness :
  accepted (Demo.host true) (VInt 1)
  /\ exists text parsed,
       quoted (Demo.host true) (VInt 1) (CState (Demo.start Demo.main_ns 0) None)
       = Some (CState (Demo.start Demo.main_ns 0) None, Ok text)
       /\ literal_eval (Demo.host true) text = Ok parsed
       /\ py_eq (Demo.host true) parsed (VInt 1) = true.
Proof.
  assert (A : accepted (Demo.host true) (VInt 1)).
  { split; [discriminate | reflexivity]. }
  split; [exact A | exact (quoted_round_trip _ _ _ A)].
Defined.

(** A [PickleBuffer] is refused by the text protocol with a [PicklingError]
    and serialized by protocol 5; a generator is refused with a [TypeError],
    which is not retried. *)
Example pickle_fallback_cases :
  quoted (Demo.host true) Demo.a_buffer (CState (Demo.start Demo.main_ns 0) None)
  = Some (CState (Demo.start Demo.main_ns 0) None,
          Ok ("__import__('pickle').loads(  # <pickle.PickleBuffer object at 0x7f82a41e5a40>"
              ++ NL ++ "    b'\x80\x05\x95\x06\x00\x00\x00\x00\x00\x00\x00C\x03abc.'"
              ++ NL ++ ")"))
  /\ exists text,
       quoted (Demo.host true) Demo.a_generator (CState (Demo.start Demo.main_ns 0) None)
       = Some (CState (Demo.start Demo.main_ns 0)
                      (Some (TypeError "cannot pickle 'generator' object")),
               Ok text).
Proof. split; [|eexists]; vm_compute; reflexivity. Qed.

(** A function object fails the round-trip check and cannot be serialized
    under either protocol: [quoted] records the [PicklingError] and returns a
    diagnostic, not a deserialization expression. *)
Lemma fallback_counterexample :
  ~ fallback_always_serializes (Demo.host true) Demo.a_lambda.
Proof.
  intros Claim.
  assert (F : fails_round_trip (Demo.host true) Demo.a_lambda).
  { split; [discriminate | reflexivity]. }
  destruct (Claim F (CState (Demo.start Demo.main_ns 0) None))
    as (dumps & loaded & Q & _).
  vm_compute in Q. discriminate Q.
Qed.

(** NaN fails the round-trip check and is serialized under the text protocol. *)
Lemma pickle_fallback_witness :
  fails_round_trip (Demo.host true) (VFloat Demo.nan_bits)
  /\ quoted (Demo.host true) (VFloat Demo.nan_bits) (CState (Demo.start Demo.main_ns 0) None)
     = Some (CState (Demo.start Demo.main_ns 0) None,
             Ok ("__import__('pickle').loads(  # nan" ++ NL
                 ++ "    b'Fnan\n.'" ++ NL ++ ")")).
Proof.
  assert (F : fails_round_trip (Demo.host true) (VFloat Demo.nan_bits)).
  { split; [discriminate | reflexivity]. }
  split; [exact F|].
  exact (proj1 (pickle_fallback _ _ (CState (Demo.start Demo.main_ns 0) None) F)
               _ eq_refl).
Defined.

(* ===================================================================== *)
(** ** The symbol resolver *)
(* ===================================================================== *)

Section Symbols.

Context {external : Type}.
Variable H : Host external.
Variable self : compiler.

Lemma join_chain (x path : string) :
  join "." (x :: tl (split1 "." path)) = x ++ attribute_suffix path.
Proof.
  unfold split1, attribute_suffix.
  destruct (find_sub "." path) as [[b a]|]; simpl.
  - reflexivity.
  - induction x; simpl; congruence.
Qed.

(** C8. A symbol that is not raw and contains the separator [..] splits at
    its first [..] into a module part and an attribute path.  When the module
    part is the compiling unit's own [qualname], the resolver emits a lookup
    of the first attribute in [globals()], followed by the rest of the path;
    otherwise it emits an [__import__] of the module part followed by the
    attribute path. *)
Theorem symbol_qualified (name module path : string) (s : cstate external) :
  is_raw name = false ->
  find_sub ".." name = Some (module, path) ->
  name = module ++ ".." ++ path
  /\ (module = qualname self ->
      forall q s',
        quoted H (VStr (first_attribute path)) s = Some (s', Ok q) ->
        symbol H self name s
        = Some (s', Ok ("__import__('builtins').globals()[" ++ q ++ "]"
                        ++ attribute_suffix path)))
  /\ (module <> qualname self ->
      symbol H self name s
      = Some (s, Ok ("__import__(" ++ repr H (VStr module) ++ fromlist module
                     ++ ")." ++ path))).
Proof.
  intros Raw Found. split; [now apply find_sub_sound|].
  assert (B : symbol_body H self name
              = if String.eqb module (qualname self)
                then (q <- quoted H (VStr (first_attribute path)) ;;
                      ret (join "." (("__import__('builtins').globals()[" ++ q ++ "]")
                                       :: tl (split1 "." path))))
                else ret ("__import__(" ++ repr H (VStr module) ++ fromlist module
                          ++ ")." ++ path)).
  { unfold symbol_body, contains, split1. now rewrite Raw, Found. }
  unfold symbol. split.
  - intros -> q s' Q. apply _trace_ok. rewrite B, String.eqb_refl.
    unfold bind. rewrite Q. unfold ret.
    now rewrite join_chain, !append_assoc.
  - intros NE. apply _trace_ok. rewrite B.
    now destruct (String.eqb_spec module (qualname self)).
Qed.

End Symbols.

(** In the unit [__main__] the symbol [__main__..foo.bar] is looked up in
    [globals()]. *)
Lemma symbol_qualified_witness :
  symbol (Demo.host true) Demo.readerless "__main__..foo.bar"
         (CState (Demo.start Demo.main_ns 0) None)
  = Some (CState (Demo.start Demo.main_ns 0) None,
          Ok "__import__('builtins').globals()['foo'].bar").
Proof.
  exact (proj1 (proj2 (@symbol_qualified nat (Demo.host true) Demo.readerless
                         "__main__..foo.bar" "__main__" "foo.bar"
                         (CState (Demo.start Demo.main_ns 0) None)
                         eq_refl eq_refl))
               eq_refl "'foo'" _ eq_refl).
Defined.

(* ===================================================================== *)
(** ** The form dispatcher and macro lookup *)
(* ===================================================================== *)

Section Dispatcher.

Context {external : Type}.
Variable H : Host external.
Variable self : compiler.
Variable budget : nat.
Variable self_form : value -> M (cstate external) string.

Lemma quoted_traced (v : value) : traced (quoted H v).
Proof. apply _trace_traced. Qed.

Lemma call_traced (f : list value) : traced (call H self_form f).
Proof. apply _trace_traced. Qed.

(** A [quote] form with at least one operand compiles to the encoding of the
    first operand, whatever follows it. *)
Lemma special_quote (operand : value) (extra : list value) (s : cstate external) :
  special H self budget self_form "quote" (operand :: extra) s = quoted H operand s.
Proof.
  unfold special. apply _trace_of_traced. apply quoted_traced.
Qed.

Lemma tuple_quote (operand : value) (extra : list value) (s : cstate external) :
  tuple H self budget self_form (VStr "quote") (operand :: extra) s = quoted H operand s.
Proof.
  unfold tuple. rewrite _trace_of_traced by apply _trace_traced.
  apply special_quote.
Qed.

(** A [quote] form without operand: [form[1]] raises [IndexError], which the
    tracer of [special] records. *)
Lemma tuple_quote_alone (s : cstate external) :
  tuple H self budget self_form (VStr "quote") [] s
  = Some (set_error (Some (IndexError "tuple index out of range")) s,
          Ok (trace_text H "special" (VTuple [VStr "quote"])
                         (IndexError "tuple index out of range"))).
Proof. reflexivity. Qed.

(** When [macro] gives a false result, [invocation] compiles the call whose
    head has its first placeholder replaced. *)
Lemma invocation_no_macro (head : string) (tail : list value)
      (s s' : cstate external) (r : option string) :
  macro H self self_form head tail s = Some (s', Ok r) ->
  truthy r = false ->
  invocation H self self_form head tail s
  = call H self_form (VStr (replace1 AUTO ".." head) :: tail) s'.
Proof.
  intros Mc F. unfold invocation.
  assert (E : invocation_body H self self_form head tail s
              = call H self_form (VStr (replace1 AUTO ".." head) :: tail) s').
  { unfold invocation_body, bind. now rewrite Mc, F. }
  unfold _trace at 1. rewrite E.
  destruct (call H self_form (VStr (replace1 AUTO ".." head) :: tail) s')
    as [[s1 [t|e]]|] eqn:Cl; auto.
  apply call_traced in Cl. now rewrite Cl.
Qed.

Lemma macro_not_found (head : string) (tail : list value) (s s' : cstate external) :
  _get_macro H self head s = Some (s', Ok VNone) ->
  macro H self self_form head tail s = Some (s', Ok None).
Proof.
  intros G. unfold macro. apply _trace_ok. unfold macro_body, bind. now rewrite G.
Qed.

Lemma macro_lookup_raises (head : string) (tail : list value) (s s' : cstate external)
      (e : exn) :
  _get_macro H self head s = Some (s', Raise e) ->
  isinstance e "Exception" = true ->
  macro H self self_form head tail s
  = Some (set_error (Some e) s',
          Ok (Some (trace_text H "macro" (VTuple (VStr head :: tail)) e))).
Proof.
  intros G I. unfold macro. apply _trace_exception; auto.
  unfold macro_body, bind. now rewrite G.
Qed.

(** C10. When the head of a compound form contains the auto-qualification
    marker and [macro] finds no macro for it, [invocation] compiles the call
    whose head is the same symbol with the first [..xAUTO_.] replaced by
    [..]. *)
Theorem auto_marker_rewritten (head before after : string) (tail : list value)
        (s s' : cstate external) :
  find_sub AUTO head = Some (before, after) ->
  macro H self self_form head tail s = Some (s', Ok None) ->
  head = before ++ AUTO ++ after
  /\ invocation H self self_form head tail s
     = call H self_form (VStr (before ++ ".." ++ after) :: tail) s'.
Proof.
  intros Found Mc. split; [now apply find_sub_sound|].
  rewrite (invocation_no_macro _ _ _ _ _ Mc eq_refl).
  unfold replace1. now rewrite Found.
Qed.

(** C9. A head whose macro marker is [marker] is looked up as a qualified
    macro.  When that lookup raises: if the marker is the auto-qualification
    placeholder and the failure is a missing name or attribute, there is no
    macro and the dispatcher compiles the form as a call; otherwise the
    failure is raised by [_get_macro], and recorded as the error of the
    compilation by the tracer of [macro]. *)
Theorem auto_lookup_failure (head module marker name : string) (tail : list value)
        (s s' : cstate external) (e : exn) :
  RE_MACRO_split head = [module; marker; name] ->
  qualified_lookup H self (replace1 AUTO MACRO head) [module; marker; name] s
  = Some (s', Raise e) ->
  (marker = AUTO -> missing e = true ->
   macro H self self_form head tail s = Some (s', Ok None)
   /\ invocation H self self_form head tail s
      = call H self_form (VStr (replace1 AUTO ".." head) :: tail) s')
  /\ (marker <> AUTO \/ missing e = false ->
      _get_macro H self head s = Some (s', Raise e)
      /\ (isinstance e "Exception" = true ->
          macro H self self_form head tail s
          = Some (set_error (Some e) s',
                  Ok (Some (trace_text H "macro" (VTuple (VStr head :: tail)) e))))).
Proof.
  intros Split Lookup.
  assert (G : _get_macro H self head s
              = if missing e
                then (if negb (String.eqb marker AUTO)
                      then Some (s', Raise e) else Some (s', Ok VNone))
                else Some (s', Raise e)).
  { unfold _get_macro. rewrite Split. cbn [List.length Nat.ltb Nat.leb].
    unfold _qualified_macro, try_except. rewrite Lookup.
    unfold missing, part; cbn [nth].
    destruct (isinstance e "KeyError" || isinstance e "AttributeError"); auto.
    now destruct (negb (String.eqb marker AUTO)). }
  split.
  - intros -> Ms. rewrite Ms, String.eqb_refl in G. cbn [negb] in G.
    pose proof (macro_not_found _ tail _ _ G) as Mc.
    split; [exact Mc|]. exact (invocation_no_macro _ _ _ _ _ Mc eq_refl).
  - intros Other.
    assert (G' : _get_macro H self head s = Some (s', Raise e)).
    { rewrite G. destruct Other as [NE|Ms].
      - destruct (String.eqb_spec marker AUTO); [contradiction|].
        now destruct (missing e).
      - now rewrite Ms. }
    split; [exact G'|]. intros I. now apply macro_lookup_raises.
Qed.

End Dispatcher.

(** The earlier compiler checks the length of a [quote] form before it
    encodes the operand. *)
Lemma legacy_quote_arity {external : Type} (H : Host external)
      (aliases : list (string * string)) (LAMBDA MACRO SMACRO : string)
      (fn : list value -> result string) (macro : string -> list value -> result string)
      (call : list value -> result string) (head : string) (tail : list value) :
  Legacy.alias aliases head = "quote" ->
  Legacy.tuple H aliases LAMBDA MACRO SMACRO fn macro call (VStr head :: tail)
  = match tail with
    | [operand] => Legacy.quoted H operand
    | _ => Raise Legacy.SyntaxError
    end.
Proof.
  intros A. unfold Legacy.tuple. rewrite A. cbn [String.eqb Ascii.eqb Bool.eqb].
  destruct tail as [|operand [|extra more]]; reflexivity.
Qed.

(** C6. What the compiler does with the operands of [quote]: with at least
    one operand it returns the encoding of the first and ignores the others;
    without operand it records an [IndexError].  In particular the form
    [(quote 1 2)] compiles, without error, to the text of [1], where the
    earlier compiler raises [SyntaxError]. *)
Theorem quote_operands :
  (forall external (H : Host external) self fuel operand extra s,
      form H self (S fuel) (VTuple (VStr "quote" :: operand :: extra)) s
      = quoted H operand s)
  /\ (forall external (H : Host external) self fuel s,
         form H self (S fuel) (VTuple [VStr "quote"]) s
         = Some (set_error (Some (IndexError "tuple index out of range")) s,
                 Ok (trace_text H "special" (VTuple [VStr "quote"])
                                (IndexError "tuple index out of range"))))
  /\ compile (Demo.host true) Demo.readerless 1
             [VTuple [VStr "quote"; VInt 1; VInt 2]] (init (Demo.start Demo.main_ns 0))
     = Some (init (Demo.start Demo.main_ns 0), Ok "(1)")
  /\ (forall LAMBDA MACRO SMACRO fn macro call,
         Legacy.tuple (Demo.host true) [] LAMBDA MACRO SMACRO fn macro call
                      [VStr "quote"; VInt 1; VInt 2]
         = Raise Legacy.SyntaxError).
Proof.
  split; [|split; [|split]].
  - intros. cbn [form]. unfold form_step, form_body.
    rewrite _trace_of_traced by apply _trace_traced. apply tuple_quote.
  - intros. cbn [form]. unfold form_step, form_body.
    rewrite _trace_of_traced by apply _trace_traced. apply tuple_quote_alone.
  - vm_compute. reflexivity.
  - intros. now rewrite legacy_quote_arity.
Qed.

(** [foo..xAUTO_.bar] where module [foo] has no macro container: no macro,
    and the call of [foo..bar] is compiled. *)
Lemma auto_lookup_failure_witness :
  let s := CState (Demo.start Demo.main_ns 0) None in
  let rec := form (Demo.host true) Demo.readerless 3 in
  macro (Demo.host true) Demo.readerless rec "foo..xAUTO_.bar" [VInt 1] s
  = Some (s, Ok None)
  /\ invocation (Demo.host true) Demo.readerless rec "foo..xAUTO_.bar" [VInt 1] s
     = call (Demo.host true) rec [VStr "foo..bar"; VInt 1] s.
Proof.
  exact (proj1 (@auto_lookup_failure nat (Demo.host true) Demo.readerless
                  (form (Demo.host true) Demo.readerless 3)
                  "foo..xAUTO_.bar" "foo" AUTO "bar" [VInt 1]
                  (CState (Demo.start Demo.main_ns 0) None)
                  (CState (Demo.start Demo.main_ns 0) None)
                  (Demo.attribute_error "module 'foo' has no attribute '_macro_'")
                  eq_refl eq_refl)
               eq_refl eq_refl).
Defined.

Lemma auto_marker_rewritten_witness :
  let s := CState (Demo.start Demo.main_ns 0) None in
  let rec := form (Demo.host true) Demo.readerless 3 in
  "foo..xAUTO_.bar" = "foo" ++ AUTO ++ "bar"
  /\ invocation (Demo.host true) Demo.readerless rec "foo..xAUTO_.bar" [VInt 1] s
     = call (Demo.host true) rec [VStr ("foo" ++ ".." ++ "bar"); VInt 1] s.
Proof.
  exact (@auto_marker_rewritten nat (Demo.host true) Demo.readerless
           (form (Demo.host true) Demo.readerless 3)
           "foo..xAUTO_.bar" "foo" "bar" [VInt 1]
           (CState (Demo.start Demo.main_ns 0) None)
           (CState (Demo.start Demo.main_ns 0) None)
           eq_refl eq_refl).
Defined.

(* ===================================================================== *)
(** ** The call translator *)
(* ===================================================================== *)

Section Calls.

Context {external : Type}.
Variable H : Host external.
Variable self_form : value -> M (cstate external) string.

Lemma split_colon_app (single rest : list value) :
  Forall (fun a => is_word ":" a = false) single ->
  split_colon (single ++ VStr ":" :: rest) = (single, rest).
Proof.
  induction 1 as [|a single Ha _ IH]; simpl.
  - reflexivity.
  - now rewrite Ha, IH.
Qed.

(** The pairs are consumed two items at a time, in order. *)
Lemma call_pairs_flat (pairs : list (value * value)) (s : cstate external) :
  call_pairs self_form (flat_pairs pairs) s = mapM (render_pair self_form) pairs s.
Proof.
  revert s; induction pairs as [|[k v] pairs IH]; intros s.
  - reflexivity.
  - change (flat_pairs ((k, v) :: pairs)) with (k :: v :: flat_pairs pairs).
    cbn [call_pairs mapM].
    generalize dependent (mapM (render_pair self_form) pairs). intros others IH.
    unfold render_pair, bind, lift, ret. cbn [fst snd].
    destruct (pair_word k) as [word|e]; [|reflexivity].
    destruct (self_form v s) as [[s1 [text|e]]|]; [|reflexivity..].
    now rewrite IH.
Qed.

Lemma call_args_split (single : list value) (pairs : list (value * value))
      (s : cstate external) :
  Forall (fun a => is_word ":" a = false) single ->
  call_args self_form (single ++ VStr ":" :: flat_pairs pairs) s
  = (positional <- mapM self_form single ;;
     keywords <- mapM (render_pair self_form) pairs ;;
     ret (positional ++ keywords)%list) s.
Proof.
  intros NoColon. unfold call_args. rewrite split_colon_app by assumption.
  apply bind_ext; intros positional s1.
  unfold bind. now rewrite call_pairs_flat.
Qed.

(** C7, amended. In a call whose head is not a method name, when the callee,
    the positional arguments and the values of the pairs compile, in this
    order, the call compiles to the callee applied to the positional texts
    followed by the rendered pairs, every pair at its place in the source;
    [:*] renders as [*] and [:**] as [**] before the value's text.  No
    order between the markers is checked. *)
Theorem call_renders_in_source_order
        (head : value) (single : list value) (pairs : list (value * value))
        (s s0 s1 s2 : cstate external)
        (callee : string) (positional keywords : list string) :
  (forall name, head = VStr name -> startswith "." name = false) ->
  Forall (fun a => is_word ":" a = false) single ->
  self_form head s = Some (s0, Ok callee) ->
  mapM self_form single s0 = Some (s1, Ok positional) ->
  mapM (render_pair self_form) pairs s1 = Some (s2, Ok keywords) ->
  call H self_form (head :: single ++ VStr ":" :: flat_pairs pairs) s
  = Some (s2, Ok (callee ++ "(" ++ _join_args (positional ++ keywords) ++ ")"))
  /\ pair_word (VStr ":*") = Ok "*"
  /\ pair_word (VStr ":**") = Ok "**".
Proof.
  intros NotMethod NoColon Callee Positional Keywords.
  split; [|split; reflexivity].
  unfold call. apply _trace_ok.
  assert (Args : call_args self_form (single ++ VStr ":" :: flat_pairs pairs) s0
                 = Some (s2, Ok (positional ++ keywords)%list)).
  { rewrite call_args_split by assumption.
    unfold bind. rewrite Positional, Keywords. reflexivity. }
  assert (Plain : (callee' <- self_form head ;;
                   args <- call_args self_form (single ++ VStr ":" :: flat_pairs pairs) ;;
                   ret (callee' ++ "(" ++ _join_args args ++ ")")) s
                  = Some (s2, Ok (callee ++ "(" ++ _join_args (positional ++ keywords)
                                         ++ ")"))).
  { unfold bind. rewrite Callee, Args. reflexivity. }
  unfold call_body. destruct head; try exact Plain.
  rewrite (NotMethod _ eq_refl). exact Plain.
Qed.

End Calls.

(** [print(1, 2, *a, **b)]: two positional arguments, then the unpacks. *)
Lemma call_renders_in_source_order_witness :
  let s := CState (Demo.start Demo.main_ns 0) None in
  call (Demo.host true) (form (Demo.host true) Demo.readerless 3)
       [VStr "print"; VInt 1; VInt 2; VStr ":"; VStr ":*"; VStr "a"; VStr ":**"; VStr "b"] s
  = Some (s, Ok ("print(" ++ NL ++ "  (1)," ++ NL ++ "  (2)," ++ NL ++ "  *a," ++ NL
                 ++ "  **b)")).
Proof.
  refine (proj1 (@call_renders_in_source_order nat (Demo.host true)
                   (form (Demo.host true) Demo.readerless 3)
                   (VStr "print") [VInt 1; VInt 2]
                   [(VStr ":*", VStr "a"); (VStr ":**", VStr "b")]
                   (CState (Demo.start Demo.main_ns 0) None)
                   (CState (Demo.start Demo.main_ns 0) None)
                   (CState (Demo.start Demo.main_ns 0) None)
                   (CState (Demo.start Demo.main_ns 0) None)
                   "print" ["(1)"; "(2)"] ["*a"; "**b"] _ _ _ _ _));
    try reflexivity.
  - intros name [= <-]. reflexivity.
  - repeat constructor.
Defined.

(** A positional unpack after a mapping unpack is compiled like any other
    pair: [print( **a, *b)] is returned and no error is recorded. *)
Lemma unpack_order_counterexample :
  ~ rejects (Demo.host true) Demo.readerless 3
      (VTuple [VStr "print"; VStr ":"; VStr ":**"; VStr "a"; VStr ":*"; VStr "b"])
      (init (Demo.start Demo.main_ns 0)).
Proof.
  intros Rejected.
  destruct (Rejected (init (Demo.start Demo.main_ns 0))
                     (Ok ("print(" ++ NL ++ "  **a," ++ NL ++ "  *b)")) eq_refl)
    as [e E].
  discriminate E.
Qed.

(* ===================================================================== *)
(** ** The evaluation pipeline *)
(* ===================================================================== *)

Section Pipeline.

Context {external : Type}.
Variable H : Host external.
Variable self : compiler.

Lemma compile_loop_step (fuel : nat) (f : value) (rest : list value)
      (result : list string) (s : pstate external) (c : cstate external)
      (text : string) :
  form H self fuel f (comp s) = Some (c, Ok text) ->
  error c = None ->
  compile_loop H self fuel (f :: rest) result s
  = match eval H self text (compiled c s) with
    | None => None
    | Some (s', Ok out) =>
        if abort s'
        then Some (print_stderr (join (NL ++ NL) (result ++ out)) s', Raise SystemExit_1)
        else compile_loop H self fuel rest (result ++ out) s'
    | Some (s', Raise e) => Some (s', Raise e)
    end.
Proof.
  intros F E. cbn [compile_loop]. unfold bind at 1, on_compiler. rewrite F.
  change (error (comp (PState c (abort s) (warnings s) (stderr s)))) with (error c).
  rewrite E. unfold bind, compiled.
  destruct (eval H self text (PState c (abort s) (warnings s) (stderr s)))
    as [[s' [out|e]]|]; reflexivity.
Qed.

(** C3, amended. When the text of a form compiles and its execution raises
    an [Exception], what the pipeline does next depends only on whether the
    namespace's [__name__] is ["__main__"].  If it is, the abort flag is set,
    everything compiled so far (the failing text and its commented trace
    included) is printed to standard error and [sys.exit(1)] is raised: the
    remaining forms play no part, and no warning is issued.  Otherwise a
    warning is issued, nothing is printed, the failing text and its
    commented-out trace are appended to the result, and the loop continues
    with the remaining forms.  When the execution raises something that is
    not an [Exception], [eval] does not catch it: it leaves [compile] as it
    is, in either kind of namespace, with no warning, no abort flag, nothing
    printed and the remaining forms not compiled. *)
Theorem execution_failure_policy
        (fuel : nat) (f : value) (rest : list value) (result : list string)
        (s : pstate external) (c : cstate external) (text : string)
        (p : process external) (e : exn) :
  evaluate self = true ->
  abort s = false ->
  form H self fuel f (comp s) = Some (c, Ok text) ->
  error c = None ->
  py_exec H text (proc c) = (p, Raise e) ->
  let result' := (result ++ [text; commented (exc_tb e)])%list in
  compile_loop H self fuel (f :: rest) result s
  = if isinstance e "Exception" then
      if is_main p
      then Some (PState (CState p None) true (warnings s)
                        (stderr s ++ [join (NL ++ NL) result'])%list,
                 Raise SystemExit_1)
      else compile_loop H self fuel rest result'
             (PState (CState p None) false
                     (warnings s ++ [warning_text e text])%list (stderr s))
    else Some (PState (CState p None) false (warnings s) (stderr s), Raise e).
Proof.
  intros Ev NoAbort F NoError X result'.
  rewrite (compile_loop_step fuel f rest result s c text F NoError).
  unfold eval. rewrite Ev.
  change (proc (comp (compiled c s))) with (proc c). rewrite X.
  unfold with_process, compiled. cbn [comp error abort warnings stderr].
  rewrite NoError.
  destruct (isinstance e "Exception"); [|now rewrite NoAbort].
  destruct (is_main p).
  - unfold set_abort, print_stderr. cbn [comp abort warnings stderr]. reflexivity.
  - unfold warn. cbn [comp abort warnings stderr]. now rewrite NoAbort.
Qed.

End Pipeline.

(** The two-form sequence [(boom) 2], whose first form fails when executed:
    as [__main__] the pipeline prints the first form with its trace and
    exits with status 1, and [2] is never compiled; as a library it warns and
    goes on to compile [2].  The sequence [(sys..exit) 2], whose first form
    raises [SystemExit] when executed: as a library the pipeline is left by
    that exception, without a warning. *)
Lemma execution_failure_policy_witness :
  compile (Demo.host true) Demo.main 3 [VTuple [VStr "boom"]; VInt 2]
          (init (Demo.start Demo.main_ns 0))
  = Some (PState (CState (Demo.start Demo.main_ns 0) None) true []
                 ["boom()" ++ NL ++ NL ++ commented Demo.boom_trace],
          Raise SystemExit_1)
  /\ compile (Demo.host true) Demo.library 3 [VTuple [VStr "boom"]; VInt 2]
             (init (Demo.start Demo.library_ns 0))
     = Some (PState (CState (Demo.start Demo.library_ns 0) None) false
                    [NL ++ " name 'boom' is not defined when evaluating form:" ++ NL
                     ++ "boom()" ++ NL ++ NL ++ Demo.boom_trace]
                    [],
             Ok ("boom()" ++ NL ++ NL ++ commented Demo.boom_trace
                 ++ NL ++ NL ++ "(2)"))
  /\ compile (Demo.host true) Demo.library 3 [VTuple [VStr "sys..exit"]; VInt 2]
             (init (Demo.start Demo.library_ns 0))
     = Some (PState (CState (Demo.start Demo.library_ns 0) None) false [] [],
             Raise Demo.system_exit).
Proof.
  split; [|split]; unfold compile.
  - refine (eq_trans
              (@execution_failure_policy nat (Demo.host true) Demo.main 3
                 (VTuple [VStr "boom"]) [VInt 2] []
                 (init (Demo.start Demo.main_ns 0))
                 (CState (Demo.start Demo.main_ns 0) None) "boom()"
                 (Demo.start Demo.main_ns 0)
                 (Demo.name_error "name 'boom' is not defined" Demo.boom_trace)
                 _ _ _ _ _) _); vm_compute; reflexivity.
  - refine (eq_trans
              (@execution_failure_policy nat (Demo.host true) Demo.library 3
                 (VTuple [VStr "boom"]) [VInt 2] []
                 (init (Demo.start Demo.library_ns 0))
                 (CState (Demo.start Demo.library_ns 0) None) "boom()"
                 (Demo.start Demo.library_ns 0)
                 (Demo.name_error "name 'boom' is not defined" Demo.boom_trace)
                 _ _ _ _ _) _); vm_compute; reflexivity.
  - refine (eq_trans
              (@execution_failure_policy nat (Demo.host true) Demo.library 3
                 (VTuple [VStr "sys..exit"]) [VInt 2] []
                 (init (Demo.start Demo.library_ns 0))
                 (CState (Demo.start Demo.library_ns 0) None)
                 "__import__('sys').exit()"
                 (Demo.start Demo.library_ns 0) Demo.system_exit
                 _ _ _ _ _) _); vm_compute; reflexivity.
Defined.

(** The two-form sequence [(sys..exit) 2] in a library: executing the first
    form raises [SystemExit], which [eval] does not catch.  No warning is
    issued and [2] is not compiled: [compile] is left by the exception. *)
Lemma uncaught_exit_counterexample :
  ~ failure_policy (Demo.host true) Demo.library 3
      (VTuple [VStr "sys..exit"]) [VInt 2] (init (Demo.start Demo.library_ns 0)).
Proof.
  intros Policy.
  specialize (Policy (CState (Demo.start Demo.library_ns 0) None)
                     "__import__('sys').exit()"
                     (Demo.start Demo.library_ns 0) Demo.system_exit
                     eq_refl eq_refl eq_refl eq_refl eq_refl).
  vm_compute in Policy. discriminate Policy.
Qed.

(* ===================================================================== *)
(** ** The compile context *)
(* ===================================================================== *)

Section CompileContext.

Context {external : Type}.
Variable H : Host external.
Variable self : compiler.

Local Abbreviation C := (M (cstate external)).

Lemma keeps_ret {A} (a : A) : keeps_context (ret a : C A).
Proof. now intros s s' r [= <- <-]. Qed.

Lemma keeps_raise {A} (e : exn) : keeps_context (raise e : C A).
Proof. now intros s s' r [= <- <-]. Qed.

Lemma keeps_lift {A} (x : result A) : keeps_context (lift x : C A).
Proof. now intros s s' r [= <- <-]. Qed.

Lemma keeps_read_host {A} (f : process external -> result A) :
  keeps_context (read_host f).
Proof. now intros s s' r [= <- <-]. Qed.

Lemma keeps_bind {A B} (m : C A) (k : A -> C B) :
  keeps_context m -> (forall a, keeps_context (k a)) -> keeps_context (bind m k).
Proof.
  intros Km Kk s s' r. unfold bind.
  destruct (m s) as [[s1 [a|e]]|] eqn:E; try discriminate.
  - intros K. rewrite (Kk _ _ _ _ K). eauto.
  - intros [= <- <-]. eauto.
Qed.

Lemma keeps_try_except {A} (m : C A) handles (handler : exn -> C A) :
  keeps_context m -> (forall e, keeps_context (handler e)) ->
  keeps_context (try_except m handles handler).
Proof.
  intros Km Kh s s' r. unfold try_except.
  destruct (m s) as [[s1 [a|e]]|] eqn:E; try discriminate.
  - intros [= <- <-]. eauto.
  - destruct (handles e).
    + intros K. rewrite (Kh _ _ _ _ K). eauto.
    + intros [= <- <-]. eauto.
Qed.

Lemma keeps_trace {A} name (inj : string -> A) expr (m : C A) :
  keeps_context m -> keeps_context (_trace H name inj expr m).
Proof.
  intros Km s s' r. unfold _trace.
  destruct (m s) as [[s1 [a|e]]|] eqn:E; try discriminate.
  - intros [= <- <-]. eauto.
  - destruct (isinstance e "Exception"); intros [= <- <-];
      [change (get_NS (set_error (Some e) s1)) with (get_NS s1)|]; eauto.
Qed.

(** The scoped block restores the context whatever its body does to it. *)
Lemma keeps_macro_context {A} (body : C A) : keeps_context (macro_context self body).
Proof.
  intros s s' r. unfold macro_context.
  destruct (body (set_NS (ns_ref self) s)) as [[s1 r1]|]; [|discriminate].
  now intros [= <- <-].
Qed.

Lemma keeps_pickle (v : value) : keeps_context (pickle H v).
Proof.
  apply keeps_trace, keeps_bind.
  - apply keeps_try_except; [apply keeps_lift | intros; apply keeps_lift].
  - intros; apply keeps_ret.
Qed.

Lemma keeps_quoted (v : value) : keeps_context (quoted H v).
Proof.
  apply keeps_trace. unfold quoted_body.
  assert (K : keeps_context
                (accepted <- try_except
                               (parsed <- lift (literal_eval H (literal_text H v)) ;;
                                ret (py_eq H parsed v))
                               (fun e => isinstance e "ValueError"
                                         || isinstance e "SyntaxError")
                               (fun _ => ret false) ;;
                 if accepted : bool then ret (literal_text H v) else pickle H v)).
  { apply keeps_bind.
    - apply keeps_try_except; [|intros; apply keeps_ret].
      apply keeps_bind; [apply keeps_lift | intros; apply keeps_ret].
    - intros [|]; [apply keeps_ret | apply keeps_pickle]. }
  destruct v; try exact K. apply keeps_ret.
Qed.

Lemma keeps_symbol (name : string) : keeps_context (symbol H self name).
Proof.
  apply keeps_trace. unfold symbol_body.
  repeat match goal with
         | |- keeps_context (if ?b then _ else _) => destruct b
         end; try apply keeps_ret.
  apply keeps_bind; [apply keeps_quoted | intros; apply keeps_ret].
Qed.

Lemma keeps_get_macro (head : string) :
  lookup_keeps_context H -> keeps_context (_get_macro H self head).
Proof.
  intros L. unfold _get_macro.
  destruct (Nat.ltb 1 (List.length (RE_MACRO_split head))).
  - apply keeps_try_except.
    + unfold qualified_lookup.
      destruct (String.eqb _ _); [apply keeps_read_host|].
      apply keeps_bind; [apply keeps_symbol|].
      intros text s s' r. unfold run_host.
      pose proof (L text (proc s)) as Lp.
      destruct (py_eval H text (proc s)) as [p x]. simpl in Lp.
      now intros [= <- <-].
    + intros e. destruct (negb _); [apply keeps_raise | apply keeps_ret].
  - apply keeps_try_except; [apply keeps_read_host | intros; apply keeps_ret].
Qed.

(** What a macro-expansion step is: the macro is called, and its expansion
    compiled, in a process where [NS] is the compiler's namespace; on the way
    out [NS] gets the value it had on the way in. *)
Lemma macro_expansion_step (self_form : value -> C string)
      (head : string) (tail : list value) (s s1 : cstate external) (m : value) :
  _get_macro H self head s = Some (s1, Ok m) ->
  m <> VNone ->
  macro_body H self self_form head tail s
  = match (expansion <- run_host (py_call H m tail) ;;
           text <- self_form expansion ;;
           ret (Some text)) (set_NS (ns_ref self) s1) with
    | None => None
    | Some (s2, r) => Some (set_NS (get_NS s1) s2, r)
    end.
Proof.
  intros G NotNone. unfold macro_body. unfold bind at 1. rewrite G.
  destruct m; try reflexivity. congruence.
Qed.

(** C5. A macro-expansion step restores the context variable.  Once the
    macro of a form is resolved, [macro] sets [NS] to the compiler's
    namespace, calls the macro and compiles its expansion, and whatever these
    do (return, raise an [Exception] that the tracer records, raise anything
    else, rebind [NS] themselves) [NS] has afterwards the value it had when
    the step began.  Hence, provided that resolving a qualified macro does
    not itself rebind [NS], it has after [macro] the value it had before,
    also when no macro was found or the lookup failed.  Both hold whatever
    the recursive compilation [self_form] does to the context. *)
Theorem macro_restores_context (self_form : value -> C string)
        (head : string) (tail : list value) (s s' : cstate external)
        (r : result (option string)) :
  macro H self self_form head tail s = Some (s', r) ->
  (forall s1 m,
      _get_macro H self head s = Some (s1, Ok m) -> m <> VNone ->
      get_NS s' = get_NS s1)
  /\ (lookup_keeps_context H -> get_NS s' = get_NS s).
Proof.
  intros Run. split.
  - intros s1 m G NotNone.
    (* the step ends in a state whose context is that of [s1] *)
    unfold macro, _trace in Run.
    rewrite (macro_expansion_step self_form head tail s s1 m G NotNone) in Run.
    destruct ((expansion <- run_host (py_call H m tail) ;;
               text <- self_form expansion ;;
               ret (Some text)) (set_NS (ns_ref self) s1)) as [[s2 [a|e]]|];
      try discriminate.
    + now injection Run as <- <-.
    + destruct (isinstance e "Exception"); now injection Run as <- <-.
  - intros L. revert s s' r Run.
    change (keeps_context (macro H self self_form head tail)).
    apply keeps_trace, keeps_bind.
    + now apply keeps_get_macro.
    + intros m. destruct m; try apply keeps_macro_context. apply keeps_ret.
Qed.

End CompileContext.

Lemma demo_lookup_keeps_context (counting : bool) :
  lookup_keeps_context (Demo.host counting).
Proof.
  intros text p. cbn [py_eval Demo.host]. unfold Demo.py_eval.
  destruct (String.eqb text "__import__('foo')._macro_.bar"); [reflexivity|].
  destruct (String.eqb text "__import__('lib')._macro_.twice"); reflexivity.
Qed.

(** The macro [leak] rebinds [NS] and raises: the error is recorded, and
    [NS] is what it was. *)
Lemma macro_restores_context_witness :
  exists s' text,
    macro (Demo.host true) Demo.readerless (form (Demo.host true) Demo.readerless 3)
          "leak" [] (CState (Demo.start Demo.main_ns 0) None)
    = Some (s', Ok (Some text))
    /\ error s' = Some (Demo.runtime_error "leak")
    /\ get_NS s' = get_NS (CState (Demo.start Demo.main_ns 0) None).
Proof.
  eexists. eexists. split; [vm_compute; reflexivity|].
  split; [reflexivity|].
  refine (proj2 (@macro_restores_context nat (Demo.host true) Demo.readerless
                   (form (Demo.host true) Demo.readerless 3) "leak" []
                   (CState (Demo.start Demo.main_ns 0) None) _ _ _) _).
  - vm_compute. reflexivity.
  - apply demo_lookup_keeps_context.
Defined.

(* ===================================================================== *)
(** ** Determinism of compilation *)
(* ===================================================================== *)

Section Determinism.

Context {external : Type}.
Variable H : Host external.
Variable self : compiler.
Hypothesis Pure : host_reads_namespace_only H.

Local Abbreviation C := (M (cstate external)).

Lemma lockstep_ret {A} (a : A) : lockstep (ret a : C A).
Proof. intros s1 s2 S. simpl. auto. Qed.

Lemma lockstep_raise {A} (e : exn) : lockstep (raise e : C A).
Proof. intros s1 s2 S. simpl. auto. Qed.

Lemma lockstep_lift {A} (x : result A) : lockstep (lift x : C A).
Proof. intros s1 s2 S. simpl. auto. Qed.

Lemma lockstep_exhausted {A} : lockstep ((fun _ => None) : C A).
Proof. intros s1 s2 S. exact I. Qed.

Lemma lockstep_bind {A B} (m : C A) (k : A -> C B) :
  lockstep m -> (forall a, lockstep (k a)) -> lockstep (bind m k).
Proof.
  intros Lm Lk s1 s2 S. unfold bind. specialize (Lm s1 s2 S).
  destruct (m s1) as [[s1' [a1|e1]]|], (m s2) as [[s2' [a2|e2]]|];
    try contradiction; try exact I; try (destruct Lm; discriminate);
    destruct Lm as [S' [= ->]]; auto.
  now apply Lk.
Qed.

Lemma lockstep_try_except {A} (m : C A) handles (handler : exn -> C A) :
  lockstep m -> (forall e, lockstep (handler e)) ->
  lockstep (try_except m handles handler).
Proof.
  intros Lm Lh s1 s2 S. unfold try_except. specialize (Lm s1 s2 S).
  destruct (m s1) as [[s1' [a1|e1]]|], (m s2) as [[s2' [a2|e2]]|];
    try contradiction; try exact I; try (destruct Lm; discriminate);
    destruct Lm as [S' [= ->]]; auto.
  destruct (handles e2); auto. now apply Lh.
Qed.

Lemma lockstep_trace {A} name (inj : string -> A) expr (m : C A) :
  lockstep m -> lockstep (_trace H name inj expr m).
Proof.
  intros Lm s1 s2 S. unfold _trace. specialize (Lm s1 s2 S).
  destruct (m s1) as [[s1' [a1|e1]]|], (m s2) as [[s2' [a2|e2]]|];
    try contradiction; try exact I; try (destruct Lm; discriminate);
    destruct Lm as [S' [= ->]]; auto.
  destruct (isinstance e2 "Exception"); auto.
Qed.

Lemma lockstep_mapM {A B} (f : A -> C B) (l : list A) :
  (forall a, lockstep (f a)) -> lockstep (mapM f l).
Proof.
  intros Lf. induction l as [|a l IH]; cbn [mapM].
  - apply lockstep_ret.
  - apply lockstep_bind; [apply Lf|]. intros b.
    apply lockstep_bind; [apply IH|]. intros bs. apply lockstep_ret.
Qed.

Lemma lockstep_run_host {A} (f : process external -> process external * result A) :
  respects_namespace f -> lockstep (run_host f).
Proof.
  intros R s1 s2 S. unfold run_host. destruct (R _ _ S) as [S' E].
  destruct (f (proc s1)) as [p1 r1], (f (proc s2)) as [p2 r2]. simpl in *.
  split; assumption.
Qed.

Lemma lockstep_read_host {A} (f : process external -> result A) :
  (forall p1 p2, same_process p1 p2 -> f p1 = f p2) -> lockstep (read_host f).
Proof.
  intros R s1 s2 S. unfold read_host. split; [assumption|]. now apply R.
Qed.

Lemma lockstep_macro_context {A} (body : C A) :
  lockstep body -> lockstep (macro_context self body).
Proof.
  intros Lb s1 s2 S. unfold macro_context.
  assert (S0 : same_namespace (set_NS (ns_ref self) s1) (set_NS (ns_ref self) s2)).
  { destruct S as [Sn _]. split; [exact Sn | reflexivity]. }
  specialize (Lb _ _ S0).
  destruct (body (set_NS (ns_ref self) s1)) as [[s1' r1]|],
           (body (set_NS (ns_ref self) s2)) as [[s2' r2]|]; try contradiction; auto.
  destruct Lb as [[Sn _] ->]. destruct S as [_ Sc].
  split; [split; [exact Sn | exact Sc] | reflexivity].
Qed.

(** One step of a lockstep proof: follow the structure of the computation. *)
Ltac lockstep_step :=
  first
    [ assumption
    | match goal with
      | L : forall _, lockstep _ |- _ => apply L
      end
    | apply lockstep_ret
    | apply lockstep_raise
    | apply lockstep_lift
    | apply lockstep_exhausted
    | apply lockstep_trace
    | apply lockstep_macro_context
    | apply lockstep_try_except; [|intros ?]
    | apply lockstep_bind; [|intros ?]
    | apply lockstep_mapM; intros ?
    | match goal with
      | |- lockstep (if ?b then _ else _) => destruct b
      | |- lockstep (match ?x with _ => _ end) => destruct x
      | |- lockstep (let (_, _) := ?x in _) => destruct x
      end ].

Ltac lockstep_auto := repeat lockstep_step.

Lemma lockstep_pickle (v : value) : lockstep (pickle H v).
Proof. unfold pickle, pickle_body. lockstep_auto. Qed.

Lemma lockstep_quoted (v : value) : lockstep (quoted H v).
Proof.
  pose proof (lockstep_pickle v).
  unfold quoted, quoted_body. lockstep_auto.
Qed.

Lemma lockstep_symbol (name : string) : lockstep (symbol H self name).
Proof.
  unfold symbol, symbol_body.
  pose proof (lockstep_quoted (VStr (part (split1 "." (part (split1 ".." name) 1)) 0))).
  lockstep_auto.
Qed.

Lemma lockstep_local_macro (name : string) : lockstep (local_macro H name).
Proof.
  apply lockstep_read_host. intros p1 p2 S.
  destruct Pure as (_ & _ & V & _). destruct S as [Sn Sc]. rewrite Sn.
  destruct (ns_get (p_ns p2) MACROS) as [container|]; [|reflexivity].
  now rewrite (V container p1 p2 (conj Sn Sc)).
Qed.

Lemma lockstep_get_macro (head : string) : lockstep (_get_macro H self head).
Proof.
  destruct Pure as (_ & E & _).
  unfold _get_macro, _qualified_macro, _unqualified_macro, qualified_lookup.
  pose proof lockstep_local_macro. pose proof lockstep_symbol.
  repeat first [ apply lockstep_run_host; apply E
               | match goal with
                 | L : forall n, lockstep (?f H n) |- lockstep (?f H _) => apply L
                 | L : forall n, lockstep (?f H self n) |- lockstep (?f H self _) => apply L
                 end
               | lockstep_step ].
Qed.

Section Recursive.

Variable budget : nat.
Variable self_form : value -> C string.
Hypothesis Rec : forall v, lockstep (self_form v).

Lemma lockstep_call_pairs (items : list value) :
  lockstep (call_pairs self_form items).
Proof.
  enough (G : lockstep (call_pairs self_form items)
              /\ forall a, lockstep (call_pairs self_form (a :: items))) by apply G.
  induction items as [|v items [IH1 IH2]].
  - split; [apply lockstep_ret | intros; apply lockstep_raise].
  - split; [apply IH2|]. intros k. cbn [call_pairs]. lockstep_auto.
Qed.

Lemma lockstep_call (f : list value) : lockstep (call H self_form f).
Proof.
  pose proof lockstep_call_pairs.
  unfold call, call_body, call_args. lockstep_auto.
Qed.

Lemma lockstep_parameter_pair (k v : value) :
  lockstep (parameter_pair H self_form k v).
Proof. unfold parameter_pair. lockstep_auto. Qed.

Lemma lockstep_parameter_pairs (items : list value) :
  lockstep (parameter_pairs H self_form items).
Proof.
  enough (G : lockstep (parameter_pairs H self_form items)
              /\ forall a, lockstep (parameter_pairs H self_form (a :: items)))
    by apply G.
  induction items as [|v items [IH1 IH2]].
  - split; [apply lockstep_ret | intros; apply lockstep_raise].
  - split; [apply IH2|]. intros k. cbn [parameter_pairs].
    apply lockstep_bind; [apply lockstep_parameter_pair|]. intros item. lockstep_auto.
Qed.

(** Drawing from an iterator that reads the process through the namespace
    only goes in lockstep, item by item. *)
Lemma lockstep_next (it : value) : lockstep (run_host (py_next H it)).
Proof. destruct Pure as (_ & _ & _ & _ & N). apply lockstep_run_host, N. Qed.

Lemma lockstep_iterator_singles (n : nat) (it : value) :
  lockstep (iterator_singles H n it).
Proof.
  pose proof lockstep_next.
  induction n as [|n IH]; cbn [iterator_singles]; lockstep_auto.
Qed.

Lemma lockstep_iterator_pairs (n : nat) (it : value) :
  lockstep (iterator_pairs H self_form n it).
Proof.
  pose proof lockstep_next. pose proof (lockstep_parameter_pair).
  induction n as [|n IH]; cbn [iterator_pairs]; [apply lockstep_exhausted|].
  apply lockstep_bind; [apply lockstep_next|]. intros [k|]; [|apply lockstep_ret].
  apply lockstep_bind; [apply lockstep_next|]. intros [v|]; [|apply lockstep_raise].
  apply lockstep_bind; [apply lockstep_parameter_pair|]. intros item. lockstep_auto.
Qed.

Lemma lockstep_parameters (v : value) : lockstep (parameters H budget self_form v).
Proof.
  pose proof lockstep_parameter_pairs.
  unfold parameters. destruct (builtin_items v) as [items|].
  - lockstep_auto.
  - destruct Pure as (_ & _ & _ & I & _).
    apply lockstep_bind; [apply lockstep_run_host, I|]. intros it.
    apply lockstep_bind; [apply lockstep_iterator_singles|]. intros singles.
    apply lockstep_bind; [apply lockstep_iterator_pairs|]. intros pairs.
    apply lockstep_ret.
Qed.

Lemma lockstep_body (forms : list value) : lockstep (body H self_form forms).
Proof. unfold body, body_body. lockstep_auto. Qed.

Lemma lockstep_function (f : list value) : lockstep (function H budget self_form f).
Proof.
  pose proof lockstep_parameters. pose proof lockstep_body.
  unfold function, function_body. lockstep_auto.
Qed.

Lemma lockstep_macro (head : string) (tail : list value) :
  lockstep (macro H self self_form head tail).
Proof.
  destruct Pure as (Call & _ & _).
  unfold macro, macro_body.
  apply lockstep_trace, lockstep_bind; [apply lockstep_get_macro|].
  intros m.
  assert (L : lockstep (macro_context self
                          (expansion <- run_host (py_call H m tail) ;;
                           text <- self_form expansion ;;
                           ret (Some text)))).
  { apply lockstep_macro_context, lockstep_bind;
      [apply lockstep_run_host, Call | intros; lockstep_auto]. }
  destruct m; try exact L. apply lockstep_ret.
Qed.

Lemma lockstep_invocation (head : string) (tail : list value) :
  lockstep (invocation H self self_form head tail).
Proof.
  unfold invocation, invocation_body.
  apply lockstep_trace, lockstep_bind; [apply lockstep_macro|].
  intros result. destruct (truthy result); [apply lockstep_ret | apply lockstep_call].
Qed.

Lemma lockstep_special (head : string) (tail : list value) :
  lockstep (special H self budget self_form head tail).
Proof.
  unfold special, special_body. apply lockstep_trace.
  destruct (String.eqb head "quote").
  - destruct tail; [apply lockstep_raise | apply lockstep_quoted].
  - destruct (String.eqb head "lambda");
      [apply lockstep_function | apply lockstep_invocation].
Qed.

Lemma lockstep_form_step (f : value) : lockstep (form_step H self budget self_form f).
Proof.
  unfold form_step, form_body. apply lockstep_trace.
  assert (Q : lockstep (quoted H f)) by apply lockstep_quoted.
  destruct f; try exact Q.
  - destruct (negb (startswith ":" s)); [apply lockstep_symbol | exact Q].
  - destruct items as [|head tail]; [exact Q|].
    unfold tuple, tuple_body. apply lockstep_trace.
    destruct head; try apply lockstep_call. apply lockstep_special.
Qed.

End Recursive.

(** With a host whose macros, lookups and iterators read the process through
    the namespace and context only, two compilations of a form from states
    with the same namespace go in lockstep. *)
Lemma lockstep_form (fuel : nat) (f : value) : lockstep (form H self fuel f).
Proof.
  revert f; induction fuel as [|fuel IH]; intros f; cbn [form].
  - apply lockstep_exhausted.
  - now apply lockstep_form_step.
Qed.

(** C4, amended. When the macros, the macro lookups and the iterators the
    host provides depend on the process only through the namespace and the
    current context, compiling a form a second time, the namespace and
    context being what they were before the first compilation, gives the same
    result as the first time. *)
Theorem compile_twice_identical (fuel : nat) (f : value) (s : cstate external) :
  recompiles_identically H self fuel f s.
Proof.
  intros s1 r1 s2 r2 First Same Second.
  pose proof (lockstep_form fuel f s s1 Same) as L.
  rewrite First, Second in L. now destruct L.
Qed.

End Determinism.

(** With a [tick] that does not count, the small host reads the process
    through the namespace and the context only. *)
Lemma demo_host_reads_namespace_only : host_reads_namespace_only (Demo.host false).
Proof.
  split; [|split; [|split; [|split]]].
  - intros m args p1 p2 [Sn Sc]. cbn [py_call Demo.host]. unfold Demo.py_call.
    destruct m as [| | | | | | | | | | | |ty id];
      try (split; [split; assumption | reflexivity]).
    do 15 (destruct id as [|id];
           [repeat match goal with
                   | |- context [match ?l with _ => _ end] => destruct l
                   end;
            (split; [split; cbn; assumption || reflexivity | reflexivity])|]).
    split; [split; assumption | reflexivity].
  - intros text p1 p2 S. cbn [py_eval Demo.host]. unfold Demo.py_eval.
    destruct (String.eqb text "__import__('foo')._macro_.bar");
      [split; [exact S | reflexivity]|].
    destruct (String.eqb text "__import__('lib')._macro_.twice");
      split; solve [exact S | reflexivity].
  - reflexivity.
  - intros v p1 p2 S. split; [exact S | reflexivity].
  - intros it p1 p2 S. split; [exact S | reflexivity].
Qed.

(** Compiling [(twice f)] twice gives the same text. *)
Lemma compile_twice_identical_witness :
  host_reads_namespace_only (Demo.host false)
  /\ recompiles_identically (Demo.host false) Demo.readerless 5
       (VTuple [VStr "twice"; VStr "f"]) (CState (Demo.start Demo.main_ns 0) None).
Proof.
  split; [exact demo_host_reads_namespace_only|].
  exact (@compile_twice_identical nat (Demo.host false) Demo.readerless
           demo_host_reads_namespace_only 5 (VTuple [VStr "twice"; VStr "f"])
           (CState (Demo.start Demo.main_ns 0) None)).
Defined.

(** The macro [tick] expands to the next value of a counter that is not in
    the namespace: compiled twice in a row with the namespace untouched,
    [(tick)] gives [(0)] and then [(1)]. *)
Lemma recompile_counterexample :
  ~ recompiles_identically (Demo.host true) Demo.readerless 5
      (VTuple [VStr "tick"]) (CState (Demo.start Demo.main_ns 0) None).
Proof.
  intros Claim.
  specialize (Claim (CState (Demo.start Demo.main_ns 1) None)
                    (Ok ("# tick" ++ NL ++ "(0)"))
                    (CState (Demo.start Demo.main_ns 2) None)
                    (Ok ("# tick" ++ NL ++ "(1)"))
                    eq_refl (conj eq_refl eq_refl) eq_refl).
  discriminate Claim.
Qed.

(** An iterator over [("a", "b")] given as the parameters of a [lambda] is
    used up by the first compilation: compiled twice in a row, with no macro
    involved and the namespace untouched, the form gives [(lambda a,b:())]
    and then [(lambda :())]. *)
Lemma one_shot_iterator_recompiled :
  ~ recompiles_identically Demo.iterating_host Demo.readerless 5
      (VTuple [VStr "lambda"; Demo.an_iterator])
      (CState (Demo.start Demo.main_ns 0) None).
Proof.
  intros Claim.
  specialize (Claim (CState (Demo.start Demo.main_ns 2) None)
                    (Ok "(lambda a,b:())")
                    (CState (Demo.start Demo.main_ns 2) None)
                    (Ok "(lambda :())")
                    eq_refl (conj eq_refl eq_refl) eq_refl).
  discriminate Claim.
Qed.

(* ===================================================================== *)
(** ** Layout of the emitted text *)
(* ===================================================================== *)

Section Layout.

Lemma replace_nl_cons (new : string) (c : ascii) (s : string) :
  replace NL new (String c s)
  = (if Ascii.eqb c (ascii_of_nat 10) then new else String c EmptyString)
    ++ replace NL new s.
Proof.
  unfold replace, NL. cbn [replace_from String.prefix String.length Nat.sub].
  destruct (ascii_dec (ascii_of_nat 10) c) as [<-|NE].
  - rewrite Ascii.eqb_refl. destruct s; reflexivity.
  - destruct (Ascii.eqb_spec c (ascii_of_nat 10)); [congruence | reflexivity].
Qed.

(** Replacing the line feed works character by character, so it goes
    through concatenation. *)
Lemma replace_nl_app (new a b : string) :
  replace NL new (a ++ b) = replace NL new a ++ replace NL new b.
Proof.
  induction a as [|c a IH].
  - reflexivity.
  - change (String c a ++ b) with (String c (a ++ b)).
    now rewrite !replace_nl_cons, IH, append_assoc.
Qed.

Lemma replace_nl_join (new sep : string) (items : list string) :
  replace NL new (join sep items)
  = join (replace NL new sep) (map (replace NL new) items).
Proof.
  unfold join. induction items as [|x [|y items] IH].
  - reflexivity.
  - reflexivity.
  - change (String.concat sep (x :: y :: items))
      with (x ++ sep ++ String.concat sep (y :: items)).
    rewrite !replace_nl_app, IH. reflexivity.
Qed.

Lemma split_lines_nonempty (s : string) : split_lines s <> [].
Proof.
  destruct s as [|c s]; cbn [split_lines]; [discriminate|].
  destruct (Ascii.eqb c (ascii_of_nat 10)); [discriminate|].
  destruct (split_lines s); discriminate.
Qed.

Lemma replace_nl_lines (new s : string) :
  replace NL new s = join new (split_lines s).
Proof.
  induction s as [|c s IH].
  - reflexivity.
  - rewrite replace_nl_cons, IH. cbn [split_lines].
    pose proof (split_lines_nonempty s) as NE. unfold join.
    destruct (split_lines s) as [|line rest]; [congruence|].
    destruct (Ascii.eqb c (ascii_of_nat 10)); [reflexivity|].
    destruct rest; reflexivity.
Qed.

Lemma join_prefixed (prefix : string) (lines : list string) :
  lines <> [] ->
  prefix ++ join (NL ++ prefix) lines = join NL (map (append prefix) lines).
Proof.
  intros NE. unfold join. induction lines as [|x [|y lines] IH]; [congruence| |].
  - reflexivity.
  - change (String.concat (NL ++ prefix) (x :: y :: lines))
      with (x ++ (NL ++ prefix) ++ String.concat (NL ++ prefix) (y :: lines)).
    change (String.concat NL (map (append prefix) (x :: y :: lines)))
      with ((prefix ++ x) ++ NL ++ String.concat NL (map (append prefix) (y :: lines))).
    rewrite <- IH by discriminate. now rewrite !append_assoc.
Qed.

(** X1. The failure trace that [eval] returns after the text of a form is
    the trace with ["# "] put in front of each of its lines: all of it is
    comment. *)
Theorem commented_lines (exc : string) :
  commented exc = join NL (map (append "# ") (split_lines exc)).
Proof.
  unfold commented. rewrite replace_nl_lines.
  apply join_prefixed, split_lines_nonempty.
Qed.

(** X2. [_join_args] puts every argument on a line of its own, indented by
    two spaces, with a comma after each but the last; the lines inside an
    argument are indented by two more spaces.  Without argument it is the
    empty text. *)
Theorem _join_args_layout (args : list string) :
  _join_args args
  = match args with
    | [] => ""
    | _ => NL ++ "  " ++ join ("," ++ NL ++ "  ") (map indent args)
    end.
Proof.
  unfold _join_args, indent. destruct args as [|a args]; [reflexivity|].
  rewrite replace_nl_app, replace_nl_join.
  reflexivity.
Qed.

End Layout.

(* ===================================================================== *)
(** ** Outcomes of the literal encoder *)
(* ===================================================================== *)

Lemma value_is_ellipsis (v : value) : v = VEllipsis \/ v <> VEllipsis.
Proof. destruct v; (now left) || (right; discriminate). Qed.

Section LiteralOutcomes.

Context {external : Type}.
Variable H : Host external.

(** X3. [quoted] always ends, and in one of five ways: the ellipsis token;
    the candidate literal, when the round trip accepts it; the pickle
    expression, when the round trip fails and pickle serializes the value;
    the tracer's diagnostic, with the exception recorded as the error; or
    the propagation of something that is not an [Exception].  Except for the
    recorded error it leaves the state as it was. *)
Theorem quoted_outcomes (v : value) (s : cstate external) :
  (v = VEllipsis /\ quoted H v s = Some (s, Ok "..."))
  \/ (round_trips H v = true /\ quoted H v s = Some (s, Ok (literal_text H v)))
  \/ (exists dumps,
        fails_round_trip H v
        /\ quoted H v s = Some (s, Ok (pickle_text H v (pickletools_optimize H dumps))))
  \/ (exists e name,
        isinstance e "Exception" = true
        /\ (name = "quoted" \/ name = "pickle")
        /\ quoted H v s = Some (set_error (Some e) s, Ok (trace_text H name v e)))
  \/ (exists e, isinstance e "Exception" = false /\ quoted H v s = Some (s, Raise e)).
Proof.
  destruct (value_is_ellipsis v) as [->|NE]; [left; split; reflexivity|].
  right. unfold quoted at 1 2 3 4. unfold _trace.
  rewrite quoted_body_checked by assumption. unfold round_trips.
  assert (P : forall (F : fails_round_trip H v),
             (exists dumps,
                 fails_round_trip H v
                 /\ match pickle H v s with
                    | Some (s', Ok a) => Some (s', Ok a)
                    | Some (s', Raise e) =>
                        if isinstance e "Exception"
                        then Some (set_error (Some e) s',
                                   Ok (id_text (trace_text H "quoted" v e)))
                        else Some (s', Raise e)
                    | None => None
                    end
                    = Some (s, Ok (pickle_text H v (pickletools_optimize H dumps))))
             \/ (exists e name,
                    isinstance e "Exception" = true
                    /\ (name = "quoted" \/ name = "pickle")
                    /\ match pickle H v s with
                       | Some (s', Ok a) => Some (s', Ok a)
                       | Some (s', Raise e) =>
                           if isinstance e "Exception"
                           then Some (set_error (Some e) s',
                                      Ok (id_text (trace_text H "quoted" v e)))
                           else Some (s', Raise e)
                       | None => None
                       end
                       = Some (set_error (Some e) s, Ok (trace_text H name v e)))
             \/ (exists e,
                    isinstance e "Exception" = false
                    /\ match pickle H v s with
                       | Some (s', Ok a) => Some (s', Ok a)
                       | Some (s', Raise e) =>
                           if isinstance e "Exception"
                           then Some (set_error (Some e) s',
                                      Ok (id_text (trace_text H "quoted" v e)))
                           else Some (s', Raise e)
                       | None => None
                       end
                       = Some (s, Raise e))).
  { intros F.
    unfold pickle, _trace, pickle_body, bind, try_except, lift, ret, id_text.
    destruct (pickle_dumps H v 0) as [d|e] eqn:D0.
    - left. exists d. split; [exact F | reflexivity].
    - destruct (isinstance e "PicklingError") eqn:PE.
      + destruct (pickle_dumps H v (HIGHEST_PROTOCOL H)) as [d|e'] eqn:D1.
        * left. exists d. split; [exact F | reflexivity].
        * destruct (isinstance e' "Exception") eqn:X.
          -- right; left. exists e', "pickle". repeat split; auto.
          -- right; right. exists e'. rewrite X. split; auto.
      + destruct (isinstance e "Exception") eqn:X.
        * right; left. exists e, "pickle". repeat split; auto.
        * right; right. exists e. rewrite X. split; auto. }
  destruct (literal_eval H (literal_text H v)) as [parsed|e] eqn:L.
  - destruct (py_eq H parsed v) eqn:E.
    + left. split; reflexivity.
    + right. apply P. split; [exact NE|]. now rewrite L.
  - destruct (isinstance e "ValueError" || isinstance e "SyntaxError") eqn:Sup.
    + right. apply P. split; [exact NE|]. now rewrite L.
    + right; right. destruct (isinstance e "Exception") eqn:X.
      * left. exists e, "quoted". repeat split; auto.
      * right. exists e. split; auto.
Qed.

(** X4. A number whose parenthesized [repr] passes the round trip is encoded
    as that text: a number literal is never emitted bare. *)
Theorem quoted_number_is_parenthesized (v : value) (s : cstate external) :
  type_of v = TInt \/ type_of v = TFloat \/ type_of v = TComplex ->
  round_trips H v = true ->
  quoted H v s = Some (s, Ok ("(" ++ repr H v ++ ")")).
Proof.
  intros Number RT.
  assert (NE : v <> VEllipsis) by (intros ->; destruct Number as [?|[?|?]]; discriminate).
  assert (L : literal_text H v = "(" ++ repr H v ++ ")").
  { unfold literal_text. destruct Number as [->|[->| ->]]; reflexivity. }
  unfold quoted. apply _trace_ok. rewrite quoted_body_checked by assumption.
  unfold round_trips in RT. rewrite <- L.
  destruct (literal_eval H (literal_text H v)); [now rewrite RT | discriminate].
Qed.

End LiteralOutcomes.

Lemma quoted_number_is_parenthesized_witness :
  quoted (Demo.host true) (VInt 42) (CState (Demo.start Demo.main_ns 0) None)
  = Some (CState (Demo.start Demo.main_ns 0) None, Ok "(42)").
Proof.
  exact (quoted_number_is_parenthesized (Demo.host true) (VInt 42)
           (CState (Demo.start Demo.main_ns 0) None) (or_introl eq_refl) eq_refl).
Defined.

(* ===================================================================== *)
(** ** Macro lookup and expansion *)
(* ===================================================================== *)

Section MacroEngine.

Context {external : Type}.
Variable H : Host external.
Variable self : compiler.
Variable self_form : value -> M (cstate external) string.

Lemma local_macro_reads (name : string) (s : cstate external) :
  exists r, local_macro H name s = Some (s, r).
Proof. eexists. reflexivity. Qed.

(** X5. Looking up a head without macro marker changes nothing and never
    fails for a missing container or a missing name: both mean "no macro".
    Looking up a head qualified with the compiling unit's own name changes
    nothing either: it reads the local container and evaluates nothing. *)
Theorem local_lookup (head : string) (s : cstate external) :
  (find_alt MACRO AUTO head = None ->
   exists r,
     _get_macro H self head s = Some (s, r)
     /\ (forall e, r = Raise e -> isinstance e "KeyError" = false)
     /\ (ns_get (p_ns (proc s)) MACROS = None -> r = Ok VNone))
  /\ (forall marker name,
         find_alt MACRO AUTO head = Some (qualname self, marker, name) ->
         exists r, _get_macro H self head s = Some (s, r)).
Proof.
  split.
  - intros Plain. unfold _get_macro, RE_MACRO_split. rewrite Plain.
    cbn [List.length Nat.ltb Nat.leb]. unfold _unqualified_macro, try_except.
    destruct (local_macro_reads (replace1 AUTO MACRO head) s) as [r L]. rewrite L.
    destruct r as [m|e].
    + exists (Ok m). split; [reflexivity | split].
      * discriminate.
      * intros NoContainer. unfold local_macro, read_host in L.
        rewrite NoContainer in L. discriminate.
    + destruct (isinstance e "KeyError") eqn:K.
      * exists (Ok VNone). split; [reflexivity | split]; [discriminate | reflexivity].
      * exists (Raise e). split; [reflexivity | split].
        -- now intros e' [= <-].
        -- intros NoContainer. unfold local_macro, read_host in L.
           rewrite NoContainer in L. injection L as <-.
           discriminate K.
  - intros marker name Own. unfold _get_macro, RE_MACRO_split. rewrite Own.
    cbn [List.length Nat.ltb Nat.leb].
    unfold _qualified_macro, qualified_lookup, try_except, part. cbn [nth].
    rewrite String.eqb_refl.
    destruct (local_macro_reads name s) as [r L]. rewrite L.
    destruct r as [m|e]; [eexists; reflexivity|].
    destruct (isinstance e "KeyError" || isinstance e "AttributeError");
      [|eexists; reflexivity].
    destruct (negb (String.eqb marker AUTO)); eexists; reflexivity.
Qed.

(** X6. When the head of a form names a macro, the macro is called on the
    tail with [NS] set to the compiler's namespace, its expansion is compiled
    in that context, and [NS] is restored.  If the text of the expansion is
    not empty, the form compiles to that text under a comment line that names
    the macro.  If it is empty (the macro expanded to the empty symbol), the
    result of [macro] is false and the form is compiled as a call, in the
    state the expansion left, as when no macro is found. *)
Theorem invocation_expands (head : string) (tail : list value)
        (s s1 s2 : cstate external) (m expansion : value)
        (p : process external) (text : string) :
  _get_macro H self head s = Some (s1, Ok m) ->
  m <> VNone ->
  py_call H m tail (proc (set_NS (ns_ref self) s1)) = (p, Ok expansion) ->
  self_form expansion (CState p (error s1)) = Some (s2, Ok text) ->
  invocation H self self_form head tail s
  = if String.eqb text ""
    then call H self_form (VStr (replace1 AUTO ".." head) :: tail)
              (set_NS (get_NS s1) s2)
    else Some (set_NS (get_NS s1) s2, Ok ("# " ++ head ++ NL ++ text)).
Proof.
  intros G NotNone Call Compiled.
  assert (Mb : macro_body H self self_form head tail s
               = Some (set_NS (get_NS s1) s2, Ok (Some text))).
  { rewrite (macro_expansion_step H self self_form head tail s s1 m G NotNone).
    unfold bind, run_host. rewrite Call.
    change (error (set_NS (ns_ref self) s1)) with (error s1).
    rewrite Compiled. reflexivity. }
  assert (Mc : macro H self self_form head tail s
               = Some (set_NS (get_NS s1) s2, Ok (Some text)))
    by (unfold macro; apply _trace_ok; exact Mb).
  destruct text as [|c text].
  - exact (invocation_no_macro H self self_form head tail s _ (Some "") Mc eq_refl).
  - unfold invocation. apply _trace_ok. unfold invocation_body, bind.
    rewrite Mc. reflexivity.
Qed.

(** X7. When the macro itself raises an exception, the tracer of [macro]
    records it, the form compiles to the diagnostic under the comment line
    that names the macro, and [NS] is restored. *)
Theorem invocation_macro_raises (head : string) (tail : list value)
        (s s1 : cstate external) (m : value) (p : process external) (e : exn) :
  _get_macro H self head s = Some (s1, Ok m) ->
  m <> VNone ->
  py_call H m tail (proc (set_NS (ns_ref self) s1)) = (p, Raise e) ->
  isinstance e "Exception" = true ->
  invocation H self self_form head tail s
  = Some (set_error (Some e) (set_NS (get_NS s1) (CState p (error s1))),
          Ok ("# " ++ head ++ NL
              ++ trace_text H "macro" (VTuple (VStr head :: tail)) e)).
Proof.
  intros G NotNone Call X.
  assert (Mb : macro_body H self self_form head tail s
               = Some (set_NS (get_NS s1) (CState p (error s1)), Raise e)).
  { rewrite (macro_expansion_step H self self_form head tail s s1 m G NotNone).
    unfold bind, run_host. rewrite Call. reflexivity. }
  unfold invocation. apply _trace_ok. unfold invocation_body, bind.
  unfold macro. rewrite (_trace_exception H _ _ _ _ _ _ _ Mb X).
  reflexivity.
Qed.

(** X8. What is neither a non-empty tuple nor a symbol is encoded as a
    literal: numbers, the empty tuple, collections, and control words (the
    strings that start with a colon) all go to [quoted]. *)
Theorem form_self_evaluating (fuel : nat) (v : value) (s : cstate external) :
  self_evaluating v = true ->
  form H self (S fuel) v s = quoted H v s.
Proof.
  intros A. cbn [form]. unfold form_step.
  rewrite _trace_of_traced.
  - unfold form_body. destruct v; try reflexivity.
    + cbn [self_evaluating] in A. now rewrite A.
    + destruct items; [reflexivity | discriminate A].
  - unfold form_body. destruct v; try apply _trace_traced.
    + destruct (negb (startswith ":" s0)); apply _trace_traced.
    + destruct items; apply _trace_traced.
Qed.

End MacroEngine.

Lemma local_lookup_witness :
  exists r,
    _get_macro (Demo.host true) Demo.readerless "print"
               (CState (Demo.start [("__name__", VStr "__main__")] 0) None)
    = Some (CState (Demo.start [("__name__", VStr "__main__")] 0) None, r)
    /\ (forall e, r = Raise e -> isinstance e "KeyError" = false)
    /\ (ns_get [("__name__", VStr "__main__")] MACROS = None -> r = Ok VNone).
Proof.
  exact (proj1 (local_lookup (Demo.host true) Demo.readerless "print"
                  (CState (Demo.start [("__name__", VStr "__main__")] 0) None))
               eq_refl).
Defined.

(** [(lib.._macro_.twice f)] expands to [(f f)]; [(blank)] expands to the
    empty symbol, and is compiled as the call of [blank]. *)
Lemma invocation_expands_witness :
  invocation (Demo.host true) Demo.readerless (form (Demo.host true) Demo.readerless 3)
             "lib.._macro_.twice" [VStr "f"] (CState (Demo.start Demo.main_ns 0) None)
  = Some (CState (Demo.start Demo.main_ns 0) None,
          Ok ("# lib.._macro_.twice" ++ NL ++ "f(" ++ NL ++ "  f)"))
  /\ invocation (Demo.host true) Demo.readerless (form (Demo.host true) Demo.readerless 3)
                "blank" [] (CState (Demo.start Demo.main_ns 0) None)
     = Some (CState (Demo.start Demo.main_ns 0) None, Ok "blank()").
Proof.
  split.
  - refine (eq_trans
              (invocation_expands (Demo.host true) Demo.readerless
                 (form (Demo.host true) Demo.readerless 3)
                 "lib.._macro_.twice" [VStr "f"]
                 (CState (Demo.start Demo.main_ns 0) None)
                 (CState (Demo.start Demo.main_ns 0) None)
                 (CState (Process Demo.main_ns 0 Demo.the_ns) None)
                 Demo.twice (VTuple [VStr "f"; VStr "f"])
                 (Process Demo.main_ns 0 Demo.the_ns)
                 ("f(" ++ NL ++ "  f)") _ _ _ _) _);
      try discriminate; vm_compute; reflexivity.
  - refine (eq_trans
              (invocation_expands (Demo.host true) Demo.readerless
                 (form (Demo.host true) Demo.readerless 3)
                 "blank" []
                 (CState (Demo.start Demo.main_ns 0) None)
                 (CState (Demo.start Demo.main_ns 0) None)
                 (CState (Process Demo.main_ns 0 Demo.the_ns) None)
                 Demo.blank (VStr "")
                 (Process Demo.main_ns 0 Demo.the_ns)
                 "" _ _ _ _) _);
      try discriminate; vm_compute; reflexivity.
Defined.

(** [(leak)]: the macro raises. *)
Lemma invocation_macro_raises_witness :
  invocation (Demo.host true) Demo.readerless (form (Demo.host true) Demo.readerless 3)
             "leak" [] (CState (Demo.start Demo.main_ns 0) None)
  = Some (CState (Demo.start Demo.main_ns 0) (Some (Demo.runtime_error "leak")),
          Ok ("# leak" ++ NL
              ++ trace_text (Demo.host true) "macro" (VTuple [VStr "leak"])
                            (Demo.runtime_error "leak"))).
Proof.
  refine (eq_trans
            (invocation_macro_raises (Demo.host true) Demo.readerless
               (form (Demo.host true) Demo.readerless 3) "leak" []
               (CState (Demo.start Demo.main_ns 0) None)
               (CState (Demo.start Demo.main_ns 0) None)
               Demo.leak (Process Demo.main_ns 0 Demo.other_ns)
               (Demo.runtime_error "leak") _ _ _ _) _);
    try discriminate; vm_compute; reflexivity.
Defined.

(** The control word [:] is a literal. *)
Lemma form_self_evaluating_witness :
  form (Demo.host true) Demo.readerless 1 (VStr ":")
       (CState (Demo.start Demo.main_ns 0) None)
  = Some (CState (Demo.start Demo.main_ns 0) None, Ok "':'").
Proof.
  refine (eq_trans
            (form_self_evaluating (Demo.host true) Demo.readerless 0 (VStr ":")
               (CState (Demo.start Demo.main_ns 0) None) _) _);
    vm_compute; reflexivity.
Defined.

(* ===================================================================== *)
(** ** Pairs, separators and method calls *)
(* ===================================================================== *)

Section Pairs.

Context {external : Type}.
Variable H : Host external.
Variable budget : nat.
Variable self_form : value -> M (cstate external) string.

(** The pairs of a call are rendered one text per pair: [call_pairs] gives
    texts only for an even number of items. *)
Lemma call_pairs_even (items : list value) (s s' : cstate external)
      (texts : list string) :
  call_pairs self_form items s = Some (s', Ok texts) ->
  List.length items = 2 * List.length texts.
Proof.
  enough (G : (forall s s' texts,
                  call_pairs self_form items s = Some (s', Ok texts) ->
                  List.length items = 2 * List.length texts)
              /\ (forall k s s' texts,
                     call_pairs self_form (k :: items) s = Some (s', Ok texts) ->
                     List.length (k :: items) = 2 * List.length texts))
    by (apply G).
  clear s s' texts. induction items as [|v items [IH1 IH2]].
  - split.
    + intros s s' texts [= _ <-]. reflexivity.
    + intros k s s' texts. cbn [call_pairs]. discriminate.
  - split; [exact (IH2 v)|].
    intros k s s' texts. cbn [call_pairs]. unfold bind, lift, ret.
    destruct (pair_word k) as [word|e]; [|discriminate].
    destruct (self_form v s) as [[s1 [text|e]]|]; try discriminate.
    destruct (call_pairs self_form items s1) as [[s2 [more|e]]|] eqn:E; try discriminate.
    intros [= _ <-]. cbn [List.length]. rewrite (IH1 _ _ _ E). lia.
Qed.

Lemma parameter_pairs_even (items : list value) (s s' : cstate external)
      (out : list value) :
  parameter_pairs H self_form items s = Some (s', Ok out) ->
  List.length items = 2 * List.length out.
Proof.
  enough (G : (forall s s' out,
                  parameter_pairs H self_form items s = Some (s', Ok out) ->
                  List.length items = 2 * List.length out)
              /\ (forall k s s' out,
                     parameter_pairs H self_form (k :: items) s = Some (s', Ok out) ->
                     List.length (k :: items) = 2 * List.length out))
    by (apply G).
  clear s s' out. induction items as [|v items [IH1 IH2]].
  - split.
    + intros s s' out [= _ <-]. reflexivity.
    + intros k s s' out. cbn [parameter_pairs]. discriminate.
  - split; [exact (IH2 v)|].
    intros k s s' out. cbn [parameter_pairs]. unfold bind at 1.
    match goal with
    | |- context [match ?item s with _ => _ end] =>
        destruct (item s) as [[s1 [x|e]]|]; try discriminate
    end.
    unfold bind, ret.
    destruct (parameter_pairs H self_form items s1) as [[s2 [more|e]]|] eqn:E;
      try discriminate.
    intros [= _ <-]. cbn [List.length]. rewrite (IH1 _ _ _ E). lia.
Qed.

(** X9. A call whose paired segment has an odd number of items never
    compiles cleanly: whatever text [call] returns for it is the tracer's
    diagnostic, and an error is recorded. *)
Theorem call_incomplete_pair (head : value) (single paired : list value)
        (s s' : cstate external) (text : string) :
  Forall (fun a => is_word ":" a = false) single ->
  Nat.odd (List.length paired) = true ->
  call H self_form (head :: single ++ VStr ":" :: paired) s = Some (s', Ok text) ->
  exists e,
    error s' = Some e
    /\ text = trace_text H "call" (VTuple (head :: single ++ VStr ":" :: paired)) e.
Proof.
  intros NoColon Odd Run.
  assert (Args : forall s0 s1 texts,
             call_args self_form (single ++ VStr ":" :: paired) s0
             <> Some (s1, Ok texts)).
  { intros s0 s1 texts. unfold call_args. rewrite split_colon_app by assumption.
    unfold bind, ret.
    destruct (mapM self_form single s0) as [[s2 [positional|e]]|]; try discriminate.
    destruct (call_pairs self_form paired s2) as [[s3 [keywords|e]]|] eqn:E;
      try discriminate.
    apply call_pairs_even in E. rewrite E in Odd.
    rewrite Nat.odd_mul in Odd. discriminate Odd. }
  assert (Body : forall s1 t,
             call_body self_form (head :: single ++ VStr ":" :: paired) s
             <> Some (s1, Ok t)).
  { intros s1 t. unfold call_body.
    assert (Plain : (callee <- self_form head ;;
                     args <- call_args self_form (single ++ VStr ":" :: paired) ;;
                     ret (callee ++ "(" ++ _join_args args ++ ")")) s
                    <> Some (s1, Ok t)).
    { unfold bind, ret.
      destruct (self_form head s) as [[s2 [callee|e]]|]; try discriminate.
      destruct (call_args self_form (single ++ VStr ":" :: paired) s2)
        as [[s3 [args|e]]|] eqn:E; try discriminate.
      now apply Args in E. }
    destruct head; try exact Plain.
    destruct (startswith "." s0); [|exact Plain].
    unfold bind.
    destruct (call_args self_form (single ++ VStr ":" :: paired) s)
      as [[s3 [args|e]]|] eqn:E; try discriminate.
    now apply Args in E. }
  unfold call, _trace in Run.
  destruct (call_body self_form (head :: single ++ VStr ":" :: paired) s)
    as [[s1 [t|e]]|]; try discriminate.
  - exfalso. exact (Body s1 t eq_refl).
  - destruct (isinstance e "Exception"); [|discriminate].
    injection Run as <- <-. exists e. split; reflexivity.
Qed.

(** X10. The separator [:] is optional when nothing follows it: the
    arguments of a call, and the parameters of a [lambda], compile the same
    with and without a final [:]. *)
Theorem separator_optional (single : list value) (s : cstate external) :
  Forall (fun a => is_word ":" a = false) single ->
  call_args self_form (single ++ [VStr ":"]) s = call_args self_form single s
  /\ parameters H budget self_form (VTuple (single ++ [VStr ":"])) s
     = parameters H budget self_form (VTuple single) s.
Proof.
  intros NoColon.
  assert (With : split_colon (single ++ [VStr ":"]) = (single, []))
    by now apply split_colon_app.
  assert (Without : split_colon single = (single, [])).
  { clear With. induction NoColon as [|a single Ha _ IH]; cbn [split_colon].
    - reflexivity.
    - now rewrite Ha, IH. }
  split.
  - unfold call_args. now rewrite With, Without.
  - assert (U : forall items,
               parameters H budget self_form (VTuple items) s
               = (let (single0, paired) := split_colon items in
                  singles <- mapM (fun a => lift (single_parameter H a)) single0 ;;
                  pairs <- parameter_pairs H self_form paired ;;
                  ret (singles ++ pairs)%list) s).
    { intros items. reflexivity. }
    now rewrite !U, With, Without.
Qed.

(** X11. A call whose head starts with a dot is a method call: the first
    compiled argument (the first rendered pair, if there is no positional
    argument) is the receiver and the others are the arguments.  Without
    any argument there is no receiver, and [StopIteration] is recorded. *)
Theorem method_call (name : string) (single : list value)
        (pairs : list (value * value)) (s s1 s2 : cstate external)
        (positional keywords : list string) :
  startswith "." name = true ->
  Forall (fun a => is_word ":" a = false) single ->
  mapM self_form single s = Some (s1, Ok positional) ->
  mapM (render_pair self_form) pairs s1 = Some (s2, Ok keywords) ->
  call H self_form (VStr name :: single ++ VStr ":" :: flat_pairs pairs) s
  = match (positional ++ keywords)%list with
    | [] =>
        Some (set_error (Some StopIteration) s2,
              Ok (trace_text H "call"
                             (VTuple (VStr name :: single ++ VStr ":" :: flat_pairs pairs))
                             StopIteration))
    | receiver :: args =>
        Some (s2, Ok (receiver ++ "." ++ drop 1 name ++ "(" ++ _join_args args ++ ")"))
    end.
Proof.
  intros Dot NoColon Positional Keywords.
  assert (Args : call_args self_form (single ++ VStr ":" :: flat_pairs pairs) s
                 = Some (s2, Ok (positional ++ keywords)%list)).
  { rewrite call_args_split by assumption.
    unfold bind. rewrite Positional, Keywords. reflexivity. }
  unfold call, _trace, call_body. rewrite Dot. unfold bind. rewrite Args.
  destruct (positional ++ keywords)%list; reflexivity.
Qed.

End Pairs.

(** [(print 1 : sep)]: the value of [sep] is missing. *)
Lemma call_incomplete_pair_witness :
  exists e,
    error (CState (Demo.start Demo.main_ns 0)
                  (Some (CompileError "Incomplete pair." None))) = Some e
    /\ trace_text (Demo.host true) "call"
                  (VTuple [VStr "print"; VInt 1; VStr ":"; VStr "sep"])
                  (CompileError "Incomplete pair." None)
       = trace_text (Demo.host true) "call"
                    (VTuple ([VStr "print"] ++ [VInt 1] ++ VStr ":" :: [VStr "sep"])) e.
Proof.
  refine (call_incomplete_pair (Demo.host true) (form (Demo.host true) Demo.readerless 3)
            (VStr "print") [VInt 1] [VStr "sep"]
            (CState (Demo.start Demo.main_ns 0) None) _ _ _ _ _).
  - repeat constructor.
  - reflexivity.
  - vm_compute. reflexivity.
Defined.

Lemma separator_optional_witness :
  call_args (form (Demo.host true) Demo.readerless 3) [VStr "bar"; VStr ":"]
            (CState (Demo.start Demo.main_ns 0) None)
  = call_args (form (Demo.host true) Demo.readerless 3) [VStr "bar"]
              (CState (Demo.start Demo.main_ns 0) None).
Proof.
  refine (proj1 (separator_optional (Demo.host true) 3
                   (form (Demo.host true) Demo.readerless 3) [VStr "bar"]
                   (CState (Demo.start Demo.main_ns 0) None) _)).
  repeat constructor.
Defined.

(** [(.conjugate 1 :)] is [(1).conjugate()]. *)
Lemma method_call_witness :
  call (Demo.host true) (form (Demo.host true) Demo.readerless 3)
       [VStr ".conjugate"; VInt 1; VStr ":"] (CState (Demo.start Demo.main_ns 0) None)
  = Some (CState (Demo.start Demo.main_ns 0) None, Ok "(1).conjugate()").
Proof.
  refine (eq_trans
            (method_call (Demo.host true) (form (Demo.host true) Demo.readerless 3)
               ".conjugate" [VInt 1] []
               (CState (Demo.start Demo.main_ns 0) None)
               (CState (Demo.start Demo.main_ns 0) None)
               (CState (Demo.start Demo.main_ns 0) None)
               ["(1)"] [] _ _ _ _) _);
    try (repeat constructor; fail); vm_compute; reflexivity.
Defined.

(* ===================================================================== *)
(** ** The recorded error and the pipeline without evaluation *)
(* ===================================================================== *)

Section RecordedError.

Context {external : Type}.
Variable H : Host external.
Variable self : compiler.

Local Abbreviation C := (M (cstate external)).

Lemma keeps_error_ret {A} (a : A) : keeps_error (ret a : C A).
Proof. now intros s s' r [= <- <-]. Qed.

Lemma keeps_error_raise {A} (e : exn) : keeps_error (raise e : C A).
Proof. now intros s s' r [= <- <-]. Qed.

Lemma keeps_error_lift {A} (x : result A) : keeps_error (lift x : C A).
Proof. now intros s s' r [= <- <-]. Qed.

Lemma keeps_error_exhausted {A} : keeps_error ((fun _ => None) : C A).
Proof. intros s s' r. discriminate. Qed.

Lemma keeps_error_read_host {A} (f : process external -> result A) :
  keeps_error (read_host f).
Proof. now intros s s' r [= <- <-]. Qed.

Lemma keeps_error_run_host {A} (f : process external -> process external * result A) :
  keeps_error (run_host f).
Proof.
  intros s s' r. unfold run_host. destruct (f (proc s)) as [p x].
  now intros [= <- <-].
Qed.

Lemma keeps_error_bind {A B} (m : C A) (k : A -> C B) :
  keeps_error m -> (forall a, keeps_error (k a)) -> keeps_error (bind m k).
Proof.
  intros Km Kk s s' r. unfold bind.
  destruct (m s) as [[s1 [a|e]]|] eqn:E; try discriminate.
  - intros K Was. exact (Kk _ _ _ _ K (Km _ _ _ E Was)).
  - intros [= <- <-]. eauto.
Qed.

Lemma keeps_error_try_except {A} (m : C A) handles (handler : exn -> C A) :
  keeps_error m -> (forall e, keeps_error (handler e)) ->
  keeps_error (try_except m handles handler).
Proof.
  intros Km Kh s s' r. unfold try_except.
  destruct (m s) as [[s1 [a|e]]|] eqn:E; try discriminate.
  - intros [= <- <-]. eauto.
  - destruct (handles e).
    + intros K Was. exact (Kh _ _ _ _ K (Km _ _ _ E Was)).
    + intros [= <- <-]. eauto.
Qed.

Lemma keeps_error_trace {A} name (inj : string -> A) expr (m : C A) :
  keeps_error m -> keeps_error (_trace H name inj expr m).
Proof.
  intros Km s s' r. unfold _trace.
  destruct (m s) as [[s1 [a|e]]|] eqn:E; try discriminate.
  - intros [= <- <-]. eauto.
  - destruct (isinstance e "Exception"); intros [= <- <-]; [discriminate | eauto].
Qed.

Lemma keeps_error_macro_context {A} (body : C A) :
  keeps_error body -> keeps_error (macro_context self body).
Proof.
  intros Kb s s' r. unfold macro_context.
  destruct (body (set_NS (ns_ref self) s)) as [[s1 r1]|] eqn:E; [|discriminate].
  intros [= <- <-] Was. exact (Kb _ _ _ E Was).
Qed.

Lemma keeps_error_mapM {A B} (f : A -> C B) (l : list A) :
  (forall a, keeps_error (f a)) -> keeps_error (mapM f l).
Proof.
  intros Kf. induction l as [|a l IH]; cbn [mapM].
  - apply keeps_error_ret.
  - apply keeps_error_bind; [apply Kf|]. intros b.
    apply keeps_error_bind; [apply IH|]. intros bs. apply keeps_error_ret.
Qed.

Ltac keeps_error_step :=
  first
    [ assumption
    | match goal with
      | L : forall _, keeps_error _ |- _ => apply L
      | L : forall _ _, keeps_error _ |- _ => apply L
      end
    | apply keeps_error_ret
    | apply keeps_error_raise
    | apply keeps_error_lift
    | apply keeps_error_exhausted
    | apply keeps_error_read_host
    | apply keeps_error_run_host
    | apply keeps_error_trace
    | apply keeps_error_macro_context
    | apply keeps_error_try_except; [|intros ?]
    | apply keeps_error_bind; [|intros ?]
    | apply keeps_error_mapM; intros ?
    | match goal with
      | |- keeps_error (if ?b then _ else _) => destruct b
      | |- keeps_error (match ?x with _ => _ end) => destruct x
      | |- keeps_error (let (_, _) := ?x in _) => destruct x
      end ].

Ltac keeps_error_auto := repeat keeps_error_step.

Lemma keeps_error_quoted (v : value) : keeps_error (quoted H v).
Proof. unfold quoted, quoted_body, pickle, pickle_body. keeps_error_auto. Qed.

Lemma keeps_error_symbol (name : string) : keeps_error (symbol H self name).
Proof.
  pose proof keeps_error_quoted. unfold symbol, symbol_body. keeps_error_auto.
Qed.

Lemma keeps_error_get_macro (head : string) : keeps_error (_get_macro H self head).
Proof.
  pose proof keeps_error_symbol.
  unfold _get_macro, _qualified_macro, _unqualified_macro, qualified_lookup, local_macro.
  keeps_error_auto.
Qed.

Section Recursive.

Variable budget : nat.
Variable self_form : value -> C string.
Hypothesis Rec : forall v, keeps_error (self_form v).

Lemma keeps_error_call_pairs (items : list value) :
  keeps_error (call_pairs self_form items).
Proof.
  enough (G : keeps_error (call_pairs self_form items)
              /\ forall a, keeps_error (call_pairs self_form (a :: items))) by apply G.
  induction items as [|v items [IH1 IH2]].
  - split; [apply keeps_error_ret | intros; apply keeps_error_raise].
  - split; [apply IH2|]. intros k. cbn [call_pairs]. keeps_error_auto.
Qed.

Lemma keeps_error_call (f : list value) : keeps_error (call H self_form f).
Proof.
  pose proof keeps_error_call_pairs.
  unfold call, call_body, call_args. keeps_error_auto.
Qed.

Lemma keeps_error_parameter_pairs (items : list value) :
  keeps_error (parameter_pairs H self_form items).
Proof.
  enough (G : keeps_error (parameter_pairs H self_form items)
              /\ forall a, keeps_error (parameter_pairs H self_form (a :: items)))
    by apply G.
  induction items as [|v items [IH1 IH2]].
  - split; [apply keeps_error_ret | intros; apply keeps_error_raise].
  - split; [apply IH2|]. intros k. cbn [parameter_pairs]. unfold parameter_pair.
    keeps_error_auto.
Qed.

Lemma keeps_error_iterator_singles (n : nat) (it : value) :
  keeps_error (iterator_singles H n it).
Proof. induction n as [|n IH]; cbn [iterator_singles]; keeps_error_auto. Qed.

Lemma keeps_error_iterator_pairs (n : nat) (it : value) :
  keeps_error (iterator_pairs H self_form n it).
Proof.
  induction n as [|n IH]; cbn [iterator_pairs]; unfold parameter_pair;
    keeps_error_auto.
Qed.

Lemma keeps_error_function (f : list value) : keeps_error (function H budget self_form f).
Proof.
  pose proof keeps_error_parameter_pairs.
  pose proof keeps_error_iterator_singles. pose proof keeps_error_iterator_pairs.
  unfold function, function_body, parameters, body, body_body. keeps_error_auto.
Qed.

Lemma keeps_error_macro (head : string) (tail : list value) :
  keeps_error (macro H self self_form head tail).
Proof.
  pose proof keeps_error_get_macro.
  unfold macro, macro_body. keeps_error_auto.
Qed.

Lemma keeps_error_form_step (f : value) : keeps_error (form_step H self budget self_form f).
Proof.
  pose proof keeps_error_quoted. pose proof keeps_error_symbol.
  pose proof keeps_error_call. pose proof keeps_error_function.
  pose proof keeps_error_macro.
  unfold form_step, form_body, tuple, tuple_body, special, special_body,
    invocation, invocation_body.
  keeps_error_auto.
Qed.

End Recursive.

Lemma keeps_error_form (fuel : nat) (f : value) : keeps_error (form H self fuel f).
Proof.
  revert f. induction fuel as [|fuel IH]; intros f; cbn [form].
  - apply keeps_error_exhausted.
  - apply keeps_error_form_step. exact IH.
Qed.

(** X12. No method that compiles a form clears a recorded error: once
    [self.error] is set during the compilation of a form it is still set
    when [form] returns, so that [compile] sees it. *)
Theorem form_keeps_error (fuel : nat) (f : value) (s s' : cstate external)
        (r : result string) :
  form H self fuel f s = Some (s', r) ->
  error s <> None ->
  error s' <> None.
Proof. apply keeps_error_form. Qed.

Lemma mapM_form_keeps_error (fuel : nat) (forms : list value) :
  keeps_error (mapM (form H self fuel) forms).
Proof. apply keeps_error_mapM. intros f. apply keeps_error_form. Qed.

(** The loop of [compile] over forms that compile without error, when
    nothing is evaluated. *)
Lemma compile_loop_prefix (fuel : nat) (good more : list value)
      (result texts : list string) (s : pstate external) (c : cstate external) :
  evaluate self = false ->
  abort s = false ->
  mapM (form H self fuel) good (comp s) = Some (c, Ok texts) ->
  error c = None ->
  compile_loop H self fuel (good ++ more) result s
  = compile_loop H self fuel more (result ++ texts) (compiled c s).
Proof.
  intros Ev. revert result texts s c.
  induction good as [|f good IH]; intros result texts s c NoAbort Run NoError.
  - injection Run as <- <-. rewrite app_nil_r. destruct s as [c0 a w e]. reflexivity.
  - cbn [mapM] in Run. unfold bind in Run.
    destruct (form H self fuel f (comp s)) as [[c1 [text|e]]|] eqn:F; try discriminate.
    destruct (mapM (form H self fuel) good c1) as [[c2 [ts|e]]|] eqn:Rest;
      try discriminate.
    injection Run as <- <-.
    assert (E1 : error c1 = None).
    { destruct (error c1) eqn:E; [|reflexivity].
      exfalso. apply (mapM_form_keeps_error fuel good _ _ _ Rest); [|exact NoError].
      rewrite E. discriminate. }
    cbn [app]. rewrite (compile_loop_step H self fuel f (good ++ more) result s c1 text F E1).
    unfold eval. rewrite Ev.
    change (abort (compiled c1 s)) with (abort s). rewrite NoAbort.
    rewrite (IH (result ++ [text])%list ts (compiled c1 s) c2 NoAbort Rest NoError).
    now rewrite <- app_assoc.
Qed.

(** X13. Without evaluation, when every form of a sequence compiles and
    none records an error, [compile] returns their texts joined by blank
    lines, in order. *)
Theorem compile_joins (fuel : nat) (forms : list value) (texts : list string)
        (s : pstate external) (c : cstate external) :
  evaluate self = false ->
  abort s = false ->
  mapM (form H self fuel) forms (comp s) = Some (c, Ok texts) ->
  error c = None ->
  compile H self fuel forms s = Some (compiled c s, Ok (join (NL ++ NL) texts)).
Proof.
  intros Ev NoAbort Run NoError. unfold compile.
  rewrite <- (app_nil_r forms).
  rewrite (compile_loop_prefix fuel forms [] [] texts s c Ev NoAbort Run NoError).
  reflexivity.
Qed.

(** X14. Without evaluation, the first form that records an error ends the
    sequence: [compile] raises a [CompileError] that carries the text of that
    form and the recorded exception as its cause, and clears the error.  The
    texts of the forms before it are dropped and the forms after it are not
    compiled. *)
Theorem compile_error_aborts (fuel : nat) (good rest : list value) (bad : value)
        (texts : list string) (s : pstate external) (c1 c2 : cstate external)
        (text : string) (e : exn) :
  evaluate self = false ->
  abort s = false ->
  mapM (form H self fuel) good (comp s) = Some (c1, Ok texts) ->
  error c1 = None ->
  form H self fuel bad c1 = Some (c2, Ok text) ->
  error c2 = Some e ->
  compile H self fuel (good ++ bad :: rest) s
  = Some (compiled (set_error None c2) s, Raise (CompileError (NL ++ text) (Some e))).
Proof.
  intros Ev NoAbort Run NoError Bad Recorded. unfold compile.
  rewrite (compile_loop_prefix fuel good (bad :: rest) [] texts s c1 Ev NoAbort Run NoError).
  cbn [compile_loop]. unfold bind, on_compiler.
  change (comp (compiled c1 s)) with c1. rewrite Bad.
  change (error (comp (PState c2 (abort (compiled c1 s)) (warnings (compiled c1 s))
                          (stderr (compiled c1 s))))) with (error c2).
  rewrite Recorded. reflexivity.
Qed.

(** X15. Without evaluation the pipeline never sets the abort flag, issues
    no warning and prints nothing, however the compilation ends. *)
Theorem compile_without_evaluation_is_quiet
        (fuel : nat) (forms : list value) (s s' : pstate external) (r : result string) :
  evaluate self = false ->
  abort s = false ->
  compile H self fuel forms s = Some (s', r) ->
  abort s' = false /\ warnings s' = warnings s /\ stderr s' = stderr s.
Proof.
  intros Ev. unfold compile. generalize (@nil string) as result.
  revert s. induction forms as [|f forms IH]; intros s result NoAbort.
  - intros [= <- _]. auto.
  - cbn [compile_loop]. unfold bind at 1, on_compiler.
    destruct (form H self fuel f (comp s)) as [[c [text|e]]|]; try discriminate.
    + cbn [comp]. destruct (error c).
      * intros [= <- _]. auto.
      * unfold bind, eval. rewrite Ev. cbn [abort]. rewrite NoAbort.
        intros Run. apply IH in Run; [exact Run | reflexivity].
    + intros [= <- _]. auto.
Qed.

End RecordedError.

(** An error recorded earlier is still recorded after compiling [1]. *)
Lemma form_keeps_error_witness :
  error (CState (Demo.start Demo.main_ns 0) (Some (CompileError "earlier" None))) <> None.
Proof.
  refine (form_keeps_error (Demo.host true) Demo.readerless 1 (VInt 1)
            (CState (Demo.start Demo.main_ns 0) (Some (CompileError "earlier" None)))
            (CState (Demo.start Demo.main_ns 0) (Some (CompileError "earlier" None)))
            (Ok "(1)") _ _).
  - vm_compute. reflexivity.
  - discriminate.
Defined.

(** The sequence [a 1] compiles to two texts with a blank line between. *)
Lemma compile_joins_witness :
  compile (Demo.host true) Demo.readerless 3 [VStr "a"; VInt 1]
          (init (Demo.start Demo.main_ns 0))
  = Some (init (Demo.start Demo.main_ns 0), Ok ("a" ++ NL ++ NL ++ "(1)")).
Proof.
  refine (eq_trans
            (compile_joins (Demo.host true) Demo.readerless 3 [VStr "a"; VInt 1]
               ["a"; "(1)"] (init (Demo.start Demo.main_ns 0))
               (CState (Demo.start Demo.main_ns 0) None) _ _ _ _) _);
    vm_compute; reflexivity.
Defined.

(** In the sequence [a (quote) 2] the second form is in error. *)
Lemma compile_error_aborts_witness :
  compile (Demo.host true) Demo.readerless 3
          [VStr "a"; VTuple [VStr "quote"]; VInt 2] (init (Demo.start Demo.main_ns 0))
  = Some (init (Demo.start Demo.main_ns 0),
          Raise (CompileError
                   (NL ++ trace_text (Demo.host true) "special" (VTuple [VStr "quote"])
                                     (IndexError "tuple index out of range"))
                   (Some (IndexError "tuple index out of range")))).
Proof.
  refine (eq_trans
            (compile_error_aborts (Demo.host true) Demo.readerless 3
               [VStr "a"] [VInt 2] (VTuple [VStr "quote"]) ["a"]
               (init (Demo.start Demo.main_ns 0))
               (CState (Demo.start Demo.main_ns 0) None)
               (CState (Demo.start Demo.main_ns 0)
                       (Some (IndexError "tuple index out of range")))
               (trace_text (Demo.host true) "special" (VTuple [VStr "quote"])
                           (IndexError "tuple index out of range"))
               (IndexError "tuple index out of range") _ _ _ _ _ _) _);
    vm_compute; reflexivity.
Defined.

Lemma compile_without_evaluation_is_quiet_witness :
  abort (init (Demo.start Demo.main_ns 0)) = false
  /\ warnings (init (Demo.start Demo.main_ns 0)) = warnings (init (Demo.start Demo.main_ns 0))
  /\ stderr (init (Demo.start Demo.main_ns 0)) = stderr (init (Demo.start Demo.main_ns 0)).
Proof.
  refine (compile_without_evaluation_is_quiet (Demo.host true) Demo.readerless 3
            [VTuple [VStr "boom"]; VInt 2]
            (init (Demo.start Demo.main_ns 0)) (init (Demo.start Demo.main_ns 0))
            (Ok ("boom()" ++ NL ++ NL ++ "(2)")) _ _ _);
    vm_compute; reflexivity.
Defined.

(* ===================================================================== *)
(** ** The recursion budget *)
(* ===================================================================== *)

Section Budget.

Context {external : Type}.
Variable H : Host external.
Variable self : compiler.

Local Abbreviation C := (M (cstate external)).

Lemma extends_refl {A} (m : C A) : extends m m.
Proof. now intros s x. Qed.

Lemma extends_bind {A B} (m1 m2 : C A) (k1 k2 : A -> C B) :
  extends m1 m2 -> (forall a, extends (k1 a) (k2 a)) ->
  extends (bind m1 k1) (bind m2 k2).
Proof.
  intros Em Ek s x. unfold bind.
  destruct (m1 s) as [[s1 r]|] eqn:E; [|discriminate].
  rewrite (Em _ _ E). destruct r; [apply Ek | auto].
Qed.

Lemma extends_trace {A} name (inj : string -> A) expr (m1 m2 : C A) :
  extends m1 m2 -> extends (_trace H name inj expr m1) (_trace H name inj expr m2).
Proof.
  intros Em s x. unfold _trace.
  destruct (m1 s) as [[s1 r]|] eqn:E; [|discriminate].
  now rewrite (Em _ _ E).
Qed.

Lemma extends_macro_context {A} (m1 m2 : C A) :
  extends m1 m2 -> extends (macro_context self m1) (macro_context self m2).
Proof.
  intros Em s x. unfold macro_context.
  destruct (m1 (set_NS (ns_ref self) s)) as [[s1 r]|] eqn:E; [|discriminate].
  now rewrite (Em _ _ E).
Qed.

Lemma extends_mapM {A B} (f1 f2 : A -> C B) (l : list A) :
  (forall a, extends (f1 a) (f2 a)) -> extends (mapM f1 l) (mapM f2 l).
Proof.
  intros Ef. induction l as [|a l IH]; cbn [mapM].
  - apply extends_refl.
  - apply extends_bind; [apply Ef|]. intros b.
    apply extends_bind; [apply IH|]. intros bs. apply extends_refl.
Qed.

Ltac extends_step :=
  first
    [ apply extends_refl
    | assumption
    | match goal with
      | L : forall _, extends _ _ |- _ => apply L
      | L : forall _ _, extends _ _ |- _ => apply L
      end
    | apply extends_trace
    | apply extends_macro_context
    | apply extends_bind; [|intros ?]
    | apply extends_mapM; intros ?
    | match goal with
      | |- extends (if ?b then _ else _) _ => destruct b
      | |- extends (match ?x with _ => _ end) _ => destruct x
      | |- extends (let (_, _) := ?x in _) _ => destruct x
      end ].

Ltac extends_auto := repeat extends_step.

Section Recursive.

Variables budget1 budget2 : nat.
Hypothesis Budget : budget1 <= budget2.
Variables form1 form2 : value -> C string.
Hypothesis Rec : forall v, extends (form1 v) (form2 v).

Lemma extends_call_pairs (items : list value) :
  extends (call_pairs form1 items) (call_pairs form2 items).
Proof.
  enough (G : extends (call_pairs form1 items) (call_pairs form2 items)
              /\ forall a, extends (call_pairs form1 (a :: items))
                                  (call_pairs form2 (a :: items))) by apply G.
  induction items as [|v items [IH1 IH2]].
  - split; intros; apply extends_refl.
  - split; [apply IH2|]. intros k. cbn [call_pairs]. extends_auto.
Qed.

Lemma extends_call (f : list value) : extends (call H form1 f) (call H form2 f).
Proof.
  pose proof extends_call_pairs.
  unfold call, call_body, call_args. extends_auto.
Qed.

Lemma extends_parameter_pairs (items : list value) :
  extends (parameter_pairs H form1 items) (parameter_pairs H form2 items).
Proof.
  enough (G : extends (parameter_pairs H form1 items) (parameter_pairs H form2 items)
              /\ forall a, extends (parameter_pairs H form1 (a :: items))
                                  (parameter_pairs H form2 (a :: items))) by apply G.
  induction items as [|v items [IH1 IH2]].
  - split; intros; apply extends_refl.
  - split; [apply IH2|]. intros k. cbn [parameter_pairs]. unfold parameter_pair.
    extends_auto.
Qed.

Lemma extends_exhausted {A} (m : C A) : extends (fun _ => None) m.
Proof. intros s x. discriminate. Qed.

(** Drawing from an iterator with a larger budget. *)
Lemma extends_iterator_singles (n m : nat) (it : value) :
  n <= m -> extends (iterator_singles H n it) (iterator_singles H m it).
Proof.
  revert m. induction n as [|n IH]; intros m Le; [apply extends_exhausted|].
  destruct m as [|m]; [lia|]. assert (Le' : n <= m) by lia.
  specialize (IH m Le'). cbn [iterator_singles]. extends_auto.
Qed.

Lemma extends_iterator_pairs (n m : nat) (it : value) :
  n <= m -> extends (iterator_pairs H form1 n it) (iterator_pairs H form2 m it).
Proof.
  revert m. induction n as [|n IH]; intros m Le; [apply extends_exhausted|].
  destruct m as [|m]; [lia|]. assert (Le' : n <= m) by lia.
  specialize (IH m Le'). cbn [iterator_pairs]. unfold parameter_pair. extends_auto.
Qed.

Lemma extends_parameters (v : value) :
  extends (parameters H budget1 form1 v) (parameters H budget2 form2 v).
Proof.
  pose proof extends_parameter_pairs.
  pose proof (fun it => extends_iterator_singles budget1 budget2 it Budget).
  pose proof (fun it => extends_iterator_pairs budget1 budget2 it Budget).
  unfold parameters. extends_auto.
Qed.

Lemma extends_function (f : list value) :
  extends (function H budget1 form1 f) (function H budget2 form2 f).
Proof.
  pose proof extends_parameters.
  unfold function, function_body, body, body_body. extends_auto.
Qed.

Lemma extends_macro (head : string) (tail : list value) :
  extends (macro H self form1 head tail) (macro H self form2 head tail).
Proof. unfold macro, macro_body. extends_auto. Qed.

Lemma extends_form_step (f : value) :
  extends (form_step H self budget1 form1 f) (form_step H self budget2 form2 f).
Proof.
  pose proof extends_call. pose proof extends_function. pose proof extends_macro.
  unfold form_step, form_body, tuple, tuple_body, special, special_body,
    invocation, invocation_body.
  extends_auto.
Qed.

End Recursive.

Lemma form_extends_succ (fuel : nat) (f : value) :
  extends (form H self fuel f) (form H self (S fuel) f).
Proof.
  revert f. induction fuel as [|fuel IH]; intros f.
  - intros s x. discriminate.
  - cbn [form]. apply extends_form_step; [lia | exact IH].
Qed.

(** The result of compiling a form does not depend on the recursion budget:
    a result obtained with some budget is the result with every larger
    budget. *)
Lemma form_budget_monotone (fuel more : nat) (f : value) (s : cstate external)
        (x : cstate external * result string) :
  form H self fuel f s = Some x ->
  form H self (fuel + more) f s = Some x.
Proof.
  intros Run. induction more as [|more IH].
  - now rewrite Nat.add_0_r.
  - rewrite Nat.add_succ_r. now apply form_extends_succ.
Qed.

End Budget.

(* ===================================================================== *)
(** ** Termination without macros *)
(* ===================================================================== *)

Lemma size_positive (v : value) : 1 <= size v.
Proof. destruct v; simpl; lia. Qed.

Lemma list_sum_member {A} (f : A -> nat) (x : A) (l : list A) :
  In x l -> f x <= list_sum (map f l).
Proof.
  induction l as [|a l IH]; simpl; [contradiction|].
  intros [->|I]; [lia|]. specialize (IH I). lia.
Qed.

Lemma items_smaller (items : list value) (n : nat) :
  S (list_sum (map size items)) <= S n -> Forall (fun x => size x <= n) items.
Proof.
  intros B. apply Forall_forall. intros x I.
  pose proof (list_sum_member size x items I). lia.
Qed.

Lemma split_colon_Forall (P : value -> Prop) (items : list value) :
  Forall P items ->
  Forall P (fst (split_colon items)) /\ Forall P (snd (split_colon items)).
Proof.
  induction 1 as [|a items Pa Fi [IH1 IH2]]; cbn [split_colon].
  - split; constructor.
  - destruct (is_word ":" a); [split; [constructor | exact Fi]|].
    destruct (split_colon items) as [single paired]. cbn [fst snd] in *.
    split; [now constructor | assumption].
Qed.

(** The items of a builtin sequence are smaller than the sequence. *)
Lemma builtin_items_sizes (v : value) (items : list value) (n : nat) :
  size v <= n -> builtin_items v = Some items -> Forall (fun x => size x <= n) items.
Proof.
  intros B I.
  assert (Positive : 1 <= n) by (pose proof (size_positive v); lia).
  destruct v; cbn [builtin_items] in I; try discriminate; injection I as <-.
  - clear - Positive.
    induction s as [|c s IH]; cbn [chars]; constructor; [exact Positive | exact IH].
  - clear - Positive.
    induction b as [|c b IH]; cbn [byte_values]; constructor; [exact Positive | exact IH].
  - simpl in B. apply Forall_forall. intros x In.
    pose proof (list_sum_member size x _ In). lia.
  - simpl in B. apply Forall_forall. intros x In.
    pose proof (list_sum_member size x _ In). lia.
  - simpl in B. apply Forall_forall. intros x In.
    pose proof (list_sum_member size x _ In). lia.
  - simpl in B. apply Forall_forall. intros x In.
    apply in_map_iff in In. destruct In as [[k y] [<- In]]. cbn [fst].
    pose proof (list_sum_member (fun '(k, x) => size k + size x) (k, y) _ In) as L.
    cbn beta iota in L. lia.
Qed.

(** What [plain] says of a non-empty tuple, by the case [special] is in. *)
Lemma plain_tuple (quiet : string -> Prop) (head : value) (tail : list value) :
  plain quiet (VTuple (head :: tail)) ->
  match head with
  | VStr name =>
      if String.eqb name "quote" then True
      else if String.eqb name "lambda" then
        match tail with
        | params :: body =>
            exists items,
              builtin_items params = Some items
              /\ Forall (plain quiet) items /\ Forall (plain quiet) body
        | [] => True
        end
      else quiet name /\ Forall (plain quiet) tail
  | _ => plain quiet head /\ Forall (plain quiet) tail
  end.
Proof.
  intros P. inversion P as [v Atom|t|params items body B Fi Fb| |name t NQ NL Q Ft
                            |h t NotStr Ph Ft]; subst.
  - exfalso. exact (Atom head tail eq_refl).
  - exact I.
  - exists items. auto.
  - exact I.
  - apply String.eqb_neq in NQ, NL. rewrite NQ, NL. auto.
  - destruct head; try (split; assumption). exfalso. exact (NotStr s eq_refl).
Qed.

Section Termination.

Context {external : Type}.
Variable H : Host external.
Variable self : compiler.

Local Abbreviation C := (M (cstate external)).

Section Invariant.

Variable stable : process external -> Prop.

Lemma ends_ret {A} (a : A) : ends stable (ret a : C A).
Proof. intros s St. exists s, (Ok a). auto. Qed.

Lemma ends_raise {A} (e : exn) : ends stable (raise e : C A).
Proof. intros s St. exists s, (Raise e). auto. Qed.

Lemma ends_lift {A} (x : result A) : ends stable (lift x : C A).
Proof. intros s St. exists s, x. auto. Qed.

Lemma ends_read_host {A} (f : process external -> result A) :
  ends stable (read_host f).
Proof. intros s St. exists s, (f (proc s)). auto. Qed.

Lemma ends_bind {A B} (m : C A) (k : A -> C B) :
  ends stable m -> (forall a, ends stable (k a)) -> ends stable (bind m k).
Proof.
  intros Em Ek s St. unfold bind. destruct (Em s St) as (s1 & r & E & St1).
  rewrite E. destruct r as [a|e]; [now apply Ek | eauto].
Qed.

Lemma ends_try_except {A} (m : C A) handles (handler : exn -> C A) :
  ends stable m -> (forall e, ends stable (handler e)) ->
  ends stable (try_except m handles handler).
Proof.
  intros Em Eh s St. unfold try_except. destruct (Em s St) as (s1 & r & E & St1).
  rewrite E. destruct r as [a|e]; [eauto|].
  destruct (handles e); [now apply Eh | eauto].
Qed.

Lemma ends_trace {A} name (inj : string -> A) expr (m : C A) :
  ends stable m -> ends stable (_trace H name inj expr m).
Proof.
  intros Em s St. unfold _trace. destruct (Em s St) as (s1 & r & E & St1).
  rewrite E. destruct r as [a|e]; [eauto|].
  destruct (isinstance e "Exception"); eauto.
Qed.

Lemma ends_mapM {A B} (f : A -> C B) (l : list A) :
  (forall a, ends stable (f a)) -> ends stable (mapM f l).
Proof.
  intros Ef. induction l as [|a l IH]; cbn [mapM].
  - apply ends_ret.
  - apply ends_bind; [apply Ef|]. intros b.
    apply ends_bind; [apply IH|]. intros bs. apply ends_ret.
Qed.

End Invariant.

Ltac ends_step :=
  first
    [ assumption
    | match goal with
      | L : forall _, ends _ _ |- _ => apply L
      end
    | apply ends_ret
    | apply ends_raise
    | apply ends_lift
    | apply ends_read_host
    | apply ends_trace
    | apply ends_try_except; [|intros ?]
    | apply ends_bind; [|intros ?]
    | apply ends_mapM; intros ?
    | match goal with
      | |- ends _ (if ?b then _ else _) => destruct b
      | |- ends _ (match ?x with _ => _ end) => destruct x
      | |- ends _ (let (_, _) := ?x in _) => destruct x
      end ].

Ltac ends_auto := repeat ends_step.

Lemma ends_quoted stable (v : value) : ends stable (quoted H v).
Proof. unfold quoted, quoted_body, pickle, pickle_body. ends_auto. Qed.

Lemma ends_symbol stable (name : string) : ends stable (symbol H self name).
Proof.
  pose proof (ends_quoted stable). unfold symbol, symbol_body. ends_auto.
Qed.

(** A lookup returns, whatever it finds and whatever it does to the
    process. *)
Lemma get_macro_returns (head : string) (s : cstate external) :
  exists s' r, _get_macro H self head s = Some (s', r).
Proof.
  assert (E : ends (fun _ => True) (_get_macro H self head)).
  { pose proof (ends_symbol (fun _ => True)).
    assert (R : forall text, ends (fun _ : process external => True)
                                  (run_host (py_eval H text))).
    { intros text s0 _. unfold run_host. destruct (py_eval H text (proc s0)) as [p r].
      eauto. }
    unfold _get_macro, _qualified_macro, _unqualified_macro, qualified_lookup,
      local_macro.
    ends_auto. }
  destruct (E s I) as (s' & r & Run & _). eauto.
Qed.

Variable stable : process external -> Prop.

Local Abbreviation quiet := (no_macro H self stable).

Section Recursive.

Variable budget : nat.
Variable self_form : value -> C string.
Variable n : nat.
Hypothesis Rec :
  forall x, size x <= n -> plain quiet x -> ends stable (self_form x).

Local Abbreviation fits := (fun x => size x <= n /\ plain quiet x).

Lemma fits_all (items : list value) :
  Forall (fun x => size x <= n) items -> Forall (plain quiet) items ->
  Forall fits items.
Proof.
  intros Fs Fp. apply Forall_forall. intros x In.
  rewrite Forall_forall in Fs, Fp. auto.
Qed.

Lemma ends_mapM_forms (items : list value) :
  Forall fits items -> ends stable (mapM self_form items).
Proof.
  induction 1 as [|x items [Sx Px] _ IH]; cbn [mapM].
  - apply ends_ret.
  - apply ends_bind; [now apply Rec|]. intros t.
    apply ends_bind; [exact IH | intros; apply ends_ret].
Qed.

Lemma ends_call_pairs (items : list value) :
  Forall fits items -> ends stable (call_pairs self_form items).
Proof.
  enough (G : (Forall fits items -> ends stable (call_pairs self_form items))
              /\ forall k, Forall fits (k :: items) ->
                           ends stable (call_pairs self_form (k :: items)))
    by apply G.
  induction items as [|v items [IH1 IH2]].
  - split; intros; [apply ends_ret | apply ends_raise].
  - split; [apply IH2|]. intros k F. cbn [call_pairs].
    inversion F as [|? ? _ F1]; subst. inversion F1 as [|? ? [Sv Pv] F2]; subst.
    apply ends_bind; [apply ends_lift|]. intros word.
    apply ends_bind; [now apply Rec|]. intros text.
    apply ends_bind; [now apply IH1 | intros; apply ends_ret].
Qed.

Lemma ends_call_args (items : list value) :
  Forall fits items -> ends stable (call_args self_form items).
Proof.
  intros F. unfold call_args.
  destruct (split_colon_Forall _ items F) as [F1 F2].
  destruct (split_colon items) as [single paired]. cbn [fst snd] in *.
  apply ends_bind; [now apply ends_mapM_forms|]. intros positional.
  apply ends_bind; [now apply ends_call_pairs | intros; apply ends_ret].
Qed.

Lemma ends_call (f : list value) :
  Forall fits f -> ends stable (call H self_form f).
Proof.
  intros F. apply ends_trace. unfold call_body.
  destruct f as [|head rest]; [apply ends_raise|].
  inversion F as [|? ? [Sh Ph] Fr]; subst.
  assert (Plain : ends stable (callee <- self_form head ;;
                               args <- call_args self_form rest ;;
                               ret (callee ++ "(" ++ _join_args args ++ ")"))).
  { apply ends_bind; [now apply Rec|]. intros callee.
    apply ends_bind; [now apply ends_call_args | intros; apply ends_ret]. }
  destruct head; try exact Plain.
  destruct (startswith "." s); [|exact Plain].
  apply ends_bind; [now apply ends_call_args|].
  intros [|receiver args]; [apply ends_raise | apply ends_ret].
Qed.

Lemma ends_parameter_pair (k v : value) :
  fits v -> ends stable (parameter_pair H self_form k v).
Proof.
  intros [Sv Pv]. unfold parameter_pair.
  repeat match goal with
         | |- ends _ (if ?b then _ else _) => destruct b
         end; try apply ends_ret.
  apply ends_bind; [now apply Rec | intros; apply ends_ret].
Qed.

Lemma ends_parameter_pairs (items : list value) :
  Forall fits items -> ends stable (parameter_pairs H self_form items).
Proof.
  enough (G : (Forall fits items -> ends stable (parameter_pairs H self_form items))
              /\ forall k, Forall fits (k :: items) ->
                           ends stable (parameter_pairs H self_form (k :: items)))
    by apply G.
  induction items as [|v items [IH1 IH2]].
  - split; intros; [apply ends_ret | apply ends_raise].
  - split; [apply IH2|]. intros k F. cbn [parameter_pairs].
    inversion F as [|? ? _ F1]; subst. inversion F1 as [|? ? Fv F2]; subst.
    apply ends_bind; [now apply ends_parameter_pair|]. intros item.
    apply ends_bind; [now apply IH1 | intros; apply ends_ret].
Qed.

(** The parameters of a [lambda] that are a builtin sequence: no iterator
    of the host is drawn from. *)
Lemma ends_parameters (v : value) (items : list value) :
  builtin_items v = Some items -> Forall fits items ->
  ends stable (parameters H budget self_form v).
Proof.
  intros B F. unfold parameters. rewrite B.
  destruct (split_colon_Forall _ items F) as [F1 F2].
  destruct (split_colon items) as [single paired]. cbn [fst snd] in *.
  apply ends_bind; [apply ends_mapM; intros; apply ends_lift|]. intros singles.
  apply ends_bind; [now apply ends_parameter_pairs | intros; apply ends_ret].
Qed.

Lemma ends_body (forms : list value) :
  Forall fits forms -> ends stable (body H self_form forms).
Proof.
  intros F. apply ends_trace. unfold body_body.
  destruct forms as [|f [|g forms]].
  - apply ends_ret.
  - inversion F as [|? ? [Sf Pf] _]; subst.
    apply ends_bind; [now apply Rec | intros; apply ends_ret].
  - apply ends_bind; [now apply ends_mapM_forms | intros; apply ends_ret].
Qed.

Lemma ends_function (tail : list value) :
  Forall (fun x => size x <= n) tail ->
  match tail with
  | params :: body =>
      exists items,
        builtin_items params = Some items
        /\ Forall (plain quiet) items /\ Forall (plain quiet) body
  | [] => True
  end ->
  ends stable (function H budget self_form (VStr "lambda" :: tail)).
Proof.
  intros Fs P. apply ends_trace. unfold function_body.
  destruct tail as [|params body]; [apply ends_raise|].
  destruct P as (items & B & Fi & Fb).
  inversion Fs as [|? ? Sp Sb]; subst.
  change (is_word "lambda" (VStr "lambda")) with true. cbv iota.
  apply ends_bind.
  { apply (ends_parameters params items B).
    apply fits_all; [now apply builtin_items_sizes with (v := params) | exact Fi]. }
  intros out. apply ends_bind; [apply ends_lift|]. intros text.
  apply ends_bind; [|intros; apply ends_ret].
  apply ends_body. now apply fits_all.
Qed.

(** Without a macro for [head], [macro] gives [None], or the diagnostic of a
    failed lookup. *)
Lemma ends_macro (head : string) (tail : list value) :
  quiet head -> ends stable (macro H self self_form head tail).
Proof.
  intros Q. apply ends_trace. intros s St. unfold macro_body, bind.
  destruct (get_macro_returns head s) as (s1 & r & G). rewrite G.
  destruct (Q s s1 r St G) as [St1 NoMacro].
  destruct r as [m|e]; [|eauto].
  rewrite (NoMacro m eq_refl). exists s1, (Ok None). auto.
Qed.

Lemma ends_form_step (f : value) :
  size f <= S n -> plain quiet f ->
  ends stable (form_step H self budget self_form f).
Proof.
  intros B P. apply ends_trace. unfold form_body.
  destruct f; try apply ends_quoted.
  - destruct (negb (startswith ":" s)); [apply ends_symbol | apply ends_quoted].
  - destruct items as [|head tail]; [apply ends_quoted|].
    assert (Fs : Forall (fun x => size x <= n) (head :: tail))
      by (apply items_smaller; exact B).
    assert (Positive : 1 <= n).
    { inversion Fs as [|? ? Sh _]; subst. pose proof (size_positive head). lia. }
    apply plain_tuple in P.
    apply ends_trace. unfold tuple_body.
    destruct head;
      try (destruct P as [Ph Pt]; apply ends_call; apply fits_all;
           [exact Fs | constructor; assumption]).
    apply ends_trace. unfold special_body.
    inversion Fs as [|? ? _ Ft]; subst.
    destruct (String.eqb s "quote").
    + destruct tail; [apply ends_raise | apply ends_quoted].
    + destruct (String.eqb s "lambda") eqn:L.
      * apply String.eqb_eq in L. subst s. now apply ends_function.
      * destruct P as [Q Pt]. apply ends_trace. unfold invocation_body.
        apply ends_bind; [now apply ends_macro|]. intros result.
        destruct (truthy result); [apply ends_ret|].
        apply ends_call. apply fits_all.
        -- constructor; [exact Positive | exact Ft].
        -- constructor; [|exact Pt]. apply plain_atom. discriminate.
Qed.

End Recursive.

Lemma form_ends (fuel : nat) (f : value) :
  size f <= fuel -> plain quiet f -> ends stable (form H self fuel f).
Proof.
  revert f. induction fuel as [|fuel IH]; intros f B P.
  - pose proof (size_positive f). lia.
  - cbn [form]. apply ends_form_step with (n := fuel); assumption.
Qed.

(** X16. Compiling a form in which no head is a macro and the parameters of
    every [lambda] are a builtin sequence always ends: the compiler only
    descends into the parts of the form, so a recursion budget equal to the
    number of values the form is made of is enough, and every larger budget
    gives the same result.  That no head is a macro is asked of the heads
    of the invocations in the form, in the processes an invariant [stable]
    describes, which the lookups themselves must keep. *)
Theorem form_terminates (fuel : nat) (f : value) (s : cstate external) :
  plain (no_macro H self stable) f ->
  stable (proc s) ->
  size f <= fuel ->
  exists s' r,
    (forall more, form H self (fuel + more) f s = Some (s', r))
    /\ stable (proc s').
Proof.
  intros P St B. destruct (form_ends fuel f B P s St) as (s' & r & E & St').
  exists s', r. split; [|exact St'].
  intros more. now apply form_budget_monotone.
Qed.

End Termination.

(** An iterator without end given as the parameters of a [lambda]: no budget
    is enough, the compilation of the form does not end. *)
Lemma endless_parameters (fuel : nat) (s : cstate nat) :
  form Demo.iterating_host Demo.readerless fuel
       (VTuple [VStr "lambda"; Demo.endless]) s = None.
Proof.
  assert (Drawn : forall n s0,
             iterator_singles Demo.iterating_host n Demo.endless s0 = None).
  { induction n as [|n IH]; intros s0; [reflexivity|].
    cbn [iterator_singles]. unfold bind at 1. unfold run_host.
    cbn [py_next Demo.iterating_host Demo.iterator_next Demo.endless].
    change (is_word ":" (VStr "a")) with false. cbv iota.
    unfold bind at 1. unfold lift.
    change (single_parameter Demo.iterating_host (VStr "a")) with (@Ok value (VStr "a")).
    cbv iota. unfold bind. now rewrite IH. }
  destruct fuel as [|fuel]; [reflexivity|].
  assert (Params : forall self_form,
             parameters Demo.iterating_host fuel self_form Demo.endless s = None).
  { intros self_form. unfold parameters. cbn [builtin_items Demo.endless].
    unfold bind at 1. unfold run_host.
    cbn [py_iter Demo.iterating_host Demo.iterator_iter Demo.endless].
    unfold bind. now rewrite Drawn. }
  cbn [form]. unfold form_step, form_body, tuple, tuple_body, special.
  unfold _trace at 1 2 3.
  change (special_body Demo.iterating_host Demo.readerless fuel
            (form Demo.iterating_host Demo.readerless fuel) "lambda" [Demo.endless] s)
    with (function Demo.iterating_host fuel
            (form Demo.iterating_host Demo.readerless fuel)
            [VStr "lambda"; Demo.endless] s).
  unfold function, _trace, function_body.
  change (is_word "lambda" (VStr "lambda")) with true. cbv iota.
  unfold bind at 1. now rewrite Params.
Qed.

(** In the namespace of the small host, whose macro container holds [tick],
    [twice], [leak], [rebind] and [blank], neither [print] nor [len] is a
    macro. *)
Lemma demo_print_no_macro :
  no_macro (Demo.host true) Demo.readerless (fun p => p_ns p = Demo.main_ns) "print".
Proof.
  intros [[ns ext NS] err] s' r St E. cbn in St. subst ns.
  vm_compute in E. injection E as <- <-.
  split; [reflexivity | now intros m [= <-]].
Qed.

Lemma demo_len_no_macro :
  no_macro (Demo.host true) Demo.readerless (fun p => p_ns p = Demo.main_ns) "len".
Proof.
  intros [[ns ext NS] err] s' r St E. cbn in St. subst ns.
  vm_compute in E. injection E as <- <-.
  split; [reflexivity | now intros m [= <-]].
Qed.

(** [(print (lambda (x : y (quote foo)) (len x)) : sep (quote x))] is made
    of nineteen values: with every budget from nineteen on it compiles,
    without error, to the same text. *)
Lemma form_terminates_witness :
  exists s' r,
    (forall more,
        form (Demo.host true) Demo.readerless (19 + more)
             (VTuple [VStr "print";
                      VTuple [VStr "lambda";
                              VTuple [VStr "x"; VStr ":"; VStr "y";
                                      VTuple [VStr "quote"; VStr "foo"]];
                              VTuple [VStr "len"; VStr "x"]];
                      VStr ":"; VStr "sep"; VTuple [VStr "quote"; VStr "x"]])
             (CState (Demo.start Demo.main_ns 0) None)
        = Some (s', r))
    /\ s' = CState (Demo.start Demo.main_ns 0) None
    /\ r = Ok ("print(" ++ NL ++ "  (lambda x,y='foo':" ++ NL ++ "    len(" ++ NL
               ++ "      x))," ++ NL ++ "  sep='x')").
Proof.
  destruct (form_terminates (Demo.host true) Demo.readerless
              (fun p => p_ns p = Demo.main_ns) 19
              (VTuple [VStr "print";
                       VTuple [VStr "lambda";
                               VTuple [VStr "x"; VStr ":"; VStr "y";
                                       VTuple [VStr "quote"; VStr "foo"]];
                               VTuple [VStr "len"; VStr "x"]];
                       VStr ":"; VStr "sep"; VTuple [VStr "quote"; VStr "x"]])
              (CState (Demo.start Demo.main_ns 0) None))
    as (s' & r & Run & _).
  - apply plain_invocation; [discriminate | discriminate | exact demo_print_no_macro|].
    repeat apply Forall_cons; try apply Forall_nil;
      try (apply plain_atom; discriminate); try apply plain_quote.
    apply plain_lambda with (items := [VStr "x"; VStr ":"; VStr "y";
                                       VTuple [VStr "quote"; VStr "foo"]]);
      [reflexivity| |].
    + repeat apply Forall_cons; try apply Forall_nil;
        try (apply plain_atom; discriminate); apply plain_quote.
    + repeat apply Forall_cons; try apply Forall_nil.
      apply plain_invocation;
        [discriminate | discriminate | exact demo_len_no_macro|].
      repeat apply Forall_cons; try apply Forall_nil; apply plain_atom; discriminate.
  - reflexivity.
  - vm_compute. repeat constructor.
  - exists s', r. split; [exact Run|].
    pose proof (Run 0) as First. vm_compute in First.
    injection First as <- <-. split; reflexivity.
Defined.

(* ===================================================================== *)
(** ** Parameters of a lambda *)
(* ===================================================================== *)

Section Lambda.

Context {external : Type}.
Variable H : Host external.
Variable budget : nat.
Variable self_form : value -> M (cstate external) string.

(** X17. A [lambda] whose paired parameters are odd in number never
    compiles cleanly.  The generator [parameters] raises where [function]
    consumes it, so the diagnostic is the one of [function], over the whole
    form, and an error is recorded. *)
Theorem lambda_incomplete_pair (single paired rest : list value)
        (s s' : cstate external) (text : string) :
  Forall (fun a => is_word ":" a = false) single ->
  Nat.odd (List.length paired) = true ->
  function H budget self_form
           (VStr "lambda" :: VTuple (single ++ VStr ":" :: paired) :: rest) s
  = Some (s', Ok text) ->
  exists e,
    error s' = Some e
    /\ text = trace_text H "function"
                         (VTuple (VStr "lambda"
                                    :: VTuple (single ++ VStr ":" :: paired) :: rest)) e.
Proof.
  intros NoColon Odd Run.
  assert (Params : forall s1 items,
             parameters H budget self_form (VTuple (single ++ VStr ":" :: paired)) s
             <> Some (s1, Ok items)).
  { intros s1 items. unfold parameters. cbn [builtin_items].
    rewrite split_colon_app by assumption. unfold bind, ret.
    destruct (mapM _ single s) as [[s2 [singles|e]]|]; try discriminate.
    destruct (parameter_pairs H self_form paired s2) as [[s3 [pairs|e]]|] eqn:E;
      try discriminate.
    apply parameter_pairs_even in E. rewrite E in Odd.
    rewrite Nat.odd_mul in Odd. discriminate Odd. }
  unfold function, _trace in Run.
  destruct (function_body H budget self_form
              (VStr "lambda" :: VTuple (single ++ VStr ":" :: paired) :: rest) s)
    as [[s1 [t|e]]|] eqn:E; try discriminate.
  - exfalso. revert E. unfold function_body.
    change (is_word "lambda" (VStr "lambda")) with true. cbv iota. unfold bind.
    destruct (parameters H budget self_form (VTuple (single ++ VStr ":" :: paired)) s)
      as [[s2 [items|e]]|] eqn:P; try discriminate.
    intros _. exact (Params s2 items eq_refl).
  - destruct (isinstance e "Exception"); [|discriminate].
    injection Run as <- <-. exists e. split; reflexivity.
Qed.

End Lambda.

(** [(lambda (a : b))]: the default of [b] is missing. *)
Lemma lambda_incomplete_pair_witness :
  exists e,
    error (CState (Demo.start Demo.main_ns 0)
                  (Some (CompileError "Incomplete pair." None))) = Some e
    /\ trace_text (Demo.host true) "function"
                  (VTuple [VStr "lambda"; VTuple [VStr "a"; VStr ":"; VStr "b"]])
                  (CompileError "Incomplete pair." None)
       = trace_text (Demo.host true) "function"
                    (VTuple (VStr "lambda"
                               :: VTuple ([VStr "a"] ++ VStr ":" :: [VStr "b"]) :: [])) e.
Proof.
  refine (lambda_incomplete_pair (Demo.host true) 3
            (form (Demo.host true) Demo.readerless 3)
            [VStr "a"] [VStr "b"] []
            (CState (Demo.start Demo.main_ns 0) None) _ _ _ _ _).
  - repeat constructor.
  - reflexivity.
  - vm_compute. reflexivity.
Defined.

(* ===================================================================== *)
(** ** Plain symbols *)
(* ===================================================================== *)

Lemma prefix_cons (a c : ascii) (p s : string) :
  String.prefix (String a p) (String c s)
  = if Ascii.ascii_dec a c then String.prefix p s else false.
Proof. reflexivity. Qed.

Lemma prefix_dots (s : string) :
  String.prefix ".." s = true -> String.prefix "." s = true.
Proof.
  destruct s as [|c s]; [intros E; vm_compute in E; discriminate E|].
  rewrite !prefix_cons.
  destruct (Ascii.ascii_dec "." c); [intros _; destruct s; reflexivity | discriminate].
Qed.

Lemma find_sub_dots (s : string) :
  find_sub "." s = None -> find_sub ".." s = None.
Proof.
  induction s as [|c s IH]; intros E; [reflexivity|].
  cbn [find_sub] in *.
  destruct (String.prefix "." (String c s)) eqn:P; [discriminate|].
  destruct (String.prefix ".." (String c s)) eqn:P2.
  { apply prefix_dots in P2. congruence. }
  destruct (find_sub "." s) as [[b a]|]; [discriminate|].
  now rewrite IH.
Qed.

Lemma find_sub_dot_char (s : string) :
  find_sub "." s = None -> has_char (Ascii.eqb ".") s = false.
Proof.
  induction s as [|c s IH]; intros E; [reflexivity|].
  cbn [find_sub] in E. cbn [has_char].
  destruct (String.prefix "." (String c s)) eqn:P; [discriminate|].
  destruct (find_sub "." s) as [[b a]|]; [discriminate|].
  rewrite IH by reflexivity. rewrite Bool.orb_false_r.
  rewrite prefix_cons in P. destruct (Ascii.ascii_dec "." c) as [<-|NE].
  - destruct s; discriminate.
  - now apply Ascii.eqb_neq.
Qed.

Lemma has_char_rev_string (p : ascii -> bool) (acc s : string) :
  has_char p (rev_string acc s) = (has_char p s || has_char p acc)%bool.
Proof.
  revert acc. induction s as [|c s IH]; intros acc; cbn [rev_string has_char].
  - reflexivity.
  - rewrite IH. cbn [has_char].
    destruct (p c), (has_char p s), (has_char p acc); reflexivity.
Qed.

Lemma endswith_dot_char (s : string) :
  endswith "." s = true -> has_char (Ascii.eqb ".") s = true.
Proof.
  unfold endswith. intros E.
  pose proof (has_char_rev_string (Ascii.eqb ".") "" s) as R.
  cbn [has_char] in R. rewrite Bool.orb_false_r in R. rewrite <- R.
  cbn [rev_string] in E.
  destruct (rev_string "" s) as [|c t]; [vm_compute in E; discriminate E|].
  rewrite prefix_cons in E. cbn [has_char].
  destruct (Ascii.ascii_dec "." c) as [<-|]; [reflexivity | discriminate].
Qed.

Section PlainSymbols.

Context {external : Type}.
Variable H : Host external.
Variable self : compiler.

(** X18. A symbol without a dot compiles to itself and leaves the state of
    the compiler alone: only qualified names and module handles are
    rewritten. *)
Theorem symbol_plain (name : string) (s : cstate external) :
  contains "." name = false ->
  symbol H self name s = Some (s, Ok name).
Proof.
  unfold contains. intros NoDot.
  destruct (find_sub "." name) as [found|] eqn:Dot; [discriminate|].
  unfold symbol. apply _trace_ok. unfold symbol_body.
  destruct (is_raw name); [reflexivity|].
  unfold contains. rewrite (find_sub_dots _ Dot).
  destruct (endswith "." name) eqn:E; [|reflexivity].
  apply endswith_dot_char in E.
  rewrite (find_sub_dot_char _ Dot) in E. discriminate.
Qed.

End PlainSymbols.

Lemma symbol_plain_witness :
  symbol (Demo.host true) Demo.readerless "print" (CState (Demo.start Demo.main_ns 0) None)
  = Some (CState (Demo.start Demo.main_ns 0) None, Ok "print").
Proof.
  refine (symbol_plain (Demo.host true) Demo.readerless "print"
            (CState (Demo.start Demo.main_ns 0) None) _).
  reflexivity.
Defined.
